(** * vckit-db-tools: snapshot/restore engine and encryption-key rotation

    A shallow embedding of [src/rotate-key.ts] (the secret cipher, the
    generators and the rotation pipeline), [src/backup-restore.ts] (type
    mapper, snapshot writer, statement player, verification, size format),
    [src/change-password.ts], [src/db-utils.ts], the environment file of
    [src/cli.ts] and the colour functions of [src/ui.ts], followed by the
    properties stated about them.

    Layout: the JavaScript built-ins the sources call ([JS], [Buffer],
    [JSLib]), the control-flow monad ([Eff]), then one module per source
    file holding its definitions; the lemmas and theorems come after all
    definitions. *)

From Stdlib Require Import List NArith ZArith Lia Bool.
From Stdlib.Strings Require String.
From Stdlib.Strings Require Import Ascii Byte.
Import String.StringSyntax.
Delimit Scope string_scope with string.
Import ListNotations.

Local Open Scope N_scope.

(* ===================================================================== *)
(** * JavaScript strings                                                  *)
(* ===================================================================== *)

(** A JavaScript string is a sequence of UTF-16 code units; every unit is
    below [0x10000].  The functions of this module are the [String.prototype]
    methods (and the one regular expression) that the two source files use. *)
Module JS.

Definition jsstring := list N.

(** An ASCII literal of the source text. *)
Definition lit (s : String.string) : jsstring :=
  map N_of_ascii (String.list_ascii_of_string s).
Arguments lit s%_string.

Definition dquote : N := 34.
Definition squote : N := 39.
Definition newline : N := 10.

(** [`"${s}"`] *)
Definition quoted (s : jsstring) : jsstring := dquote :: s ++ [dquote].

(** [a === b] on strings *)
Fixpoint eqb (a b : jsstring) : bool :=
  match a, b with
  | [], [] => true
  | x :: a', y :: b' => (x =? y) && eqb a' b'
  | _, _ => false
  end.

(** [s.startsWith(p)] *)
Fixpoint startsWith (s p : jsstring) : bool :=
  match p, s with
  | [], _ => true
  | c :: p', d :: s' => (c =? d) && startsWith s' p'
  | _ :: _, [] => false
  end.

(** [s.endsWith(p)] *)
Definition endsWith (s p : jsstring) : bool := startsWith (rev s) (rev p).

(** [s.includes(p)] *)
Fixpoint includes (s p : jsstring) : bool :=
  startsWith s p ||
  match s with
  | [] => false
  | _ :: s' => includes s' p
  end.

(** ECMAScript WhiteSpace and LineTerminator code points, as [trim] strips
    them. *)
Definition isWhiteSpace (c : N) : bool :=
  ((9 <=? c) && (c <=? 13)) || (c =? 32) || (c =? 160) || (c =? 0x1680)
  || ((0x2000 <=? c) && (c <=? 0x200A)) || (c =? 0x2028) || (c =? 0x2029)
  || (c =? 0x202F) || (c =? 0x205F) || (c =? 0x3000) || (c =? 0xFEFF).

Fixpoint trimStart (s : jsstring) : jsstring :=
  match s with
  | c :: s' => if isWhiteSpace c then trimStart s' else s
  | [] => []
  end.

(** [s.trim()] *)
Definition trim (s : jsstring) : jsstring := rev (trimStart (rev (trimStart s))).

(** [s.split(sep)] for a one-unit separator: never the empty array. *)
Fixpoint split (sep : N) (s : jsstring) : list jsstring :=
  match s with
  | [] => [[]]
  | c :: r =>
      if c =? sep then [] :: split sep r
      else match split sep r with
           | h :: t => (c :: h) :: t
           | [] => [[c]]
           end
  end.

(** [parts.join(sep)] *)
Fixpoint join (sep : jsstring) (parts : list jsstring) : jsstring :=
  match parts with
  | [] => []
  | [p] => p
  | p :: rest => p ++ sep ++ join sep rest
  end.

(** [s.replace(/'/g, "''")] *)
Fixpoint doubleQuotes (s : jsstring) : jsstring :=
  match s with
  | [] => []
  | c :: r => if c =? squote then squote :: squote :: doubleQuotes r
              else c :: doubleQuotes r
  end.

(** [s.substring(0, n)] *)
Definition substring0 (n : nat) (s : jsstring) : jsstring := firstn n s.

(** [s.toUpperCase()], on the ASCII letters (catalog type names are ASCII;
    other units are left as they are). *)
Definition toUpperCase (s : jsstring) : jsstring :=
  map (fun c => if (97 <=? c) && (c <=? 122) then c - 32 else c) s.

Fixpoint digits (u : Decimal.uint) : jsstring :=
  match u with
  | Decimal.Nil => []
  | Decimal.D0 u => 48 :: digits u
  | Decimal.D1 u => 49 :: digits u
  | Decimal.D2 u => 50 :: digits u
  | Decimal.D3 u => 51 :: digits u
  | Decimal.D4 u => 52 :: digits u
  | Decimal.D5 u => 53 :: digits u
  | Decimal.D6 u => 54 :: digits u
  | Decimal.D7 u => 55 :: digits u
  | Decimal.D8 u => 56 :: digits u
  | Decimal.D9 u => 57 :: digits u
  end.

(** [String(n)] for an integer [n] that a Number holds exactly and prints
    with all its digits: a count, a length, a size (below 2^53 in absolute
    value). *)
Definition numberToString (n : Z) : jsstring :=
  match n with
  | Z0 => [48]
  | Zpos p => digits (Pos.to_uint p)
  | Zneg p => 45 :: digits (Pos.to_uint p)
  end.

(** A Number as [Number::toString] reads it: not-a-number, an infinity, a
    zero, or a finite value that is not zero, given by its sign and by the
    integers [s] and [n] of the language specification: [s] holds the
    shortest decimal digits that denote the value, [k] of them, and the
    value is [s * 10^(n - k)]. *)
Inductive Number :=
| NaN
| Infinity (negative : bool)
| Zero (negative : bool)
| Finite (negative : bool) (s : positive) (n : Z).

(** [Number::toString(x)] in radix 10: plain digits when [-5 <= n <= 21],
    with the point where [n] puts it, and the exponent form otherwise. *)
Definition Number_toString (x : Number) : jsstring :=
  match x with
  | NaN => lit "NaN"
  | Infinity negative => (if negative then lit "-" else []) ++ lit "Infinity"
  | Zero _ => lit "0"
  | Finite negative s n =>
      let ds := digits (Pos.to_uint s) in
      let k := Z.of_nat (length ds) in
      (if negative then lit "-" else [])
      ++ (if (-5 <=? n)%Z && (n <=? 21)%Z then
            if (k <=? n)%Z then ds ++ repeat 48 (Z.to_nat (n - k))
            else if (0 <? n)%Z
            then firstn (Z.to_nat n) ds ++ lit "." ++ skipn (Z.to_nat n) ds
            else lit "0." ++ repeat 48 (Z.to_nat (- n)) ++ ds
          else
            let exponent :=
              (if (n <? 0)%Z then lit "-" else lit "+") ++ numberToString (Z.abs (n - 1)) in
            match ds with
            | [] => []
            | [d] => [d] ++ lit "e" ++ exponent
            | d :: rest => [d] ++ lit "." ++ rest ++ lit "e" ++ exponent
            end)
  end.

(** [array.includes(s)] on an array of strings. *)
Definition array_includes (a : list jsstring) (s : jsstring) : bool := existsb (eqb s) a.

(** The properties every plain object inherits from [Object.prototype]:
    reading one of these names never gives [undefined]; it gives a function,
    or, for [__proto__], the prototype itself. *)
Definition object_prototype_names : list jsstring :=
  [lit "constructor"; lit "__defineGetter__"; lit "__defineSetter__";
   lit "hasOwnProperty"; lit "__lookupGetter__"; lit "__lookupSetter__";
   lit "isPrototypeOf"; lit "propertyIsEnumerable"; lit "toString";
   lit "valueOf"; lit "__proto__"; lit "toLocaleString"].

Definition isHexDigit (c : N) : bool :=
  ((48 <=? c) && (c <=? 57)) || ((97 <=? c) && (c <=? 102))
  || ((65 <=? c) && (c <=? 70)).

(** [/^[a-fA-F0-9]{64}$/.test(s)]: without the [m] flag, [$] is the end of
    the input. *)
Definition isHex64 (s : jsstring) : bool :=
  (length s =? 64)%nat && forallb isHexDigit s.

(** No unpaired surrogate ([String.prototype.isWellFormed]), every unit a
    16-bit value. *)
Definition isHighSurrogate (u : N) : bool := (0xD800 <=? u) && (u <=? 0xDBFF).
Definition isLowSurrogate (u : N) : bool := (0xDC00 <=? u) && (u <=? 0xDFFF).

Fixpoint isWellFormed (s : jsstring) : bool :=
  match s with
  | [] => true
  | u :: r =>
      if isHighSurrogate u then
        match r with
        | v :: r' => isLowSurrogate v && isWellFormed r'
        | [] => false
        end
      else negb (isLowSurrogate u) && (u <? 0x10000) && isWellFormed r
  end.

End JS.
Export JS.

(* ===================================================================== *)
(** * Node's Buffer                                                       *)
(* ===================================================================== *)

(** [Buffer.from(s, 'utf8')], [buf.toString('utf8')], [Buffer.from(s, 'hex')],
    [buf.toString('hex')], [buf.slice] and [Buffer.concat], on byte lists. *)
Module Buffer.

Definition bytes := list byte.

Definition byte_of_N (n : N) : byte :=
  match Byte.of_N (n mod 256) with
  | Some b => b
  | None => x00
  end.

(** ** UTF-8 *)

Definition replacement_bytes : list N := [0xEF; 0xBF; 0xBD].

(** UTF-8 of one Unicode scalar value. *)
Definition utf8_of_code_point (cp : N) : list N :=
  if cp <? 0x80 then [cp]
  else if cp <? 0x800 then [0xC0 + cp / 64; 0x80 + cp mod 64]
  else if cp <? 0x10000 then
    [0xE0 + cp / 4096; 0x80 + (cp / 64) mod 64; 0x80 + cp mod 64]
  else
    [0xF0 + cp / 262144; 0x80 + (cp / 4096) mod 64;
     0x80 + (cp / 64) mod 64; 0x80 + cp mod 64].

(** The encoder reads code units: a surrogate pair is one code point, an
    unpaired surrogate is written as U+FFFD. *)
Fixpoint utf8_units (s : jsstring) : list N :=
  match s with
  | [] => []
  | u :: r =>
      if isHighSurrogate u then
        match r with
        | v :: r' =>
            if isLowSurrogate v then
              utf8_of_code_point (0x10000 + (u - 0xD800) * 0x400 + (v - 0xDC00))
              ++ utf8_units r'
            else replacement_bytes ++ utf8_units r
        | [] => replacement_bytes
        end
      else if isLowSurrogate u then replacement_bytes ++ utf8_units r
      else utf8_of_code_point u ++ utf8_units r
  end.

(** [Buffer.from(s, 'utf8')] *)
Definition from_utf8 (s : jsstring) : bytes := map byte_of_N (utf8_units s).

Definition isContinuation (b : N) : bool := (0x80 <=? b) && (b <=? 0xBF).

(** The decoder yields code points; an ill-formed sequence yields U+FFFD
    for its maximal valid prefix and decoding resumes at the offending
    byte. *)
Fixpoint utf8_code_points (bs : list N) : list N :=
  match bs with
  | [] => []
  | b0 :: r0 =>
      if b0 <? 0x80 then b0 :: utf8_code_points r0
      else if (0xC2 <=? b0) && (b0 <=? 0xDF) then
        match r0 with
        | b1 :: r1 =>
            if isContinuation b1
            then ((b0 - 0xC0) * 64 + (b1 - 0x80)) :: utf8_code_points r1
            else 0xFFFD :: utf8_code_points r0
        | [] => [0xFFFD]
        end
      else if (0xE0 <=? b0) && (b0 <=? 0xEF) then
        match r0 with
        | b1 :: r1 =>
            if ((if b0 =? 0xE0 then 0xA0 else 0x80) <=? b1)
               && (b1 <=? (if b0 =? 0xED then 0x9F else 0xBF))
            then
              match r1 with
              | b2 :: r2 =>
                  if isContinuation b2
                  then ((b0 - 0xE0) * 4096 + (b1 - 0x80) * 64 + (b2 - 0x80))
                       :: utf8_code_points r2
                  else 0xFFFD :: utf8_code_points r1
              | [] => [0xFFFD]
              end
            else 0xFFFD :: utf8_code_points r0
        | [] => [0xFFFD]
        end
      else if (0xF0 <=? b0) && (b0 <=? 0xF4) then
        match r0 with
        | b1 :: r1 =>
            if ((if b0 =? 0xF0 then 0x90 else 0x80) <=? b1)
               && (b1 <=? (if b0 =? 0xF4 then 0x8F else 0xBF))
            then
              match r1 with
              | b2 :: r2 =>
                  if isContinuation b2 then
                    match r2 with
                    | b3 :: r3 =>
                        if isContinuation b3
                        then ((b0 - 0xF0) * 262144 + (b1 - 0x80) * 4096
                              + (b2 - 0x80) * 64 + (b3 - 0x80))
                             :: utf8_code_points r3
                        else 0xFFFD :: utf8_code_points r2
                    | [] => [0xFFFD]
                    end
                  else 0xFFFD :: utf8_code_points r1
              | [] => [0xFFFD]
              end
            else 0xFFFD :: utf8_code_points r0
        | [] => [0xFFFD]
        end
      else 0xFFFD :: utf8_code_points r0
  end.

(** UTF-16 of one code point. *)
Definition utf16_of_code_point (cp : N) : jsstring :=
  if cp <? 0x10000 then [cp]
  else [0xD800 + (cp - 0x10000) / 0x400; 0xDC00 + (cp - 0x10000) mod 0x400].

(** [buf.toString('utf8')] *)
Definition to_utf8 (b : bytes) : jsstring :=
  flat_map utf16_of_code_point (utf8_code_points (map Byte.to_N b)).

(** ** Hexadecimal *)

Definition hexDigit (n : N) : N := if n <? 10 then 48 + n else 87 + n.

(** [buf.toString('hex')]: two lower-case digits per byte. *)
Definition to_hex (b : bytes) : jsstring :=
  flat_map (fun x => [hexDigit (Byte.to_N x / 16); hexDigit (Byte.to_N x mod 16)]) b.

Definition hexValue (c : N) : option N :=
  if (48 <=? c) && (c <=? 57) then Some (c - 48)
  else if (97 <=? c) && (c <=? 102) then Some (c - 87)
  else if (65 <=? c) && (c <=? 70) then Some (c - 55)
  else None.

(** [Buffer.from(s, 'hex')]: pairs of digits of either case; decoding stops
    at the first pair that is not two hex digits, and a trailing single
    character is dropped. *)
Fixpoint from_hex (s : jsstring) : bytes :=
  match s with
  | a :: b :: r =>
      match hexValue a, hexValue b with
      | Some x, Some y => byte_of_N (16 * x + y) :: from_hex r
      | _, _ => []
      end
  | _ => []
  end.

(** [buf.slice(0, n)] and [buf.slice(n)] *)
Definition slice_to (n : nat) (b : bytes) : bytes := firstn n b.
Definition slice_from (n : nat) (b : bytes) : bytes := skipn n b.

End Buffer.
Export Buffer.

(* ===================================================================== *)
(** * Control flow: state, exceptions, try/catch/finally                  *)
(* ===================================================================== *)

Module Eff.

(** How a JavaScript computation completes. *)
Inductive completion (A : Type) : Type :=
| Return (a : A)
| Throw (message : jsstring).
Arguments Return {A} a.
Arguments Throw {A} message.

(** A computation over a world [W]: the awaited calls of the sources run
    strictly one after the other, so a world-passing function models them. *)
Definition M (W A : Type) : Type := W -> completion A * W.

Definition ret {W A} (a : A) : M W A := fun w => (Return a, w).

Definition throw {W A} (message : jsstring) : M W A := fun w => (Throw message, w).

Definition bind {W A B} (c : M W A) (k : A -> M W B) : M W B :=
  fun w =>
    match c w with
    | (Return a, w') => k a w'
    | (Throw m, w') => (Throw m, w')
    end.

(** A pure computation that may throw. *)
Definition lift {W A} (c : completion A) : M W A := fun w => (c, w).

(** Two pure computations in sequence. *)
Definition and_then {A B} (c : completion A) (k : A -> completion B) : completion B :=
  match c with
  | Return a => k a
  | Throw m => Throw m
  end.

(** [array.map(f)] with a callback that may throw: the elements are visited
    from left to right and the first throw ends the visit. *)
Fixpoint traverse {A B} (f : A -> completion B) (l : list A) : completion (list B) :=
  match l with
  | [] => Return []
  | x :: rest =>
      and_then (f x) (fun y => and_then (traverse f rest) (fun ys => Return (y :: ys)))
  end.

(** [try { body } catch (err) { handler(err.message) }] *)
Definition try_catch {W A} (body : M W A) (handler : jsstring -> M W A) : M W A :=
  fun w =>
    match body w with
    | (Return a, w') => (Return a, w')
    | (Throw m, w') => handler m w'
    end.

(** [try { body } finally { fin }]: a throwing [fin] replaces the outcome. *)
Definition try_finally {W A} (body : M W A) (fin : M W unit) : M W A :=
  fun w =>
    match body w with
    | (r, w') =>
        match fin w' with
        | (Return _, w'') => (r, w'')
        | (Throw m, w'') => (Throw m, w'')
        end
    end.

End Eff.
Export Eff.

Declare Scope eff_scope.
Delimit Scope eff_scope with eff.
Notation "x <- c ;; k" := (bind c (fun x => k))
  (at level 61, c at next level, right associativity) : eff_scope.
Notation "c ;;; k" := (bind c (fun _ => k))
  (at level 61, right associativity) : eff_scope.

(* ===================================================================== *)
(** * src/types.ts                                                        *)
(* ===================================================================== *)

Module Types.

Module RotateKeyResult.
Record t := { success : nat; errors : nat }.
End RotateKeyResult.

Module BackupResult.
Record t := { file : jsstring; size : nat; lines : nat }.
End BackupResult.

Module RestoreResult.
Record t := { success : bool; statements : option nat; errors : option nat }.
End RestoreResult.

End Types.

(* ===================================================================== *)
(** * src/rotate-key.ts                                                   *)
(* ===================================================================== *)

Module RotateKey.

Definition NONCE_BYTES : nat := 24.

(** ** tweetnacl

    [nacl.secretbox(msg, nonce, key)] and [nacl.secretbox.open(box, nonce,
    key)] are library code; the pipeline is parametric in them.  Both may
    throw (bad key or nonce size); [open] answers [null] when the box does
    not authenticate. *)
Record Nacl := {
  secretbox : bytes -> bytes -> bytes -> completion bytes;
  secretbox_open : bytes -> bytes -> bytes -> completion (option bytes)
}.

(** What the library promises for a 24-byte nonce and a 32-byte key:
    sealing succeeds and opening the sealed box under the same nonce and key
    gives the message back. *)
Record NaclLaws (nacl : Nacl) : Prop := {
  secretbox_returns : forall msg nonce key,
    length nonce = 24%nat -> length key = 32%nat ->
    exists box, secretbox nacl msg nonce key = Return box;
  open_secretbox : forall msg nonce key box,
    length nonce = 24%nat -> length key = 32%nat ->
    secretbox nacl msg nonce key = Return box ->
    secretbox_open nacl box nonce key = Return (Some msg)
}.


(** ** The database and the random source *)

(** A row of the ["private-key"] table. *)
Record PrivateKeyRow := {
  alias : jsstring;
  key_type : jsstring;
  privateKeyHex : jsstring
}.

(** The calls made on the [pg] client, in order. *)
Inductive DbCall :=
| Connect
| SelectPrivateKeys
| UpdatePrivateKey (hex : jsstring) (target : jsstring)
| End_.

Record World := {
  private_key : list PrivateKeyRow;          (* the stored table *)
  calls : list DbCall;                       (* client calls so far *)
  drawn : nat;                               (* random bytes consumed *)
  reported : list (jsstring * jsstring)      (* error lines printed *)
}.

(** What the run cannot control: the bytes the random source will give, and
    which client calls the server rejects (with which message). *)
Record Environment := {
  entropy : nat -> byte;
  connect_error : option jsstring;
  select_error : option jsstring;
  update_error : jsstring -> jsstring -> option jsstring;
  end_error : option jsstring
}.

Definition fail_with (o : option jsstring) (w : World) : completion unit * World :=
  match o with
  | Some m => (Throw m, w)
  | None => (Return tt, w)
  end.

Definition called (c : DbCall) (w : World) : World :=
  {| private_key := private_key w; calls := calls w ++ [c];
     drawn := drawn w; reported := reported w |}.

Definition set_hex (hex target : jsstring) (r : PrivateKeyRow) : PrivateKeyRow :=
  if eqb (alias r) target
  then {| alias := alias r; key_type := key_type r; privateKeyHex := hex |}
  else r.

Section Pipeline.

Context (nacl : Nacl) (env : Environment).

Local Open Scope eff_scope.

(** [nacl.randomBytes(n)] *)
Definition randomBytes (n : nat) : M World bytes :=
  fun w =>
    (Return (map (entropy env) (seq (drawn w) n)),
     {| private_key := private_key w; calls := calls w;
        drawn := (drawn w + n)%nat; reported := reported w |}).

(** [await client.connect()] *)
Definition client_connect : M World unit :=
  fun w => fail_with (connect_error env) (called Connect w).

(** [await client.query('SELECT alias, type, "privateKeyHex" FROM "private-key"')] *)
Definition client_select : M World (list PrivateKeyRow) :=
  fun w =>
    let w' := called SelectPrivateKeys w in
    match select_error env with
    | Some m => (Throw m, w')
    | None => (Return (private_key w), w')
    end.

(** [await client.query('UPDATE "private-key" SET "privateKeyHex" = $1 WHERE
    alias = $2', [hex, target])] *)
Definition client_update (hex target : jsstring) : M World unit :=
  fun w =>
    let w' := called (UpdatePrivateKey hex target) w in
    match update_error env hex target with
    | Some m => (Throw m, w')
    | None =>
        (Return tt,
         {| private_key := map (set_hex hex target) (private_key w');
            calls := calls w'; drawn := drawn w'; reported := reported w' |})
    end.

(** [await client.end()] *)
Definition client_end : M World unit :=
  fun w => fail_with (end_error env) (called End_ w).

(** ** class SecretBox *)

Record SecretBox := { secretKey : bytes }.

(** [new SecretBox(secretKeyHex)] *)
Definition new_SecretBox (secretKeyHex : jsstring) : SecretBox :=
  {| secretKey := from_hex secretKeyHex |}.

Definition encrypt (box : SecretBox) (message : jsstring) : M World jsstring :=
  nonce <- randomBytes NONCE_BYTES ;;
  let messageBytes := from_utf8 message in
  ciphertext <- lift (secretbox nacl messageBytes nonce (secretKey box)) ;;
  let combined := nonce ++ ciphertext in
  ret (to_hex combined).

Definition decrypt (box : SecretBox) (encryptedHex : jsstring) : completion jsstring :=
  let combined := from_hex encryptedHex in
  let nonce := slice_to NONCE_BYTES combined in
  let ciphertext := slice_from NONCE_BYTES combined in
  match secretbox_open nacl ciphertext nonce (secretKey box) with
  | Throw m => Throw m
  | Return None => Throw (lit "Decryption failed - wrong key or corrupted data")
  | Return (Some decrypted) => Return (to_utf8 decrypted)
  end.

(** ** rotateEncryptionKey *)

(** The loop's counters and its [errors] array. *)
Record Tally := {
  successCount : nat;
  errorCount : nat;
  errors : list (jsstring * jsstring)
}.

Definition tally0 : Tally := {| successCount := 0; errorCount := 0; errors := [] |}.

(** [alias.substring(0, 20) + (alias.length > 20 ? '...' : '')] *)
Definition shortAlias (a : jsstring) : jsstring :=
  substring0 20 a ++ (if (20 <? length a)%nat then lit "..." else []).

(** The body of the per-record [try] block. *)
Definition rotate_row (oldBox newBox : SecretBox) (row : PrivateKeyRow) : M World unit :=
  decrypted <- lift (decrypt oldBox (privateKeyHex row)) ;;
  reencrypted <- encrypt newBox decrypted ;;
  verify <- lift (decrypt newBox reencrypted) ;;
  if negb (eqb verify decrypted)
  then throw (lit "Verification failed - encryption round-trip mismatch")
  else client_update reencrypted (alias row).

(** [for (const row of result.rows) { try { ... successCount++ } catch (err)
    { errors.push(...); errorCount++ } }] *)
Fixpoint rotate_rows (oldBox newBox : SecretBox) (rows : list PrivateKeyRow)
  (t : Tally) : M World Tally :=
  match rows with
  | [] => ret t
  | row :: rest =>
      t' <- try_catch
              (rotate_row oldBox newBox row ;;;
               ret {| successCount := S (successCount t);
                      errorCount := errorCount t;
                      errors := errors t |})
              (fun message =>
                 ret {| successCount := successCount t;
                        errorCount := S (errorCount t);
                        errors := errors t ++ [(shortAlias (alias row), message)] |}) ;;
      rotate_rows oldBox newBox rest t'
  end.

(** [for (const err of errors) console.log(...)] *)
Definition print_errors (es : list (jsstring * jsstring)) : M World unit :=
  fun w =>
    (Return tt,
     {| private_key := private_key w; calls := calls w;
        drawn := drawn w; reported := reported w ++ es |}).

(** The body of the [try] block of [rotateEncryptionKey]. *)
Definition session (oldKey newKey : jsstring) : M World Types.RotateKeyResult.t :=
  let oldBox := new_SecretBox oldKey in
  let newBox := new_SecretBox newKey in
  client_connect ;;;
  rows <- client_select ;;
  if (length rows =? 0)%nat
  then ret {| Types.RotateKeyResult.success := 0;
              Types.RotateKeyResult.errors := 0 |}
  else
    t <- rotate_rows oldBox newBox rows tally0 ;;
    print_errors (errors t) ;;;
    if (0 <? errorCount t)%nat
    then throw (numberToString (Z.of_nat (errorCount t))
                ++ lit " key(s) failed to rotate")
    else ret {| Types.RotateKeyResult.success := successCount t;
                Types.RotateKeyResult.errors := errorCount t |}.

Definition rotateEncryptionKey (oldKey newKey : jsstring)
  : M World Types.RotateKeyResult.t :=
  if negb (isHex64 oldKey) then throw (lit "OLD_KEY must be 64 hex characters")
  else if negb (isHex64 newKey) then throw (lit "NEW_KEY must be 64 hex characters")
  else try_finally (session oldKey newKey) client_end.

End Pipeline.

End RotateKey.

(* ===================================================================== *)
(** * src/backup-restore.ts                                               *)
(* ===================================================================== *)

Module BackupRestore.

(** ** Type mapper: [getTableSchema] *)

(** A row of [information_schema.columns] as the query selects it. *)
Record ColumnInfo := {
  column_name : jsstring;
  udt_name : jsstring;
  data_type : jsstring;
  character_maximum_length : option Z;     (* number | null *)
  is_nullable : jsstring;
  column_default : option jsstring         (* string | null *)
}.

(** JavaScript truthiness of [string | null] and of [number | null]. *)
Definition truthy_string (o : option jsstring) : bool :=
  match o with
  | Some (_ :: _) => true
  | _ => false
  end.

Definition truthy_number (o : option Z) : bool :=
  match o with
  | Some n => negb (n =? 0)%Z
  | None => false
  end.

Definition includes_opt (o : option jsstring) (p : jsstring) : bool :=
  match o with
  | Some s => includes s p
  | None => false
  end.

(** [`(${col.character_maximum_length})`] *)
Definition length_qualifier (o : option Z) : jsstring :=
  match o with
  | Some n => lit "(" ++ numberToString n ++ lit ")"
  | None => lit "(null)"
  end.

(** The [dataType] variable of the [map] callback. *)
Definition dataTypeOf (col : ColumnInfo) : jsstring :=
  if truthy_string (column_default col) && includes_opt (column_default col) (lit "nextval")
  then lit "SERIAL"
  else if eqb (udt_name col) (lit "int4") then lit "INTEGER"
  else if eqb (udt_name col) (lit "int8") then lit "BIGINT"
  else if eqb (udt_name col) (lit "varchar") then
    if truthy_number (character_maximum_length col)
    then lit "VARCHAR" ++ length_qualifier (character_maximum_length col)
    else lit "VARCHAR"
  else if eqb (udt_name col) (lit "text") then lit "TEXT"
  else if eqb (udt_name col) (lit "bool") then lit "BOOLEAN"
  else if eqb (udt_name col) (lit "timestamp") then lit "TIMESTAMP"
  else if eqb (udt_name col) (lit "timestamptz") then lit "TIMESTAMPTZ"
  else
    toUpperCase (data_type col)
    ++ (if truthy_number (character_maximum_length col)
        then length_qualifier (character_maximum_length col) else []).

(** The [map] callback: one column-definition line. *)
Definition columnDefinition (col : ColumnInfo) : jsstring :=
  let dataType := dataTypeOf col in
  let def := quoted (column_name col) ++ lit " " ++ dataType in
  let def :=
    if truthy_string (column_default col)
       && negb (includes_opt (column_default col) (lit "nextval"))
    then def ++ lit " DEFAULT " ++ match column_default col with Some d => d | None => [] end
    else def in
  let def :=
    if eqb (is_nullable col) (lit "NO") && negb (eqb dataType (lit "SERIAL"))
    then def ++ lit " NOT NULL"
    else def in
  def.

Definition getTableSchema (columns : list ColumnInfo) (tableName : jsstring) : jsstring :=
  lit "CREATE TABLE IF NOT EXISTS " ++ quoted tableName ++ lit " (" ++ [newline]
  ++ lit "  " ++ join (lit "," ++ [newline] ++ lit "  ") (map columnDefinition columns)
  ++ [newline] ++ lit ");".

(** ** Row serialization: [getTableData] *)

(** A cell as [pg] delivers it.  A [Date] carries what [toISOString()]
    returns, or nothing when its time value is not a number; every other
    value carries its [String(val)]. *)
Inductive value :=
| VNull
| VNumber (x : Number)
| VBoolean (b : bool)
| VDate (iso : option jsstring)
| VOther (text : jsstring).

(** What the inner [map] callback returns: a string, or the number or
    boolean itself. *)
Inductive cell :=
| CString (s : jsstring)
| CNumber (x : Number)
| CBoolean (b : bool).

(** The message of the [RangeError] of [toISOString()]. *)
Definition invalid_time_value : jsstring := lit "Invalid time value".

Definition serializeValue (val : value) : completion cell :=
  match val with
  | VNull => Return (CString (lit "NULL"))
  | VNumber x => Return (CNumber x)
  | VBoolean b => Return (CBoolean b)
  | VDate (Some iso) => Return (CString ([squote] ++ iso ++ [squote]))
  | VDate None => Throw invalid_time_value
  | VOther text => Return (CString ([squote] ++ doubleQuotes text ++ [squote]))
  end.

(** [join]'s ToString on an element. *)
Definition cellToString (c : cell) : jsstring :=
  match c with
  | CString s => s
  | CNumber x => Number_toString x
  | CBoolean true => lit "true"
  | CBoolean false => lit "false"
  end.

(** The result of [SELECT * FROM "<table>"]: the field names and the rows,
    each row an object from field name to value. *)
Record QueryResult := {
  fields : list jsstring;
  rows : list (list (jsstring * value))
}.

(** [row[name]]; a missing property is [undefined], whose [String] is
    ["undefined"]. *)
Fixpoint property (row : list (jsstring * value)) (name : jsstring) : value :=
  match row with
  | [] => VOther (lit "undefined")
  | (k, v) :: rest => if eqb k name then v else property rest name
  end.

(** The outer [map] callback. *)
Definition insertStatement (tableName columns : jsstring) (fs : list jsstring)
  (row : list (jsstring * value)) : completion jsstring :=
  and_then (traverse (fun f => serializeValue (property row f)) fs) (fun values =>
  Return (lit "INSERT INTO " ++ quoted tableName ++ lit " (" ++ columns ++ lit ") VALUES ("
          ++ join (lit ", ") (map cellToString values) ++ lit ");")).

Definition getTableData (result : QueryResult) (tableName : jsstring) : completion jsstring :=
  if (length (rows result) =? 0)%nat then Return []
  else
    let columns := join (lit ", ") (map quoted (fields result)) in
    and_then (traverse (insertStatement tableName columns (fields result)) (rows result))
      (fun inserts => Return (join [newline] inserts)).

(** ** [getPrimaryKeys] *)

(** The own properties of the object [pks], in the order they were added. *)
Definition PrimaryKeyMap := list (jsstring * list jsstring).

Fixpoint pk_get (pks : PrimaryKeyMap) (t : jsstring) : option (list jsstring) :=
  match pks with
  | [] => None
  | (t', cs) :: rest => if eqb t' t then Some cs else pk_get rest t
  end.

(** [pks[t]] on an object made by [{}]: an own property, or else what
    [Object.prototype] holds under that name, or else [undefined]. *)
Inductive Property :=
| Own (cols : list jsstring)
| Inherited
| Undefined.

Definition pk_property (pks : PrimaryKeyMap) (t : jsstring) : Property :=
  match pk_get pks t with
  | Some cols => Own cols
  | None => if array_includes object_prototype_names t then Inherited else Undefined
  end.

(** [pks[t] = []] where there is no own property, then [pks[t].push(c)]. *)
Fixpoint pk_push (pks : PrimaryKeyMap) (t c : jsstring) : PrimaryKeyMap :=
  match pks with
  | [] => [(t, [c])]
  | (t', cs) :: rest =>
      if eqb t' t then (t', cs ++ [c]) :: rest else (t', cs) :: pk_push rest t c
  end.

(** The messages of the two [TypeError]s of a name that [Object.prototype]
    holds: what is read there is truthy and has neither [push] nor [map]. *)
Definition push_not_a_function : jsstring :=
  lit "pks[row.table_name].push is not a function".
Definition map_not_a_function : jsstring :=
  lit "primaryKeys[tableName].map is not a function".

(** [if (!pks[t]) pks[t] = []; pks[t].push(c)] *)
Definition add_key_column (pks : PrimaryKeyMap) (r : jsstring * jsstring)
  : completion PrimaryKeyMap :=
  match pk_property pks (fst r) with
  | Inherited => Throw push_not_a_function
  | _ => Return (pk_push pks (fst r) (snd r))
  end.

Definition getPrimaryKeys (constraint_rows : list (jsstring * jsstring))
  : completion PrimaryKeyMap :=
  fold_left (fun pks r => and_then pks (fun pks => add_key_column pks r))
    constraint_rows (Return []).

(** ** Snapshot writer: [backupDatabase] (the path without a container) *)

(** What the session answers during a snapshot. *)
Record Catalog := {
  tables : list jsstring;                           (* pg_tables, by name *)
  columns_of : jsstring -> list ColumnInfo;         (* by ordinal position *)
  primary_key_rows : list (jsstring * jsstring);    (* (table, column) *)
  data_of : jsstring -> QueryResult
}.

(** The files written so far, most recent first. *)
Definition Disk := list (jsstring * bytes).

Fixpoint statSize (d : Disk) (path : jsstring) : nat :=
  match d with
  | [] => 0
  | (p, content) :: rest => if eqb p path then length content else statSize rest path
  end.

(** The entries one table pushes on [lines]. *)
Definition table_entries (cat : Catalog) (primaryKeys : PrimaryKeyMap)
  (tableName : jsstring) : completion (list jsstring) :=
  let schema := getTableSchema (columns_of cat tableName) tableName in
  and_then
    (match pk_property primaryKeys tableName with
     | Own cols =>
         Return [lit "ALTER TABLE " ++ quoted tableName ++ lit " ADD PRIMARY KEY ("
                 ++ join (lit ", ") (map quoted cols) ++ lit ");";
                 []]
     | Inherited => Throw map_not_a_function
     | Undefined => Return []
     end) (fun key =>
  and_then (getTableData (data_of cat tableName) tableName) (fun data =>
  Return ([lit "-- Table: " ++ tableName;
           lit "DROP TABLE IF EXISTS " ++ quoted tableName ++ lit " CASCADE;";
           schema;
           []]
          ++ key
          ++ match data with
             | [] => []
             | _ => [data; []]
             end))).

(** The [lines] array when the loop over the tables is done; [now] is
    [new Date().toISOString()]. *)
Definition backup_lines (now : jsstring) (cat : Catalog) : completion (list jsstring) :=
  and_then (getPrimaryKeys (primary_key_rows cat)) (fun primaryKeys =>
  and_then (traverse (table_entries cat primaryKeys) (tables cat)) (fun entries =>
  Return ([lit "-- VCKit Database Backup";
           lit "-- Generated: " ++ now;
           lit "-- Tool: vckit-db-tools";
           [];
           lit "SET client_encoding = 'UTF8';";
           []]
          ++ concat entries))).

(** [backupDatabase] after [path.resolve]; [connect_error] is the message
    [client.connect()] rejects with, if it does.  The file is written once
    the loop is done: a throw inside the loop leaves the disk as it was. *)
Definition backupDatabase (now : jsstring) (connect_error : option jsstring)
  (cat : Catalog) (outputPath : jsstring) : M Disk Types.BackupResult.t :=
  match connect_error with
  | Some m => throw m
  | None =>
      bind (lift (backup_lines now cat)) (fun lines disk =>
        let content := join [newline] lines in
        let disk' := (outputPath, from_utf8 content) :: disk in
        (Return {| Types.BackupResult.file := outputPath;
                   Types.BackupResult.size := statSize disk' outputPath;
                   Types.BackupResult.lines := length lines |},
         disk'))
  end.

(** The line count of the sibling path through [pg_dump]:
    [result.stdout.split('\n').length]. *)
Definition text_lines (content : jsstring) : nat := length (split newline content).

(** ** Statement player: [restoreDatabase] (the path without a container,
       from the point where the backup file has been read) *)

(** The statement parser. *)
Fixpoint parse_lines (lines : list jsstring) (current : jsstring)
  (statements : list jsstring) : list jsstring :=
  match lines with
  | [] => statements
  | line :: rest =>
      if startsWith (trim line) (lit "--") || eqb (trim line) []
      then parse_lines rest current statements
      else
        let current := current ++ line ++ [newline] in
        if endsWith (trim line) (lit ";")
        then parse_lines rest [] (statements ++ [trim current])
        else parse_lines rest current statements
  end.

Definition parseStatements (content : jsstring) : list jsstring :=
  parse_lines (split newline content) [] [].

(** The target server: its state, how it answers a statement (the new state
    and the error message, if the statement fails), and how it answers
    the administrative drop-and-recreate. *)
Record Server := {
  DB : Type;
  query : DB -> jsstring -> DB * option jsstring;
  recreate : DB -> DB * option jsstring
}.

Section Restore.

Context (server : Server).

Local Open Scope eff_scope.

Record Session := {
  db : DB server;
  sent : list jsstring          (* statements sent to the target, in order *)
}.

(** [await client.query(stmt)] *)
Definition client_query (stmt : jsstring) : M Session unit :=
  fun s =>
    match query server (db s) stmt with
    | (d, Some m) => (Throw m, {| db := d; sent := sent s ++ [stmt] |})
    | (d, None) => (Return tt, {| db := d; sent := sent s ++ [stmt] |})
    end.

(** A failure the player does not count. *)
Definition benign (message : jsstring) : bool :=
  includes message (lit "already exists") || includes message (lit "duplicate key").

(** [for (const stmt of statements) { try { ...; successCount++ } catch (err)
    { if (...) errorCount++ } }] *)
Fixpoint replay (statements : list jsstring) (successCount errorCount : nat)
  : M Session (nat * nat) :=
  match statements with
  | [] => ret (successCount, errorCount)
  | stmt :: rest =>
      counts <- try_catch
                  (client_query stmt ;;; ret (S successCount, errorCount))
                  (fun message =>
                     if negb (includes message (lit "already exists"))
                        && negb (includes message (lit "duplicate key"))
                     then ret (successCount, S errorCount)
                     else ret (successCount, errorCount)) ;;
      replay rest (fst counts) (snd counts)
  end.

(** What the run cannot control: whether the input file exists (and the
    text read from it), which connections the server refuses, and whether
    closing a client fails. *)
Record RestoreEnv := {
  input_file : option jsstring;
  admin_connect_error : option jsstring;
  admin_end_error : option jsstring;
  connect_error : option jsstring;
  end_error : option jsstring
}.

Definition restore_failed (m : jsstring) : jsstring := lit "Restore failed: " ++ m.

(** The three statements sent over [adminClient]. *)
Definition admin_queries : M Session unit :=
  fun s =>
    match recreate server (db s) with
    | (d, Some m) => (Throw m, {| db := d; sent := sent s |})
    | (d, None) => (Return tt, {| db := d; sent := sent s |})
    end.

(** [await adminClient.end()] *)
Definition admin_end (renv : RestoreEnv) : M Session unit :=
  fun s =>
    (match admin_end_error renv with Some m => Throw m | None => Return tt end, s).

(** The [if (drop)] block: [end()] is the last call of the [try] block and
    the first of the [catch] block, whose own failure is not caught. *)
Definition recreate_database (renv : RestoreEnv) : M Session unit :=
  match admin_connect_error renv with
  | Some m => throw (restore_failed m)
  | None =>
      try_catch
        (admin_queries ;;; admin_end renv)
        (fun m => admin_end renv ;;; throw (restore_failed m))
  end.

Definition restoreDatabase (renv : RestoreEnv) (inputPath : jsstring) (drop : bool)
  : M Session Types.RestoreResult.t :=
  match input_file renv with
  | None => throw (lit "Backup file not found: " ++ inputPath)
  | Some content =>
      (if drop then recreate_database renv else ret tt) ;;;
      match connect_error renv with
      | Some m => throw (restore_failed m)
      | None =>
          let statements := parseStatements content in
          counts <- replay statements 0 0 ;;
          match end_error renv with
          | Some m => throw m
          | None =>
              ret {| Types.RestoreResult.success := true;
                     Types.RestoreResult.statements := Some (fst counts);
                     Types.RestoreResult.errors := Some (snd counts) |}
          end
      end
  end.

End Restore.

End BackupRestore.

(* ===================================================================== *)
(** * Vocabulary of the statements                                        *)
(* ===================================================================== *)

(** ** Rotation: what became of each record *)
Module RotationOutcome.
Import RotateKey.

Inductive Outcome :=
| Rotated (hex : jsstring)      (* re-encrypted; [hex] is the new ciphertext *)
| Failed (reason : jsstring).   (* its [try] block threw [reason] *)

(** The stored row after the run. *)
Definition settle (ro : PrivateKeyRow * Outcome) : PrivateKeyRow :=
  match snd ro with
  | Rotated hex =>
      {| alias := alias (fst ro); key_type := key_type (fst ro); privateKeyHex := hex |}
  | Failed _ => fst ro
  end.

(** The entry pushed on [errors], if any. *)
Definition failure (ro : PrivateKeyRow * Outcome) : list (jsstring * jsstring) :=
  match snd ro with
  | Rotated _ => []
  | Failed reason => [(shortAlias (alias (fst ro)), reason)]
  end.

Definition isRotated (o : Outcome) : bool :=
  match o with Rotated _ => true | Failed _ => false end.

Definition isFailed (o : Outcome) : bool := negb (isRotated o).

(** An outcome agrees with the cipher: a rotated record decrypts under the
    new key to what it decrypted to under the old key; a record that does
    not decrypt under the old key failed with exactly that error. *)
Definition justified (nacl : Nacl) (oldBox newBox : SecretBox)
  (r : PrivateKeyRow) (o : Outcome) : Prop :=
  match o with
  | Rotated hex =>
      exists plain,
        decrypt nacl oldBox (privateKeyHex r) = Return plain
        /\ decrypt nacl newBox hex = Return plain
  | Failed reason =>
      forall m, decrypt nacl oldBox (privateKeyHex r) = Throw m -> reason = m
  end.

(** How the record's [try] block completed. *)
Definition completes (o : Outcome) : completion unit :=
  match o with
  | Rotated _ => Return tt
  | Failed reason => Throw reason
  end.

Definition count (f : Outcome -> bool) (outs : list Outcome) : nat :=
  length (filter f outs).

(** The world once [n] random bytes were drawn, and the nonce [encrypt]
    draws in world [w]. *)
Definition after_draw (n : nat) (w : World) : World :=
  {| private_key := private_key w; calls := calls w;
     drawn := (drawn w + n)%nat; reported := reported w |}.

Definition nonce_at (env : Environment) (w : World) : bytes :=
  map (entropy env) (seq (drawn w) NONCE_BYTES).

(** The world once the collected errors were printed. *)
Definition reporting (es : list (jsstring * jsstring)) (w : World) : World :=
  {| private_key := private_key w; calls := calls w;
     drawn := drawn w; reported := reported w ++ es |}.

(** The [UPDATE]s a run issues with success, as (alias, new ciphertext). *)
Definition update_of (ro : PrivateKeyRow * Outcome) : list (jsstring * jsstring) :=
  match snd ro with
  | Rotated hex => [(alias (fst ro), hex)]
  | Failed _ => []
  end.

Definition apply_update (r : PrivateKeyRow) (u : jsstring * jsstring) : PrivateKeyRow :=
  set_hex (snd u) (fst u) r.

End RotationOutcome.

(** ** Restore: the server's answers to a statement stream *)
Module Replies.
Import BackupRestore.

(** Every statement is sent, whatever the earlier ones answered. *)
Fixpoint answers (server : Server) (d : DB server) (statements : list jsstring)
  : list (option jsstring) * DB server :=
  match statements with
  | [] => ([], d)
  | stmt :: rest =>
      let (d', reply) := query server d stmt in
      let (replies, final) := answers server d' rest in
      (reply :: replies, final)
  end.

Definition succeeded (reply : option jsstring) : bool :=
  match reply with None => true | Some _ => false end.

(** A failure that counts: its message has neither marker. *)
Definition counted (reply : option jsstring) : bool :=
  match reply with
  | None => false
  | Some m => negb (includes m (lit "already exists") || includes m (lit "duplicate key"))
  end.

End Replies.

(** ** Snapshot: lines of text *)
Module LineCount.

(** Newline units inside a string, and inside the entries of an array. *)
Definition newlines (s : jsstring) : nat := count_occ N.eq_dec s newline.

Definition embedded_newlines (entries : list jsstring) : nat :=
  list_sum (map newlines entries).

End LineCount.

(** ** Type mapping as the rules state it *)
Module TypeMapperRules.
Import BackupRestore.

(** The default expression refers to a sequence. *)
Definition auto_increment (col : ColumnInfo) : bool :=
  match column_default col with
  | Some d => includes d (lit "nextval")
  | None => false
  end.

(** The length qualifier, when a length is present. *)
Definition optional_length (col : ColumnInfo) : jsstring :=
  match character_maximum_length col with
  | Some n => lit "(" ++ numberToString n ++ lit ")"
  | None => []
  end.

(** The fixed table and its fallback. *)
Definition mapped_type (col : ColumnInfo) : jsstring :=
  if eqb (udt_name col) (lit "int4") then lit "INTEGER"
  else if eqb (udt_name col) (lit "int8") then lit "BIGINT"
  else if eqb (udt_name col) (lit "varchar") then lit "VARCHAR" ++ optional_length col
  else if eqb (udt_name col) (lit "text") then lit "TEXT"
  else if eqb (udt_name col) (lit "bool") then lit "BOOLEAN"
  else if eqb (udt_name col) (lit "timestamp") then lit "TIMESTAMP"
  else if eqb (udt_name col) (lit "timestamptz") then lit "TIMESTAMPTZ"
  else toUpperCase (data_type col) ++ optional_length col.

Definition default_clause (col : ColumnInfo) : jsstring :=
  match column_default col with
  | Some d => lit " DEFAULT " ++ d
  | None => []
  end.

Definition not_null_clause (col : ColumnInfo) : jsstring :=
  if eqb (is_nullable col) (lit "NO") then lit " NOT NULL" else [].

Definition column_line (col : ColumnInfo) : jsstring :=
  if auto_increment col
  then quoted (column_name col) ++ lit " SERIAL"
  else quoted (column_name col) ++ lit " " ++ mapped_type col
       ++ default_clause col ++ not_null_clause col.

(** What [information_schema.columns] reports: a default expression is never
    the empty text, a character length is never zero, and no type is called
    [serial] (a serial column is an integer column with a sequence default). *)
Record reported_by_catalog (col : ColumnInfo) : Prop := {
  default_not_empty : column_default col <> Some [];
  length_not_zero : character_maximum_length col <> Some 0%Z;
  type_not_serial : toUpperCase (data_type col) <> lit "SERIAL"
}.

End TypeMapperRules.

(* ===================================================================== *)
(** * Concrete inputs                                                     *)
(* ===================================================================== *)

Module Fixtures.
Import RotateKey BackupRestore.

Fixpoint bytes_eqb (a b : bytes) : bool :=
  match a, b with
  | [], [] => true
  | x :: a', y :: b' => Byte.eqb x y && bytes_eqb a' b'
  | _, _ => false
  end.

(** The length check both library calls start with. *)
Definition checkLengths {A} (key nonce : bytes) (k : completion A) : completion A :=
  if negb (length key =? 32)%nat then Throw (lit "bad key size")
  else if negb (length nonce =? 24)%nat then Throw (lit "bad nonce size")
  else k.

(** A stand-in for the library primitive that meets [NaclLaws] and
    [Authenticates]: the box is the key followed by the message.  It hides
    nothing; it only shows that the assumptions on the primitive can be met
    and lets the pipeline run on concrete data. *)
Definition keyed_box : Nacl :=
  {| secretbox := fun msg nonce key =>
       checkLengths key nonce (Return (key ++ msg));
     secretbox_open := fun box nonce key =>
       checkLengths key nonce
         (if bytes_eqb (firstn 32 box) key
          then Return (Some (skipn 32 box)) else Return None) |}.

(** A random source that counts, and a server that rejects nothing. *)
Definition quiet : Environment :=
  {| RotateKey.entropy := fun i => byte_of_N (N.of_nat i);
     RotateKey.connect_error := None;
     RotateKey.select_error := None;
     RotateKey.update_error := fun _ _ => None;
     RotateKey.end_error := None |}.

(** A blob as [keyed_box] seals it under [key] with the all-zero nonce. *)
Definition stored (key plain : jsstring) : jsstring :=
  to_hex (repeat x00 24 ++ from_hex key ++ from_utf8 plain).

Definition key_a : jsstring := repeat 97 64.     (* "aaaa...a" *)
Definition key_A : jsstring := repeat 65 64.     (* "AAAA...A" *)
Definition key_b : jsstring := repeat 98 64.     (* "bbbb...b" *)
Definition key_c : jsstring := repeat 99 64.     (* "cccc...c" *)

Definition world_of (table : list PrivateKeyRow) : World :=
  {| private_key := table; calls := []; drawn := 0; reported := [] |}.

(** Three stored records: two sealed under [key_a], one sealed under
    another key. *)
Definition record_A : PrivateKeyRow :=
  {| alias := lit "key-A"; key_type := lit "Ed25519";
     privateKeyHex := stored key_a (lit "deadbeef") |}.
Definition record_B : PrivateKeyRow :=
  {| alias := lit "key-B"; key_type := lit "Secp256k1";
     privateKeyHex := stored key_a (lit "0123456789abcdef") |}.
Definition record_R : PrivateKeyRow :=
  {| alias := lit "key-R"; key_type := lit "Ed25519";
     privateKeyHex := stored key_c (lit "cafe") |}.

Definition three_records : World := world_of [record_A; record_R; record_B].

(** A record whose alias has more than 20 characters. *)
Definition record_long : PrivateKeyRow :=
  {| alias := lit "did:web:example.com:issuer-key-1"; key_type := lit "Ed25519";
     privateKeyHex := stored key_c (lit "cafe") |}.

(** A server on which every statement fails with a syntax error. *)
Definition rejecting : Server :=
  {| DB := unit;
     query := fun d _ => (d, Some (lit "syntax error at or near x"));
     recreate := fun d => (d, None) |}.

(** A server that keeps the statements it ran, refuses to run one again,
    and cannot parse a statement that starts with BAD. *)
Definition remembering : Server :=
  {| DB := list jsstring;
     query := fun d stmt =>
       if startsWith stmt (lit "BAD") then (d, Some (lit "syntax error at or near BAD"))
       else if existsb (eqb stmt) d
       then (d, Some (lit "relation a already exists"))
       else (stmt :: d, None);
     recreate := fun _ => ([], None) |}.

(** A backup file of seven lines holding four statements. *)
Definition mixed_text : jsstring :=
  join [newline]
    [lit "-- VCKit Database Backup";
     lit "CREATE TABLE a (id INTEGER);";
     [];
     lit "BAD;";
     lit "CREATE TABLE a (id INTEGER);";
     lit "INSERT INTO a (id)";
     lit "  VALUES (1);"].

Definition mixed_backup : RestoreEnv :=
  {| input_file := Some mixed_text;
     admin_connect_error := None;
     admin_end_error := None;
     BackupRestore.connect_error := None;
     BackupRestore.end_error := None |}.

(** The numbers 1, -1.5 and 10^21. *)
Definition one : Number := Finite false 1 1.

(** One table [t] with the row [(id = 1, name = O'Brien)]. *)
Definition obrien : QueryResult :=
  {| fields := [lit "id"; lit "name"];
     rows := [[(lit "id", VNumber one); (lit "name", VOther (lit "O'Brien"))]] |}.


Definition id_column : ColumnInfo :=
  {| column_name := lit "id"; udt_name := lit "int4"; data_type := lit "integer";
     character_maximum_length := None; is_nullable := lit "NO";
     column_default := None |}.

Definition name_column : ColumnInfo :=
  {| column_name := lit "name"; udt_name := lit "text"; data_type := lit "text";
     character_maximum_length := None; is_nullable := lit "YES";
     column_default := None |}.

Definition serial_column : ColumnInfo :=
  {| column_name := lit "id"; udt_name := lit "int4"; data_type := lit "integer";
     character_maximum_length := None; is_nullable := lit "NO";
     column_default := Some (lit "nextval('migrations_id_seq'::regclass)") |}.

(** A database with the single table [t] holding the row of [obrien]. *)
Definition obrien_db : Catalog :=
  {| tables := [lit "t"];
     columns_of := fun _ => [id_column; name_column];
     primary_key_rows := [(lit "t", lit "id")];
     data_of := fun _ => obrien |}.

Definition generated_at : jsstring := lit "2024-01-01T00:00:00.000Z".


Definition nothing_sent : Session rejecting :=
  Build_Session rejecting (tt : DB rejecting) [].

(** What the restore of [one_statement] on [rejecting] returns and leaves. *)
Definition one_error_result : Types.RestoreResult.t :=
  {| Types.RestoreResult.success := true;
     Types.RestoreResult.statements := Some 0%nat;
     Types.RestoreResult.errors := Some 1%nat |}.

Definition one_statement_sent : Session rejecting :=
  Build_Session rejecting (tt : DB rejecting) [lit "DROP TABLE missing;"].

(** The counters of the rotation of [three_records] from [key_a]. *)
Definition one_failed_of_three : Tally :=
  {| successCount := 2; errorCount := 1;
     errors := [(lit "key-R", lit "Decryption failed - wrong key or corrupted data")] |}.

(** A backup file with one statement. *)
Definition one_statement : RestoreEnv :=
  {| input_file := Some (lit "DROP TABLE missing;");
     admin_connect_error := None;
     admin_end_error := None;
     BackupRestore.connect_error := None;
     BackupRestore.end_error := None |}.



(** A database with the single, empty table [t (id integer not null)]. *)
Definition one_table : Catalog :=
  {| tables := [lit "t"];
     columns_of := fun _ => [id_column];
     primary_key_rows := [];
     data_of := fun _ => {| fields := [lit "id"]; rows := [] |} |}.

End Fixtures.

(* ===================================================================== *)
(** * More of the JavaScript library                                      *)
(* ===================================================================== *)

(** The [String.prototype] methods and the regular expressions that
    [src/cli.ts], [src/db-utils.ts], [src/ui.ts] and [verifyDatabase] use. *)
Module JSLib.

Definition isAscii (s : jsstring) : bool := forallb (fun c => c <? 128) s.

(** [s.toLowerCase()], on the ASCII letters (other units are left as they
    are; the statements that depend on it take ASCII text). *)
Definition toLowerCase (s : jsstring) : jsstring :=
  map (fun c => if (65 <=? c) && (c <=? 90) then c + 32 else c) s.

(** ECMAScript LineTerminator: the units [.] does not match. *)
Definition isLineTerminator (c : N) : bool :=
  (c =? 10) || (c =? 13) || (c =? 0x2028) || (c =? 0x2029).

(** A Unicode scalar value: a code point that is not a surrogate. *)
Definition scalar (cp : N) : Prop := cp < 0x110000 /\ (cp < 0xD800 \/ 0xDFFF < cp).

(** [\d] *)
Definition isDigit (c : N) : bool := (48 <=? c) && (c <=? 57).

(** White space only. *)
Definition blank (q : jsstring) : Prop := forallb isWhiteSpace q = true.

(** No line break inside. *)
Definition one_line (s : jsstring) : Prop := ~ In newline s.

(** No line terminator inside. *)
Definition no_terminator (s : jsstring) : Prop :=
  forallb (fun u => negb (isLineTerminator u)) s = true.

(** One to three decimal digits. *)
Definition octet (a : jsstring) : Prop :=
  a <> [] /\ (length a <= 3)%nat /\ forallb isDigit a = true.

(** [s.slice(1, -1)] *)
Definition slice_1_m1 (s : jsstring) : jsstring := removelast (tl s).

(** [s.trimEnd()] *)
Definition trimEnd (s : jsstring) : jsstring := rev (trimStart (rev s)).

(** [c.repeat(n)] for a one-unit string. *)
Definition repeat_unit (c : N) (n : nat) : jsstring := repeat c n.

(** ** Regular expressions

    A pattern is a matcher in continuation style: [m k s] holds when [m]
    matches a prefix of [s] and [k] accepts what is left, so [test] is the
    existence of a match, whatever the order in which alternatives are
    tried. *)
Definition Matcher := (jsstring -> bool) -> jsstring -> bool.

(** One unit of a class. *)
Definition unit_of (p : N -> bool) : Matcher :=
  fun k s => match s with c :: r => p c && k r | [] => false end.

(** Concatenation, [m?], and a literal. *)
Definition then_ (m1 m2 : Matcher) : Matcher := fun k => m1 (m2 k).
Definition optional (m : Matcher) : Matcher := fun k s => m k s || k s.

Fixpoint literal (text : jsstring) : Matcher :=
  match text with
  | [] => fun k => k
  | c :: r => then_ (unit_of (N.eqb c)) (literal r)
  end.

(** A literal under the [i] flag (ASCII letters of either case). *)
Fixpoint literal_i (text : jsstring) : Matcher :=
  match text with
  | [] => fun k => k
  | c :: r =>
      then_ (unit_of (fun d => (d =? c) || eqb (toLowerCase [d]) (toLowerCase [c])))
            (literal_i r)
  end.

(** [$] without the [m] flag: the end of the input. *)
Definition end_of_input (s : jsstring) : bool :=
  match s with [] => true | _ :: _ => false end.

(** [\d{1,3}] *)
Definition digits_1_3 : Matcher :=
  then_ (unit_of isDigit) (optional (then_ (unit_of isDigit) (optional (unit_of isDigit)))).

(** [\.\d{1,3}\.\d{1,3}\.\d{1,3}$] *)
Definition dotted_tail : jsstring -> bool :=
  then_ (literal (lit "."))
    (then_ digits_1_3
       (then_ (literal (lit "."))
          (then_ digits_1_3 (then_ (literal (lit ".")) digits_1_3)))) end_of_input.

End JSLib.

(* ===================================================================== *)
(** * src/rotate-key.ts: the generators                                   *)
(* ===================================================================== *)

Module KeyGenerators.
Import RotateKey.

Section Generators.

Context (env : Environment).

Local Open Scope eff_scope.

(** [crypto.randomBytes(n)]: [n] bytes of the random stream. *)
Definition crypto_randomBytes (n : nat) : M World bytes := randomBytes env n.

(** [crypto.randomBytes(32).toString('hex')] *)
Definition generateKey : M World jsstring :=
  key <- crypto_randomBytes 32 ;;
  ret (to_hex key).

Definition chars : jsstring :=
  lit "abcdefghijklmnopqrstuvwxyzABCDEFGHIJKLMNOPQRSTUVWXYZ0123456789!@#$%^&*".

(** [chars[i]], as [+=] appends it ([undefined] prints as its name). *)
Definition char_at (s : jsstring) (i : N) : jsstring :=
  match nth_error s (N.to_nat i) with
  | Some c => [c]
  | None => lit "undefined"
  end.

(** [chars[bytes[i] % chars.length]] *)
Definition password_char (buf : bytes) (i : nat) : jsstring :=
  match nth_error buf i with
  | Some b => char_at chars (Byte.to_N b mod N.of_nat (length chars))
  | None => lit "undefined"
  end.

(** The 256 values of a byte. *)
Definition all_bytes : bytes := map (fun n => byte_of_N (N.of_nat n)) (seq 0 256).

(** [for (let i = 0; i < length; i++) password += ...] *)
Definition generatePassword (length : nat) : M World jsstring :=
  buf <- crypto_randomBytes length ;;
  ret (fold_left (fun password i => password ++ password_char buf i) (seq 0 length) []).

End Generators.

End KeyGenerators.

(* ===================================================================== *)
(** * src/db-utils.ts                                                     *)
(* ===================================================================== *)

Module DbUtils.
Import JSLib.

Record SslConfig := {
  enabled : option bool;                 (* boolean | undefined *)
  rejectUnauthorized : option bool
}.

(** [DbConfig] as [buildClientConfig] reads it. *)
Record DbConfig := {
  host : jsstring;
  port : Z;
  database : jsstring;
  user : jsstring;
  password : option jsstring;
  ssl : option SslConfig
}.

(** [pg]'s [ClientConfig]: the members the tool sets. *)
Record ClientConfig := {
  client_host : jsstring;
  client_port : Z;
  client_database : jsstring;
  client_user : jsstring;
  client_password : option jsstring;
  client_ssl : option bool               (* { rejectUnauthorized } | undefined *)
}.

Definition localHosts : list jsstring :=
  [lit "localhost"; lit "::1"; lit "0:0:0:0:0:0:0:1"].

Definition dockerHosts : list jsstring :=
  [lit "host.docker.internal"; lit "docker.for.mac.localhost";
   lit "docker.for.win.localhost"; lit "gateway.docker.internal"].

(** [/^127\.\d{1,3}\.\d{1,3}\.\d{1,3}$/] *)
Definition loopback_v4 (s : jsstring) : bool :=
  literal (lit "127") dotted_tail s.

(** [/^::ffff:127\.\d{1,3}\.\d{1,3}\.\d{1,3}$/i] *)
Definition loopback_mapped (s : jsstring) : bool :=
  literal_i (lit "::ffff:127") dotted_tail s.

Definition isLocalHost (host : jsstring) : bool :=
  if eqb host [] then true
  else
    let lowerHost := toLowerCase host in
    if array_includes localHosts lowerHost then true
    else if loopback_v4 host then true
    else if loopback_mapped host then true
    else if array_includes dockerHosts lowerHost then true
    else false.

(** [ssl?.enabled === true], [ssl?.enabled !== false] and
    [ssl?.rejectUnauthorized !== false]. *)
Definition is_true (o : option bool) : bool :=
  match o with Some true => true | _ => false end.
Definition is_not_false (o : option bool) : bool :=
  match o with Some false => false | _ => true end.
Definition ssl_enabled (s : option SslConfig) : option bool :=
  match s with Some c => enabled c | None => None end.
Definition ssl_rejectUnauthorized (s : option SslConfig) : option bool :=
  match s with Some c => rejectUnauthorized c | None => None end.

Definition buildClientConfig (dbConfig : DbConfig) (overrideDatabase : option jsstring)
  : ClientConfig :=
  let isRemote := negb (isLocalHost (host dbConfig)) in
  let sslEnabled :=
    is_true (ssl_enabled (ssl dbConfig))
    || (isRemote && is_not_false (ssl_enabled (ssl dbConfig))) in
  {| client_host := host dbConfig;
     client_port := port dbConfig;
     client_database :=
       match overrideDatabase with
       | Some (c :: s) => c :: s
       | _ => database dbConfig
       end;
     client_user := user dbConfig;
     client_password := password dbConfig;
     client_ssl :=
       if sslEnabled
       then Some (is_not_false (ssl_rejectUnauthorized (ssl dbConfig)))
       else None |}.

End DbUtils.

(* ===================================================================== *)
(** * Child processes and database clients                                *)
(* ===================================================================== *)

(** What [changePassword] and [verifyDatabase] do to the outside, in order,
    and what the outside answers. *)
Module Outside.
Import DbUtils.

Inductive Action :=
| Exec (command : jsstring)              (* execAsync(command) *)
| ClientConnect (config : DbConfig)      (* new Client(config).connect() *)
| ClientQuery (sql : jsstring)           (* client.query(sql) *)
| ClientEnd.                             (* client.end() *)

(** The answers: the standard output of a command or its error, whether a
    connection is refused, the first column of a query's rows or its error,
    whether closing fails. *)
Record Answers := {
  exec : jsstring -> completion jsstring;
  connect : DbConfig -> option jsstring;
  run : jsstring -> completion (list jsstring);
  close : option jsstring
}.

Definition Log := list Action.

Section Calls.

Context (out : Answers).

Definition execAsync (command : jsstring) : M Log jsstring :=
  fun log => (exec out command, log ++ [Exec command]).

Definition client_connect (config : DbConfig) : M Log unit :=
  fun log =>
    (match connect out config with Some m => Throw m | None => Return tt end,
     log ++ [ClientConnect config]).

Definition client_query (sql : jsstring) : M Log (list jsstring) :=
  fun log => (run out sql, log ++ [ClientQuery sql]).

Definition client_end : M Log unit :=
  fun log =>
    (match close out with Some m => Throw m | None => Return tt end,
     log ++ [ClientEnd]).

End Calls.

End Outside.

(* ===================================================================== *)
(** * src/change-password.ts                                              *)
(* ===================================================================== *)

Module ChangePassword.
Import DbUtils Outside.

Record ChangePasswordOptions := {
  newPassword : jsstring;
  targetUser : option jsstring;
  container : option jsstring;
  dbConfig : DbConfig
}.

(** [a || b] on [string | undefined]. *)
Definition or_else (a : option jsstring) (b : jsstring) : jsstring :=
  match a with
  | Some (c :: s) => c :: s
  | _ => b
  end.

(** [`ALTER USER ${userToChange} WITH PASSWORD '${escapedPassword}';`] *)
Definition alter_user (userToChange newPassword : jsstring) : jsstring :=
  let escapedPassword := doubleQuotes newPassword in
  lit "ALTER USER " ++ userToChange ++ lit " WITH PASSWORD '" ++ escapedPassword ++ lit "';".

Definition password_change_failed (m : jsstring) : jsstring :=
  lit "Password change failed: " ++ m.

Section Run.

Context (out : Answers).

Local Open Scope eff_scope.

Definition changePassword (o : ChangePasswordOptions) : M Log bool :=
  let userToChange := or_else (targetUser o) (user (dbConfig o)) in
  if eqb (newPassword o) [] || (length (newPassword o) <? 8)%nat
  then throw (lit "New password must be at least 8 characters")
  else
    let sql := alter_user userToChange (newPassword o) in
    match container o with
    | Some (c :: name) =>
        try_catch
          (execAsync out
             (lit "docker exec " ++ (c :: name) ++ lit " psql -U " ++ user (dbConfig o)
              ++ lit " -c " ++ quoted sql) ;;;
           ret tt)
          (fun m => throw (password_change_failed m)) ;;;
        ret true
    | _ =>
        let config :=
          {| host := host (dbConfig o); port := port (dbConfig o);
             database := lit "postgres"; user := user (dbConfig o);
             password := password (dbConfig o); ssl := ssl (dbConfig o) |} in
        try_catch
          (client_connect out config ;;;
           client_query out sql ;;;
           client_end out)
          (fun m => throw (password_change_failed m)) ;;;
        ret true
    end.

End Run.

End ChangePassword.

(* ===================================================================== *)
(** * src/backup-restore.ts: [formatSize] and [verifyDatabase]            *)
(* ===================================================================== *)

Module Reports.
Import JSLib DbUtils Outside.

(** ** [formatSize] *)

Definition two_digits (n : N) : jsstring := [48 + n / 10; 48 + n mod 10].

(** [(p / q).toFixed(2)] for integers [p] and a power of two [q]: the
    quotient is exact in a double, and [toFixed] takes the integer [n] for
    which [n / 100] is nearest to it, the larger one at a tie. *)
Definition toFixed2 (p q : N) : jsstring :=
  let n := (200 * p + q) / (2 * q) in
  numberToString (Z.of_N (n / 100)) ++ lit "." ++ two_digits (n mod 100).

Definition formatSize (bytes : N) : jsstring :=
  if bytes <? 1024 then numberToString (Z.of_N bytes) ++ lit " B"
  else if bytes <? 1024 * 1024 then toFixed2 bytes 1024 ++ lit " KB"
  else toFixed2 bytes (1024 * 1024) ++ lit " MB".

(** ** [verifyDatabase] *)

Record VerifyResult := { valid : bool; missing : list jsstring }.

Definition expectedTables : list jsstring :=
  [lit "identifier"; lit "key"; lit "private-key"; lit "credential"; lit "migrations"].

Definition verdict (missing : list jsstring) : VerifyResult :=
  if (0 <? length missing)%nat
  then {| valid := false; missing := missing |}
  else {| valid := true; missing := [] |}.

(** The container path: the names are looked for in the text [psql] prints. *)
Definition missing_in_output (stdout : jsstring) : list jsstring :=
  let output := toLowerCase stdout in
  filter (fun t => negb (includes output (toLowerCase t))) expectedTables.

(** The client path: the names are looked for among the rows. *)
Definition missing_in_tables (tables : list jsstring) : list jsstring :=
  filter (fun t => negb (array_includes (map toLowerCase tables) (toLowerCase t)))
    expectedTables.

Definition verification_failed (m : jsstring) : jsstring :=
  lit "Verification failed: " ++ m.

Definition list_tables : jsstring :=
  [newline] ++ lit "      SELECT tablename FROM pg_tables"
  ++ [newline] ++ lit "      WHERE schemaname = 'public'"
  ++ [newline] ++ lit "      ORDER BY tablename"
  ++ [newline] ++ lit "    ".

Section Run.

Context (out : Answers).

Local Open Scope eff_scope.

Definition verifyDatabase (container : option jsstring) (dbConfig : DbConfig)
  : M Log VerifyResult :=
  match container with
  | Some (c :: name) =>
      try_catch
        (stdout <- execAsync out
           (lit "docker exec " ++ (c :: name) ++ lit " psql -U " ++ user dbConfig
            ++ lit " -d " ++ database dbConfig
            ++ lit " -c " ++ quoted (lit "SELECT tablename FROM pg_tables WHERE schemaname = 'public';")) ;;
         ret (verdict (missing_in_output stdout)))
        (fun m => throw (verification_failed m))
  | _ =>
      try_catch (client_connect out dbConfig)
        (fun m => throw (verification_failed m)) ;;;
      try_finally
        (tables <- client_query out list_tables ;;
         ret (verdict (missing_in_tables tables)))
        (client_end out)
  end.

End Run.

End Reports.

(* ===================================================================== *)
(** * src/cli.ts: the environment file                                    *)
(* ===================================================================== *)

Module Cli.
Import JSLib.

(** [line.match] with the pattern of an assignment (units other than [=],
    at least one; then [=]; then whatever [.] matches, up to the end of the
    input): the text before the first [=] is group 1, the text after it is
    group 2, which [.] keeps free of line terminators. *)
Fixpoint upto_equals (s : jsstring) : option (jsstring * jsstring) :=
  match s with
  | [] => None
  | c :: r =>
      if c =? 61 then Some ([], r)
      else match upto_equals r with
           | Some (k, v) => Some (c :: k, v)
           | None => None
           end
  end.

Definition matchAssignment (line : jsstring) : option (jsstring * jsstring) :=
  match upto_equals line with
  | Some (c :: k, v) =>
      if forallb (fun u => negb (isLineTerminator u)) v then Some (c :: k, v) else None
  | _ => None
  end.

(** [process.env]: the variables set, most recent first. *)
Definition ProcessEnv := list (jsstring * jsstring).

Fixpoint getenv (env : ProcessEnv) (name : jsstring) : option jsstring :=
  match env with
  | [] => None
  | (k, v) :: rest => if eqb k name then Some v else getenv rest name
  end.

(** [process.env[key] === undefined]: a name that is not set is looked up
    in [Object.prototype]. *)
Definition isUndefined (env : ProcessEnv) (key : jsstring) : bool :=
  match getenv env key with
  | Some _ => false
  | None => negb (array_includes object_prototype_names key)
  end.

Definition hasQuotes (q : N) (value : jsstring) : bool :=
  startsWith value [q] && endsWith value [q].

(** The body of the loop of [loadEnvFile]. *)
Definition load_line (env : ProcessEnv) (line : jsstring) : ProcessEnv :=
  let trimmed := trim line in
  if eqb trimmed [] || startsWith trimmed (lit "#") then env
  else
    match matchAssignment trimmed with
    | Some (k, v) =>
        let key := trim k in
        let value := trim v in
        let value :=
          if hasQuotes dquote value || hasQuotes squote value
          then slice_1_m1 value else value in
        if isUndefined env key then (key, value) :: env else env
    | None => env
    end.

Definition load_content (content : jsstring) (env : ProcessEnv) : ProcessEnv :=
  fold_left load_line (split newline content) env.

(** [loadEnvFile]: [file] is the text at the path, if the path exists; a
    missing file ends the process with code 1. *)
Definition loadEnvFile (file : option jsstring) (env : ProcessEnv) : ProcessEnv + Z :=
  match file with
  | None => inr 1%Z
  | Some content => inl (load_content content env)
  end.

(** The [map] callback of [updateEnvFile]: the new line, and whether it set
    [found]. *)
Definition update_line (key newValue line : jsstring) : jsstring * bool :=
  match matchAssignment line with
  | Some (k, v) =>
      if eqb (trim k) key then
        let oldValue := trim v in
        if hasQuotes dquote oldValue then (key ++ lit "=" ++ quoted newValue, true)
        else if hasQuotes squote oldValue
        then (key ++ lit "=" ++ [squote] ++ newValue ++ [squote], true)
        else (key ++ lit "=" ++ newValue, true)
      else (line, false)
  | None => (line, false)
  end.

Inductive UpdateResult := Updated | Appended | NoFile.

Definition update_content (content key newValue : jsstring) : jsstring * UpdateResult :=
  let lines := split newline content in
  let updated := map (update_line key newValue) lines in
  let found := existsb snd updated in
  let updatedLines :=
    map fst updated ++ (if found then [] else [key ++ lit "=" ++ newValue]) in
  (join [newline] updatedLines, if found then Updated else Appended).

(** [updateEnvFile]: the text of the file afterwards, and the result. *)
Definition updateEnvFile (file : option jsstring) (key newValue : jsstring)
  : option jsstring * UpdateResult :=
  match file with
  | None => (None, NoFile)
  | Some content =>
      (Some (fst (update_content content key newValue)),
       snd (update_content content key newValue))
  end.

(** [process.env[name] || defaultVal] *)
Definition getEnv (env : ProcessEnv) (name : jsstring) (defaultVal : option jsstring)
  : option jsstring :=
  match getenv env name with
  | Some (c :: s) => Some (c :: s)
  | _ => defaultVal
  end.

End Cli.

(* ===================================================================== *)
(** * src/ui.ts: colours and message clean-up                             *)
(* ===================================================================== *)

Module Ui.
Import JSLib.

Definition ESC : N := 27.

Definition RESET : jsstring := ESC :: lit "[0m".

(** [`\x1b[${code}m${s}${RESET}`] *)
Definition paint (code : jsstring) (s : jsstring) : jsstring :=
  ESC :: lit "[" ++ code ++ lit "m" ++ s ++ RESET.

Definition cyan := paint (lit "96").
Definition magenta := paint (lit "95").
Definition yellow := paint (lit "93").
Definition green := paint (lit "92").
Definition red := paint (lit "91").
Definition blue := paint (lit "94").
Definition gray := paint (lit "90").
Definition white := paint (lit "97").
Definition bold := paint (lit "1").
Definition dim := paint (lit "2").

(** [[0-9;]] *)
Definition parameter (c : N) : bool := isDigit c || (c =? 59).

(** The maximal run of [[0-9;]] at the head of [s]. *)
Fixpoint parameters (s : jsstring) : nat :=
  match s with
  | c :: r => if isDigit c || (c =? 59) then S (parameters r) else 0
  | [] => 0
  end.

(** The length of the match of [/\x1b\[[0-9;]*m/] at the head of [s]. *)
Definition escape_length (s : jsstring) : option nat :=
  match s with
  | e :: b :: r =>
      if (e =? ESC) && (b =? 91) then
        match nth_error r (parameters r) with
        | Some m => if m =? 109 then Some (3 + parameters r)%nat else None
        | None => None
        end
      else None
  | _ => None
  end.

(** [str.replace(/\x1b\[[0-9;]*m/g, '')]: matches are looked for from left
    to right and do not overlap; [skip] units of a match remain to drop. *)
Fixpoint strip (skip : nat) (s : jsstring) : jsstring :=
  match s with
  | [] => []
  | c :: r =>
      match skip with
      | S k => strip k r
      | O =>
          match escape_length s with
          | Some n => strip (n - 1) r
          | None => c :: strip 0 r
          end
      end
  end.

Definition stripAnsi (str : jsstring) : jsstring := strip 0 str.

(** [message.replace(/\s+/g, ' ')]; [inRun] tells that the previous unit was
    white space. *)
Fixpoint collapse (inRun : bool) (s : jsstring) : jsstring :=
  match s with
  | [] => []
  | c :: r =>
      if isWhiteSpace c
      then if inRun then collapse true r else 32 :: collapse true r
      else c :: collapse false r
  end.

(** No two spaces in a row. *)
Fixpoint single_spaced (s : jsstring) : Prop :=
  match s with
  | a :: (b :: _) as r => ~ (a = 32 /\ b = 32) /\ single_spaced r
  | _ => True
  end.

(** The [cleanMessage] of [errorBox]. *)
Definition cleanMessage (message : jsstring) : jsstring := trim (collapse false message).

(** A word: at least one unit, none of them white space. *)
Definition word (w : jsstring) : Prop :=
  w <> [] /\ forallb (fun c => negb (isWhiteSpace c)) w = true.

(** A text laid out as words, each after a run of white space. *)
Fixpoint spaced (parts : list (jsstring * jsstring)) : jsstring :=
  match parts with
  | [] => []
  | (gap, w) :: rest => gap ++ w ++ spaced rest
  end.

(** The last unit, if there is one, is not white space. *)
Definition ends_clean (s : jsstring) : Prop :=
  forall r d, s = r ++ [d] -> isWhiteSpace d = false.

(** The words of a text and the white space between them: every run is
    white space and every run but the first has a unit. *)
Definition layout (parts : list (jsstring * jsstring)) : Prop :=
  Forall (fun p => blank (fst p) /\ word (snd p)) parts
  /\ Forall (fun p => fst p <> []) (tl parts).

End Ui.
(* ===================================================================== *)
(** * The statements of a snapshot                                        *)
(* ===================================================================== *)

(** What a snapshot is meant to hold, statement by statement, and the
    catalogs whose identifiers and values stay on one line. *)
Module SnapshotText.
Import JSLib BackupRestore.




(** The columns the catalog lists for the key of a table, in the order of
    the rows. *)
Definition key_columns (constraint_rows : list (jsstring * jsstring)) (t : jsstring)
  : list jsstring :=
  map snd (filter (fun r => eqb (fst r) t) constraint_rows).

Definition add_primary_key (tableName : jsstring) (cols : list jsstring) : jsstring :=
  lit "ALTER TABLE " ++ quoted tableName ++ lit " ADD PRIMARY KEY ("
  ++ join (lit ", ") (map quoted cols) ++ lit ");".

(** The text of a value as the rules of the snapshot give it: NULL for a
    null, the number or the boolean as it prints, the ISO text of a date
    between single quotes, any other text between single quotes with each
    single quote doubled.  A date without a time value has no text. *)
Definition rendering (v : value) : option jsstring :=
  match v with
  | VNull => Some (lit "NULL")
  | VNumber x => Some (Number_toString x)
  | VBoolean true => Some (lit "true")
  | VBoolean false => Some (lit "false")
  | VDate (Some iso) => Some ([squote] ++ iso ++ [squote])
  | VDate None => None
  | VOther text =>
      Some ([squote]
            ++ flat_map (fun c => if c =? squote then [squote; squote] else [c]) text
            ++ [squote])
  end.

Definition rendered (v : value) : jsstring :=
  match rendering v with
  | Some text => text
  | None => []
  end.

(** The statement of one row. *)
Definition insert_text (tableName : jsstring) (fs : list jsstring)
  (row : list (jsstring * value)) : jsstring :=
  lit "INSERT INTO " ++ quoted tableName ++ lit " ("
  ++ join (lit ", ") (map quoted fs) ++ lit ") VALUES ("
  ++ join (lit ", ") (map (fun f => rendered (property row f)) fs) ++ lit ");".

Definition inserts (result : QueryResult) (tableName : jsstring) : list jsstring :=
  map (insert_text tableName (fields result)) (rows result).



(** The entries of the [lines] array: the statements of a table, its
    comment, the empty entries, and the rows in one entry. *)
Definition table_lines (cat : Catalog) (tableName : jsstring) : list jsstring :=
  [lit "-- Table: " ++ tableName;
   lit "DROP TABLE IF EXISTS " ++ quoted tableName ++ lit " CASCADE;";
   getTableSchema (columns_of cat tableName) tableName;
   []]
  ++ match key_columns (primary_key_rows cat) tableName with
     | [] => []
     | cols => [add_primary_key tableName cols; []]
     end
  ++ match rows (data_of cat tableName) with
     | [] => []
     | _ => [join [newline] (inserts (data_of cat tableName) tableName); []]
     end.

Definition snapshot_lines (now : jsstring) (cat : Catalog) : list jsstring :=
  [lit "-- VCKit Database Backup";
   lit "-- Generated: " ++ now;
   lit "-- Tool: vckit-db-tools";
   [];
   lit "SET client_encoding = 'UTF8';";
   []]
  ++ flat_map (table_lines cat) (tables cat).




(** A unit that is neither a single quote nor a line feed. *)
Definition plain (c : N) : Prop := c <> squote /\ c <> newline.


(** The own properties [getPrimaryKeys] builds when it returns. *)
Definition grouped (constraint_rows : list (jsstring * jsstring)) : PrimaryKeyMap :=
  fold_left (fun pks r => pk_push pks (fst r) (snd r)) constraint_rows [].

(** No own property bears a name of [Object.prototype]. *)
Definition no_inherited_name (pks : PrimaryKeyMap) : Prop :=
  forall t, array_includes object_prototype_names t = true -> pk_get pks t = None.

End SnapshotText.
(* ===================================================================== *)
(** * Reading a string literal of SQL                                     *)
(* ===================================================================== *)

Module SqlLiteral.

(** The reader of the server for a string constant (standard-conforming
    strings): [s] is the text after the opening quote; two quotes stand for
    one, a single quote closes the constant.  The result is the value and
    the text after the closing quote. *)
Fixpoint read (s : jsstring) : option (jsstring * jsstring) :=
  match s with
  | [] => None
  | c :: r =>
      if c =? squote then
        match r with
        | d :: r' =>
            if d =? squote then
              match read r' with
              | Some (v, rest) => Some (squote :: v, rest)
              | None => None
              end
            else Some ([], r)
        | [] => Some ([], [])
        end
      else
        match read r with
        | Some (v, rest) => Some (c :: v, rest)
        | None => None
        end
  end.

End SqlLiteral.
(* ===================================================================== *)
(** * Names and values of an environment file                             *)
(* ===================================================================== *)

Module EnvFileText.
Import JSLib Cli.

(** A name that [updateEnvFile] writes and [loadEnvFile] reads back as it
    is: not empty, on one line, without [=], without white space at its
    ends, not starting a comment. *)
Record plain_name (key : jsstring) : Prop := {
  name_not_empty : key <> [];
  name_one_line : one_line key;
  name_no_equals : ~ In 61 key;
  name_trimmed : trim key = key;
  name_not_comment : startsWith key (lit "#") = false
}.

(** A value that is written and read back as it is: without line
    terminator, without white space at its ends, not wrapped in quotes. *)
Record plain_value (value : jsstring) : Prop := {
  value_no_terminator : no_terminator value;
  value_trimmed : trim value = value;
  value_not_double_quoted : hasQuotes dquote value = false;
  value_not_single_quoted : hasQuotes squote value = false
}.

(** A text whose only line terminator is the line feed. *)
Definition unix_text (content : jsstring) : Prop :=
  forallb (fun c => negb (isLineTerminator c) || (c =? newline)) content = true.

(** A text whose lines all end with a carriage return, the last one aside
    when it is empty. *)
Definition dos_line (line : jsstring) : Prop :=
  line = [] \/ exists body, line = body ++ [13].

End EnvFileText.
(* ===================================================================== *)
(** * More concrete inputs                                                *)
(* ===================================================================== *)

Module Samples.
Import RotateKey BackupRestore DbUtils Outside ChangePassword Cli Fixtures.

(** Two records sealed under [key_a]. *)
Definition two_records : World := world_of [record_A; record_B].

(** A backup file in place, and an administrative client that cannot be
    closed. *)
Definition unclosed_admin : RestoreEnv :=
  {| input_file := Some (lit "DROP TABLE missing;");
     admin_connect_error := None;
     admin_end_error := Some (lit "Connection terminated");
     BackupRestore.connect_error := None;
     BackupRestore.end_error := None |}.

(** A statement without its semicolon. *)
Definition open_statement : jsstring := lit "DROP TABLE a".

(** An insert whose text value spans three lines, the middle one empty. *)
Definition insert_head : jsstring := lit "INSERT INTO a (t) VALUES ('first".
Definition insert_tail : jsstring := lit "last');".

Definition local_config : DbConfig :=
  {| host := lit "localhost"; port := 5432; database := lit "vckit";
     user := lit "postgres"; password := Some (lit "postgres"); ssl := None |}.

(** A server that accepts connections and rejects every statement. *)
Definition read_only : Answers :=
  {| exec := fun _ => Throw (lit "docker: not found");
     connect := fun _ => None;
     run := fun _ => Throw (lit "permission denied");
     close := None |}.

Definition new_password : ChangePasswordOptions :=
  {| newPassword := lit "correct horse"; targetUser := None; container := None;
     dbConfig := local_config |}.

Definition rejected_change : Log :=
  [ClientConnect {| host := lit "localhost"; port := 5432; database := lit "postgres";
                    user := lit "postgres"; password := Some (lit "postgres");
                    ssl := None |};
   ClientQuery (alter_user (lit "postgres") (lit "correct horse"))].

(** An environment file with a comment, a quoted assignment of the
    encryption key and another assignment. *)
Definition env_file : jsstring :=
  join [newline]
    [lit "# vckit";
     lit "DATABASE_ENCRYPTION_KEY=" ++ quoted key_a;
     lit "DATABASE_NAME=vckit"].

Definition encryption_key_name : jsstring := lit "DATABASE_ENCRYPTION_KEY".

(** A server that accepts everything and holds the one table "private-key". *)
Definition accepting : Answers :=
  {| exec := fun _ => Return (lit " tablename" ++ [newline] ++ lit " private-key" ++ [newline]);
     connect := fun _ => None;
     run := fun _ => Return [lit "private-key"];
     close := None |}.

(** A server that refuses every connection. *)
Definition refusing : Answers :=
  {| exec := fun _ => Throw (lit "docker: not found");
     connect := fun _ => Some (lit "ECONNREFUSED");
     run := fun _ => Throw (lit "not connected");
     close := None |}.

Definition short_password : ChangePasswordOptions :=
  {| newPassword := lit "horse"; targetUser := None; container := None;
     dbConfig := local_config |}.

Definition in_container : ChangePasswordOptions :=
  {| newPassword := lit "correct horse"; targetUser := Some (lit "vckit");
     container := Some (lit "vckit-postgres"); dbConfig := local_config |}.

Definition remote_config (ssl : option SslConfig) : DbConfig :=
  {| host := lit "db.example.com"; port := 5432; database := lit "vckit";
     user := lit "postgres"; password := Some (lit "postgres"); ssl := ssl |}.

(** An error message over three lines. *)
Definition sample_message : jsstring :=
  lit "  connect ECONNREFUSED" ++ [newline] ++ lit "   127.0.0.1:5432 " ++ [newline].

(** The environment file of a Windows editor: one assignment, ended by a
    carriage return and a line feed. *)
Definition dos_file : jsstring := encryption_key_name ++ lit "=" ++ key_b ++ [13; newline].

End Samples.

(* ===================================================================== *)
(** * Lemmas and theorems                                                 *)
(* ===================================================================== *)

Module BufferFacts.


Lemma byte_of_to_N (b : byte) : byte_of_N (Byte.to_N b) = b.
Proof.
  unfold byte_of_N.
  rewrite N.mod_small by (pose proof (Byte.to_N_bounded b); lia).
  now rewrite Byte.of_to_N.
Qed.

Lemma to_N_byte_of_N (n : N) : n < 256 -> Byte.to_N (byte_of_N n) = n.
Proof.
  intros H. unfold byte_of_N. rewrite N.mod_small by exact H.
  destruct (Byte.of_N n) eqn:E.
  - now apply Byte.to_of_N.
  - apply Byte.of_N_None_iff in E. lia.
Qed.

Lemma from_hex_pair (b : byte) (r : jsstring) :
  from_hex (hexDigit (Byte.to_N b / 16) :: hexDigit (Byte.to_N b mod 16) :: r)
  = b :: from_hex r.
Proof. destruct b; reflexivity. Qed.

Lemma from_hex_to_hex (b : bytes) : from_hex (to_hex b) = b.
Proof.
  induction b as [|x b IH]; [reflexivity|].
  unfold to_hex in *. cbn [flat_map app]. now rewrite from_hex_pair, IH.
Qed.



(** One decoding step, by the length of the sequence. *)
Lemma code_points_1 b0 r :
  b0 < 0x80 -> utf8_code_points (b0 :: r) = b0 :: utf8_code_points r.
Proof.
  intros H. cbn [utf8_code_points].
  now rewrite (proj2 (N.ltb_lt _ _) H).
Qed.

Lemma code_points_2 b0 b1 r :
  0xC2 <= b0 -> b0 <= 0xDF -> 0x80 <= b1 -> b1 <= 0xBF ->
  utf8_code_points (b0 :: b1 :: r)
  = ((b0 - 0xC0) * 64 + (b1 - 0x80)) :: utf8_code_points r.
Proof.
  intros H1 H2 H3 H4. cbn [utf8_code_points]. unfold isContinuation.
  rewrite (proj2 (N.ltb_ge b0 0x80)) by lia.
  rewrite (proj2 (N.leb_le _ _) H1), (proj2 (N.leb_le _ _) H2).
  rewrite (proj2 (N.leb_le _ _) H3), (proj2 (N.leb_le _ _) H4).
  reflexivity.
Qed.

Lemma code_points_3 b0 b1 b2 r :
  0xE0 <= b0 -> b0 <= 0xEF ->
  (if b0 =? 0xE0 then 0xA0 else 0x80) <= b1 ->
  b1 <= (if b0 =? 0xED then 0x9F else 0xBF) ->
  0x80 <= b2 -> b2 <= 0xBF ->
  utf8_code_points (b0 :: b1 :: b2 :: r)
  = ((b0 - 0xE0) * 4096 + (b1 - 0x80) * 64 + (b2 - 0x80)) :: utf8_code_points r.
Proof.
  intros H1 H2 H3 H4 H5 H6. cbn [utf8_code_points]. unfold isContinuation.
  rewrite (proj2 (N.ltb_ge b0 0x80)) by lia.
  replace (0xC2 <=? b0) with true by (symmetry; apply N.leb_le; lia).
  replace (b0 <=? 0xDF) with false by (symmetry; apply N.leb_gt; lia).
  rewrite (proj2 (N.leb_le _ _) H1), (proj2 (N.leb_le _ _) H2).
  rewrite (proj2 (N.leb_le _ _) H3), (proj2 (N.leb_le _ _) H4).
  rewrite (proj2 (N.leb_le _ _) H5), (proj2 (N.leb_le _ _) H6).
  reflexivity.
Qed.

Lemma code_points_4 b0 b1 b2 b3 r :
  0xF0 <= b0 -> b0 <= 0xF4 ->
  (if b0 =? 0xF0 then 0x90 else 0x80) <= b1 ->
  b1 <= (if b0 =? 0xF4 then 0x8F else 0xBF) ->
  0x80 <= b2 -> b2 <= 0xBF -> 0x80 <= b3 -> b3 <= 0xBF ->
  utf8_code_points (b0 :: b1 :: b2 :: b3 :: r)
  = ((b0 - 0xF0) * 262144 + (b1 - 0x80) * 4096 + (b2 - 0x80) * 64 + (b3 - 0x80))
    :: utf8_code_points r.
Proof.
  intros H1 H2 H3 H4 H5 H6 H7 H8. cbn [utf8_code_points]. unfold isContinuation.
  rewrite (proj2 (N.ltb_ge b0 0x80)) by lia.
  replace (0xC2 <=? b0) with true by (symmetry; apply N.leb_le; lia).
  replace (b0 <=? 0xDF) with false by (symmetry; apply N.leb_gt; lia).
  replace (0xE0 <=? b0) with true by (symmetry; apply N.leb_le; lia).
  replace (b0 <=? 0xEF) with false by (symmetry; apply N.leb_gt; lia).
  rewrite (proj2 (N.leb_le _ _) H1), (proj2 (N.leb_le _ _) H2).
  rewrite (proj2 (N.leb_le _ _) H3), (proj2 (N.leb_le _ _) H4).
  rewrite (proj2 (N.leb_le _ _) H5), (proj2 (N.leb_le _ _) H6).
  rewrite (proj2 (N.leb_le _ _) H7), (proj2 (N.leb_le _ _) H8).
  reflexivity.
Qed.


(** Base-64 digits of a code point, as linear facts. *)
Lemma digits64 (a : N) : a = 64 * (a / 64) + a mod 64 /\ a mod 64 < 64.
Proof. split; [apply N.div_mod; discriminate | apply N.mod_lt; discriminate]. Qed.

Lemma div_4096 (a : N) : a / 4096 = a / 64 / 64.
Proof. now rewrite N.Div0.div_div. Qed.

Lemma div_262144 (a : N) : a / 262144 = a / 64 / 64 / 64.
Proof. now rewrite !N.Div0.div_div. Qed.

Lemma code_points_of_code_point (cp : N) (rest : list N) :
  cp < 0x110000 -> (cp < 0xD800 \/ 0xDFFF < cp) ->
  utf8_code_points (utf8_of_code_point cp ++ rest) = cp :: utf8_code_points rest.
Proof.
  intros Hmax Hsur. unfold utf8_of_code_point.
  destruct (N.ltb_spec cp 0x80) as [H1|H1];
    [|destruct (N.ltb_spec cp 0x800) as [H2|H2];
      [|destruct (N.ltb_spec cp 0x10000) as [H3|H3]]]; cbn [app].
  - now apply code_points_1.
  - destruct (digits64 cp) as [E L].
    revert E L. generalize (cp / 64) (cp mod 64). intros q r E L.
    rewrite code_points_2 by lia. f_equal. lia.
  - rewrite div_4096.
    destruct (digits64 cp) as [E1 L1]. destruct (digits64 (cp / 64)) as [E2 L2].
    revert E1 L1 E2 L2.
    generalize (cp / 64 / 64) (cp / 64 mod 64). intros q2 r2.
    generalize (cp / 64) (cp mod 64). intros q1 r1 E1 L1 E2 L2.
    rewrite code_points_3; try lia.
    + f_equal. lia.
    + destruct (N.eqb_spec (0xE0 + q2) 0xE0); lia.
    + destruct (N.eqb_spec (0xE0 + q2) 0xED); lia.
  - rewrite div_262144, div_4096.
    destruct (digits64 cp) as [E1 L1]. destruct (digits64 (cp / 64)) as [E2 L2].
    destruct (digits64 (cp / 64 / 64)) as [E3 L3].
    revert E1 L1 E2 L2 E3 L3.
    generalize (cp / 64 / 64 / 64) (cp / 64 / 64 mod 64). intros q3 r3.
    generalize (cp / 64 / 64) (cp / 64 mod 64). intros q2 r2.
    generalize (cp / 64) (cp mod 64). intros q1 r1 E1 L1 E2 L2 E3 L3.
    rewrite code_points_4; try lia.
    + f_equal. lia.
    + destruct (N.eqb_spec (0xF0 + q3) 0xF0); lia.
    + destruct (N.eqb_spec (0xF0 + q3) 0xF4); lia.
Qed.


Lemma utf8_of_code_point_bytes (cp : N) :
  cp < 0x110000 -> Forall (fun b => b < 256) (utf8_of_code_point cp).
Proof.
  intros Hmax. unfold utf8_of_code_point.
  destruct (N.ltb_spec cp 0x80) as [H1|H1];
    [|destruct (N.ltb_spec cp 0x800) as [H2|H2];
      [|destruct (N.ltb_spec cp 0x10000) as [H3|H3]]].
  - repeat constructor. lia.
  - destruct (digits64 cp) as [E L].
    revert E L. generalize (cp / 64) (cp mod 64). intros q r E L.
    repeat constructor; lia.
  - rewrite div_4096.
    destruct (digits64 cp) as [E1 L1]. destruct (digits64 (cp / 64)) as [E2 L2].
    revert E1 L1 E2 L2.
    generalize (cp / 64 / 64) (cp / 64 mod 64). intros q2 r2.
    generalize (cp / 64) (cp mod 64). intros q1 r1 E1 L1 E2 L2.
    repeat constructor; lia.
  - rewrite div_262144, div_4096.
    destruct (digits64 cp) as [E1 L1]. destruct (digits64 (cp / 64)) as [E2 L2].
    destruct (digits64 (cp / 64 / 64)) as [E3 L3].
    revert E1 L1 E2 L2 E3 L3.
    generalize (cp / 64 / 64 / 64) (cp / 64 / 64 mod 64). intros q3 r3.
    generalize (cp / 64 / 64) (cp / 64 mod 64). intros q2 r2.
    generalize (cp / 64) (cp mod 64). intros q1 r1 E1 L1 E2 L2 E3 L3.
    repeat constructor; lia.
Qed.

Lemma surrogate_pair_code_point (h l : N) :
  isHighSurrogate h = true -> isLowSurrogate l = true ->
  forall cp, cp = 0x10000 + (h - 0xD800) * 0x400 + (l - 0xDC00) ->
  0xFFFF < cp /\ cp < 0x110000 /\ utf16_of_code_point cp = [h; l].
Proof.
  unfold isHighSurrogate, isLowSurrogate. intros Hh Hl cp Hcp.
  apply andb_prop in Hh, Hl. destruct Hh as [Hh1 Hh2], Hl as [Hl1 Hl2].
  apply N.leb_le in Hh1, Hh2, Hl1, Hl2.
  repeat split; [lia | lia |].
  unfold utf16_of_code_point.
  rewrite (proj2 (N.ltb_ge cp 0x10000)) by lia.
  assert (E : cp - 0x10000 = (h - 0xD800) * 0x400 + (l - 0xDC00)) by lia.
  rewrite E, N.div_add_l by discriminate.
  rewrite N.add_comm with (n := (h - 0xD800) * 0x400), N.Div0.mod_add.
  rewrite N.div_small, N.mod_small by lia.
  f_equal; [lia | f_equal; lia].
Qed.

(** Two-step induction on a string: a surrogate pair consumes two units. *)
Lemma string_pair_ind (P : jsstring -> Prop) :
  P [] -> (forall u, P [u]) ->
  (forall u v s, P s -> P (v :: s) -> P (u :: v :: s)) ->
  forall s, P s.
Proof.
  intros H0 H1 H2 s.
  enough (H : P s /\ forall u, P (u :: s)) by apply H.
  induction s as [|v s [IH1 IH2]]; split; auto.
Qed.

Lemma utf8_units_bmp (u : N) (r : jsstring) :
  isHighSurrogate u = false -> isLowSurrogate u = false ->
  utf8_units (u :: r) = utf8_of_code_point u ++ utf8_units r.
Proof. intros Hh Hl. cbn [utf8_units]. now rewrite Hh, Hl. Qed.

Lemma utf8_units_pair (u v : N) (r : jsstring) :
  isHighSurrogate u = true -> isLowSurrogate v = true ->
  utf8_units (u :: v :: r)
  = utf8_of_code_point (0x10000 + (u - 0xD800) * 0x400 + (v - 0xDC00)) ++ utf8_units r.
Proof. intros Hh Hl. cbn [utf8_units]. now rewrite Hh, Hl. Qed.

(** How a well-formed string starts. *)
Lemma isWellFormed_cons (u : N) (r : jsstring) :
  isWellFormed (u :: r) = true ->
  (isHighSurrogate u = false /\ isLowSurrogate u = false /\ u < 0x10000
   /\ isWellFormed r = true)
  \/ (exists v r', r = v :: r' /\ isHighSurrogate u = true
                   /\ isLowSurrogate v = true /\ isWellFormed r' = true).
Proof.
  cbn [isWellFormed]. destruct (isHighSurrogate u).
  - destruct r as [|v r']; [discriminate|]. intros W.
    apply andb_prop in W. destruct W as [Hv W]. right. now exists v, r'.
  - destruct (isLowSurrogate u); [discriminate|]. cbn [negb andb]. intros W.
    apply andb_prop in W. destruct W as [Hlt W]. apply N.ltb_lt in Hlt. now left.
Qed.

Lemma utf8_units_bytes (s : jsstring) :
  isWellFormed s = true -> Forall (fun b => b < 256) (utf8_units s).
Proof.
  induction s as [| u | u v s IH1 IH2] using string_pair_ind; intros W.
  - constructor.
  - destruct (isWellFormed_cons _ _ W) as [(Hh & Hl & Hlt & _)|(v & r' & E & _)];
      [|discriminate].
    rewrite utf8_units_bmp by assumption. cbn [utf8_units]. rewrite app_nil_r.
    apply utf8_of_code_point_bytes. lia.
  - destruct (isWellFormed_cons _ _ W) as [(Hh & Hl & Hlt & W')|(v' & r' & E & Hh & Hl & W')].
    + rewrite utf8_units_bmp by assumption.
      apply Forall_app. split; [|now apply IH2].
      apply utf8_of_code_point_bytes. lia.
    + injection E as -> ->. rewrite utf8_units_pair by assumption.
      apply Forall_app. split; [|now apply IH1].
      apply utf8_of_code_point_bytes.
      now apply (surrogate_pair_code_point u v' Hh Hl _ eq_refl).
Qed.

Lemma code_points_of_units (s : jsstring) :
  isWellFormed s = true ->
  flat_map utf16_of_code_point (utf8_code_points (utf8_units s)) = s.
Proof.
  assert (bmp : forall u rest, isHighSurrogate u = false -> isLowSurrogate u = false ->
                u < 0x10000 ->
                flat_map utf16_of_code_point
                  (utf8_code_points (utf8_of_code_point u ++ rest))
                = u :: flat_map utf16_of_code_point (utf8_code_points rest)).
  { intros u rest Hh Hl Hlt. unfold isHighSurrogate, isLowSurrogate in *.
    rewrite code_points_of_code_point.
    - cbn [flat_map]. unfold utf16_of_code_point.
      now rewrite (proj2 (N.ltb_lt _ _) Hlt).
    - lia.
    - apply andb_false_iff in Hh, Hl.
      destruct Hh as [Hh|Hh], Hl as [Hl|Hl];
        apply N.leb_gt in Hh; apply N.leb_gt in Hl; lia. }
  induction s as [| u | u v s IH1 IH2] using string_pair_ind; intros W.
  - reflexivity.
  - destruct (isWellFormed_cons _ _ W) as [(Hh & Hl & Hlt & _)|(v & r' & E & _)];
      [|discriminate].
    rewrite utf8_units_bmp by assumption. now rewrite bmp.
  - destruct (isWellFormed_cons _ _ W) as [(Hh & Hl & Hlt & W')|(v' & r' & E & Hh & Hl & W')].
    + rewrite utf8_units_bmp, bmp by assumption. now rewrite IH2.
    + injection E as -> ->. rewrite utf8_units_pair by assumption.
      destruct (surrogate_pair_code_point u v' Hh Hl _ eq_refl) as (Hlo & Hhi & E).
      rewrite code_points_of_code_point by lia.
      cbn [flat_map app]. rewrite E, IH1 by assumption. reflexivity.
Qed.

Lemma to_N_of_bytes (l : list N) :
  Forall (fun b => b < 256) l -> map Byte.to_N (map byte_of_N l) = l.
Proof.
  induction 1 as [|b l Hb _ IH]; [reflexivity|].
  cbn [map]. now rewrite to_N_byte_of_N, IH.
Qed.

(** [Buffer.from(s, 'utf8').toString('utf8') === s] for a well-formed [s]. *)
Lemma to_utf8_from_utf8 (s : jsstring) :
  isWellFormed s = true -> to_utf8 (from_utf8 s) = s.
Proof.
  intros W. unfold to_utf8, from_utf8.
  rewrite to_N_of_bytes by now apply utf8_units_bytes.
  now apply code_points_of_units.
Qed.


Lemma hexValue_of_digit (c : N) : isHexDigit c = true -> exists x, hexValue c = Some x.
Proof.
  unfold isHexDigit, hexValue. intros H.
  destruct ((48 <=? c) && (c <=? 57)); [eauto|].
  destruct ((97 <=? c) && (c <=? 102)); [eauto|].
  destruct ((65 <=? c) && (c <=? 70)); [eauto|discriminate].
Qed.

Lemma from_hex_length (s : jsstring) :
  forallb isHexDigit s = true -> length (from_hex s) = Nat.div2 (length s).
Proof.
  induction s as [| u | u v s IH1 IH2] using string_pair_ind; intros H.
  - reflexivity.
  - reflexivity.
  - cbn [forallb] in H. apply andb_prop in H. destruct H as [Hu H].
    apply andb_prop in H. destruct H as [Hv H].
    destruct (hexValue_of_digit u Hu) as [x Ex].
    destruct (hexValue_of_digit v Hv) as [y Ey].
    cbn [from_hex length Nat.div2]. rewrite Ex, Ey. cbn [length].
    now rewrite IH1.
Qed.

(** A key that passes the format check decodes to 32 bytes. *)
Lemma from_hex_key (key : jsstring) : isHex64 key = true -> length (from_hex key) = 32%nat.
Proof.
  unfold isHex64. intros H. apply andb_prop in H. destruct H as [L H].
  apply Nat.eqb_eq in L. rewrite from_hex_length, L by assumption. reflexivity.
Qed.

End BufferFacts.

Module JSFacts.

Lemma eqb_eq (a b : jsstring) : eqb a b = true <-> a = b.
Proof.
  revert b. induction a as [|x a IH]; intros [|y b]; cbn [eqb]; split;
    try discriminate; try reflexivity.
  - intros H. apply andb_prop in H. destruct H as [H1 H2].
    apply N.eqb_eq in H1. apply IH in H2. now subst.
  - intros H. injection H as -> ->. rewrite N.eqb_refl. now apply IH.
Qed.

Lemma eqb_refl (a : jsstring) : eqb a a = true.
Proof. now apply eqb_eq. Qed.

Lemma eqb_neq (a b : jsstring) : eqb a b = false <-> a <> b.
Proof.
  split.
  - intros H E. apply eqb_eq in E. congruence.
  - intros H. destruct (eqb a b) eqn:E; [|reflexivity]. apply eqb_eq in E. contradiction.
Qed.

End JSFacts.

Module SecretBoxFacts.
Import RotateKey RotationOutcome BufferFacts JSFacts.

Section Cipher.

Context (nacl : Nacl) (env : Environment).

Lemma nonce_at_length (w : World) : length (nonce_at env w) = 24%nat.
Proof. unfold nonce_at. now rewrite length_map, length_seq. Qed.

(** [encrypt] is: draw a nonce, seal, prefix the nonce, print as hex. *)
Lemma encrypt_unfold (box : SecretBox) (message : jsstring) (w : World) :
  encrypt nacl env box message w
  = match secretbox nacl (from_utf8 message) (nonce_at env w) (secretKey box) with
    | Return sealed => (Return (to_hex (nonce_at env w ++ sealed)), after_draw 24 w)
    | Throw m => (Throw m, after_draw 24 w)
    end.
Proof.
  unfold encrypt, bind, randomBytes, lift, ret, nonce_at, after_draw.
  now destruct (secretbox nacl _ _ _).
Qed.

Lemma slice_prefix (n : nat) (a b : bytes) : length a = n -> firstn n (a ++ b) = a.
Proof.
  intros <-. now rewrite firstn_app, firstn_all, Nat.sub_diag, firstn_O, app_nil_r.
Qed.

Lemma slice_suffix (n : nat) (a b : bytes) : length a = n -> skipn n (a ++ b) = b.
Proof.
  intros <-. now rewrite skipn_app, skipn_all, Nat.sub_diag, skipn_O.
Qed.

(** [decrypt] of a hex blob made of a 24-byte nonce and a sealed box hands
    exactly these two to the primitive. *)
Lemma decrypt_blob (box : SecretBox) (nonce sealed : bytes) :
  length nonce = 24%nat ->
  decrypt nacl box (to_hex (nonce ++ sealed))
  = match secretbox_open nacl sealed nonce (secretKey box) with
    | Throw m => Throw m
    | Return None => Throw (lit "Decryption failed - wrong key or corrupted data")
    | Return (Some decrypted) => Return (to_utf8 decrypted)
    end.
Proof.
  intros L. unfold decrypt, slice_to, slice_from, NONCE_BYTES.
  rewrite from_hex_to_hex, (slice_prefix _ _ _ L), (slice_suffix _ _ _ L).
  reflexivity.
Qed.

(** Sealing under a 32-byte key, then opening under the same key: the text
    comes back through the UTF-8 codec. *)
Lemma encrypt_decrypt_codec (box : SecretBox) (message : jsstring) (w : World) :
  NaclLaws nacl -> length (secretKey box) = 32%nat ->
  exists hex,
    encrypt nacl env box message w = (Return hex, after_draw 24 w)
    /\ decrypt nacl box hex = Return (to_utf8 (from_utf8 message)).
Proof.
  intros Laws Lk. rewrite encrypt_unfold.
  destruct (secretbox_returns nacl Laws (from_utf8 message) (nonce_at env w) (secretKey box)
              (nonce_at_length w) Lk) as [sealed E].
  rewrite E. eexists. split; [reflexivity|].
  rewrite decrypt_blob by apply nonce_at_length.
  now rewrite (open_secretbox nacl Laws _ _ _ _ (nonce_at_length w) Lk E).
Qed.


(** C1 (as amended): for every plaintext without an unpaired surrogate and
    every key of 64 hex characters, whatever nonce the random source gives,
    [encrypt] returns a blob that [decrypt] under the same key turns back
    into the plaintext. *)
Theorem round_trip_well_formed (key plain : jsstring) (w : World) :
  NaclLaws nacl -> isHex64 key = true -> isWellFormed plain = true ->
  exists hex w',
    encrypt nacl env (new_SecretBox key) plain w = (Return hex, w')
    /\ decrypt nacl (new_SecretBox key) hex = Return plain.
Proof.
  intros Laws Hk Wf.
  destruct (encrypt_decrypt_codec (new_SecretBox key) plain w Laws (from_hex_key key Hk))
    as (hex & E & D).
  exists hex, (after_draw 24 w). split; [exact E|].
  now rewrite D, to_utf8_from_utf8.
Qed.

(** [decrypt] returns a text only when the primitive opened the box, and
    then the text is what the primitive gave. *)
Lemma decrypt_returns_opened (box : SecretBox) (hex text : jsstring) :
  decrypt nacl box hex = Return text ->
  exists opened,
    secretbox_open nacl (slice_from NONCE_BYTES (from_hex hex))
      (slice_to NONCE_BYTES (from_hex hex)) (secretKey box) = Return (Some opened)
    /\ text = to_utf8 opened.
Proof.
  unfold decrypt.
  destruct (secretbox_open nacl _ _ _) as [[opened|]|m]; try discriminate.
  intros E. injection E as <-. now exists opened.
Qed.


(** C3: when either key fails the 64-hex-character check the run throws the
    key-format error and the world is exactly as before: no client call, no
    random byte drawn, no row touched; the primitive is never consulted. *)
Theorem invalid_key_rejected_first (oldKey newKey : jsstring) (w : World) :
  isHex64 oldKey = false \/ isHex64 newKey = false ->
  exists message,
    rotateEncryptionKey nacl env oldKey newKey w = (Throw message, w)
    /\ (message = lit "OLD_KEY must be 64 hex characters"
        \/ message = lit "NEW_KEY must be 64 hex characters").
Proof.
  intros H. unfold rotateEncryptionKey.
  destruct (isHex64 oldKey) eqn:Eo; cbn [negb].
  - destruct H as [H|H]; [discriminate|]. rewrite H. cbn [negb].
    eexists. split; [reflexivity|]. now right.
  - eexists. split; [reflexivity|]. now left.
Qed.

End Cipher.

End SecretBoxFacts.

Module FixtureFacts.
Import RotateKey Fixtures.

Lemma bytes_eqb_eq (a b : bytes) : bytes_eqb a b = true <-> a = b.
Proof.
  revert b. induction a as [|x a IH]; intros [|y b]; cbn [bytes_eqb]; split;
    try discriminate; try reflexivity.
  - intros H. apply andb_prop in H. destruct H as [H1 H2].
    apply Byte.byte_dec_bl in H1. apply IH in H2. now subst.
  - intros H. injection H as -> ->. rewrite Byte.byte_dec_lb by reflexivity. now apply IH.
Qed.

Lemma keyed_box_laws : NaclLaws keyed_box.
Proof.
  split; cbn [secretbox secretbox_open keyed_box]; unfold checkLengths.
  - intros msg nonce key Ln Lk. rewrite Ln, Lk. cbn [Nat.eqb negb]. eauto.
  - intros msg nonce key box Ln Lk. rewrite Ln, Lk. cbn [Nat.eqb negb].
    intros E. injection E as <-.
    rewrite SecretBoxFacts.slice_prefix, SecretBoxFacts.slice_suffix by assumption.
    now rewrite (proj2 (bytes_eqb_eq key key) eq_refl).
Qed.


End FixtureFacts.

Module RotationFacts.
Import RotateKey RotationOutcome JSFacts SecretBoxFacts.

(** *** Updates by alias *)

Lemma set_hex_alias (hex target : jsstring) (r : PrivateKeyRow) :
  alias (set_hex hex target r) = alias r.
Proof. unfold set_hex. now destruct (eqb (alias r) target). Qed.

Lemma set_hex_own (hex : jsstring) (r : PrivateKeyRow) :
  set_hex hex (alias r) r
  = {| alias := alias r; key_type := key_type r; privateKeyHex := hex |}.
Proof. unfold set_hex. now rewrite eqb_refl. Qed.

Lemma set_hex_other (hex target : jsstring) (r : PrivateKeyRow) :
  alias r <> target -> set_hex hex target r = r.
Proof. intros H. unfold set_hex. now rewrite (proj2 (eqb_neq _ _) H). Qed.

(** Updates aimed at other aliases leave a row alone. *)
Lemma updates_miss (ups : list (jsstring * jsstring)) (r : PrivateKeyRow) :
  ~ In (alias r) (map fst ups) -> fold_left apply_update ups r = r.
Proof.
  induction ups as [|u ups IH]; intros H; [reflexivity|].
  cbn [fold_left]. unfold apply_update at 2.
  rewrite set_hex_other.
  - apply IH. intros E. apply H. now right.
  - intros E. apply H. now left.
Qed.

Lemma updates_target (rows : list PrivateKeyRow) : forall outs,
  incl (map fst (flat_map update_of (combine rows outs))) (map alias rows).
Proof.
  induction rows as [|r rows IH]; intros [|o outs] a; cbn [combine flat_map map];
    try contradiction.
  rewrite map_app, in_app_iff. intros [H|H].
  - left. unfold update_of in H. cbn [fst snd] in H.
    destruct o; cbn [map] in H; [|contradiction].
    destruct H as [H|[]]. exact H.
  - right. exact (IH outs a H).
Qed.

(** With unique aliases, the updates of a run settle each row by its own
    outcome. *)
Lemma updates_settle (rows : list PrivateKeyRow) : forall outs,
  NoDup (map alias rows) -> length outs = length rows ->
  map (fold_left apply_update (flat_map update_of (combine rows outs))) rows
  = map settle (combine rows outs).
Proof.
  induction rows as [|r rows IH]; intros [|o outs] ND L; try discriminate; [reflexivity|].
  cbn [map] in ND. apply NoDup_cons_iff in ND. destruct ND as [Hr ND].
  cbn [combine flat_map map]. f_equal.
  - rewrite fold_left_app.
    assert (E : fold_left apply_update (update_of (r, o)) r = settle (r, o)).
    { unfold update_of, settle. cbn [fst snd]. destruct o; [|reflexivity].
      cbn [fold_left]. unfold apply_update. cbn [fst snd]. apply set_hex_own. }
    rewrite E. apply updates_miss.
    intros H. apply updates_target in H. apply Hr.
    replace (alias (settle (r, o))) with (alias r) in H; [exact H|].
    unfold settle. cbn [fst snd]. now destruct o.
  - rewrite <- IH by (try assumption; now injection L).
    apply map_ext_in. intros r' Hr'. rewrite fold_left_app. f_equal.
    unfold update_of. cbn [fst snd]. destruct o; [|reflexivity].
    cbn [fold_left]. unfold apply_update. cbn [fst snd]. apply set_hex_other.
    intros E. apply Hr. rewrite <- E. now apply in_map.
Qed.

Section Loop.

Context (nacl : Nacl) (env : Environment) (oldBox newBox : SecretBox).

(** One record: its outcome is justified, and the table changes by its own
    update only. *)
Lemma rotate_row_outcome (row : PrivateKeyRow) (w : World) :
  exists o w',
    rotate_row nacl env oldBox newBox row w = (completes o, w')
    /\ justified nacl oldBox newBox row o
    /\ private_key w' = map (fold_left apply_update (update_of (row, o))) (private_key w)
    /\ reported w' = reported w.
Proof.
  unfold rotate_row, bind, lift.
  destruct (decrypt nacl oldBox (privateKeyHex row)) as [plain|m] eqn:D.
  2:{ exists (Failed m), w. repeat split; cbn [completes justified update_of snd fold_left].
      - intros m' E. congruence.
      - now rewrite map_id. }
  rewrite encrypt_unfold.
  destruct (secretbox nacl (from_utf8 plain) (nonce_at env w) (secretKey newBox))
    as [sealed|m] eqn:S.
  2:{ exists (Failed m), (after_draw 24 w).
      repeat split; cbn [completes justified update_of snd fold_left after_draw private_key reported].
      - intros m' E. congruence.
      - now rewrite map_id. }
  destruct (decrypt nacl newBox (to_hex (nonce_at env w ++ sealed))) as [verify|m] eqn:V.
  2:{ exists (Failed m), (after_draw 24 w).
      repeat split; cbn [completes justified update_of snd fold_left after_draw private_key reported].
      - intros m' E. congruence.
      - now rewrite map_id. }
  destruct (eqb verify plain) eqn:Q; cbn [negb].
  2:{ exists (Failed (lit "Verification failed - encryption round-trip mismatch")),
        (after_draw 24 w).
      repeat split; cbn [completes justified update_of snd fold_left after_draw private_key reported].
      - intros m' E. congruence.
      - now rewrite map_id. }
  apply eqb_eq in Q. subst verify.
  unfold client_update.
  destruct (update_error env (to_hex (nonce_at env w ++ sealed)) (alias row)) as [m|] eqn:U.
  - eexists (Failed m), _.
    repeat split; cbn [completes justified update_of snd fold_left after_draw called private_key reported].
    + intros m' E. congruence.
    + now rewrite map_id.
  - eexists (Rotated (to_hex (nonce_at env w ++ sealed))), _.
    repeat split; cbn [completes justified update_of fst snd fold_left after_draw called private_key reported].
    exists plain. now split.
Qed.

(** The loop never throws; it settles the records one by one, and what
    holds of every completion of a record's [try] block holds of every
    outcome. *)
Lemma rotate_rows_outcomes_with (P : PrivateKeyRow -> Outcome -> Prop)
  (step : forall row w o w',
     rotate_row nacl env oldBox newBox row w = (completes o, w') -> P row o)
  (rows : list PrivateKeyRow) : forall t w,
  exists outs t' w',
    rotate_rows nacl env oldBox newBox rows t w = (Return t', w')
    /\ Forall2 (justified nacl oldBox newBox) rows outs
    /\ Forall2 P rows outs
    /\ private_key w'
       = map (fold_left apply_update (flat_map update_of (combine rows outs))) (private_key w)
    /\ reported w' = reported w
    /\ errors t' = errors t ++ flat_map failure (combine rows outs)
    /\ successCount t' = (successCount t + count isRotated outs)%nat
    /\ errorCount t' = (errorCount t + count isFailed outs)%nat.
Proof.
  induction rows as [|row rows IH]; intros t w.
  - exists [], t, w. cbn [rotate_rows combine flat_map fold_left]. unfold ret, count.
    cbn [filter length]. rewrite map_id, app_nil_r, !Nat.add_0_r.
    repeat split; constructor.
  - cbn [rotate_rows]. unfold bind at 1. unfold try_catch, bind at 1.
    destruct (rotate_row_outcome row w) as (o & w1 & E & J & T & R).
    pose proof (step row w o w1 E) as Po. rewrite E.
    destruct o as [hex|reason]; cbn [completes]; unfold ret at 1.
    + destruct (IH {| successCount := S (successCount t); errorCount := errorCount t;
                      errors := errors t |} w1)
        as (outs & t' & w' & E' & J' & P' & T' & R' & Er & Sc & Ec).
      exists (Rotated hex :: outs), t', w'. rewrite E'.
      cbn [errors successCount errorCount] in Er, Sc, Ec.
      repeat split.
      * now constructor.
      * now constructor.
      * rewrite T', T, map_map. apply map_ext. intros r.
        cbn [combine flat_map]. now rewrite fold_left_app.
      * congruence.
      * exact Er.
      * rewrite Sc. unfold count. cbn [filter isRotated length]. lia.
      * rewrite Ec. unfold count. cbn [filter isFailed isRotated negb length]. lia.
    + destruct (IH {| successCount := successCount t; errorCount := S (errorCount t);
                      errors := errors t ++ [(shortAlias (alias row), reason)] |} w1)
        as (outs & t' & w' & E' & J' & P' & T' & R' & Er & Sc & Ec).
      exists (Failed reason :: outs), t', w'. rewrite E'.
      cbn [errors successCount errorCount] in Er, Sc, Ec.
      repeat split.
      * now constructor.
      * now constructor.
      * rewrite T', T, map_map. apply map_ext. intros r.
        cbn [combine flat_map]. now rewrite fold_left_app.
      * congruence.
      * rewrite Er. cbn [combine flat_map]. unfold failure at 2. cbn [fst snd].
        now rewrite <- app_assoc.
      * rewrite Sc. unfold count. cbn [filter isRotated length]. lia.
      * rewrite Ec. unfold count. cbn [filter isFailed isRotated negb length]. lia.
Qed.

Lemma rotate_rows_outcomes (rows : list PrivateKeyRow) (t : Tally) (w : World) :
  exists outs t' w',
    rotate_rows nacl env oldBox newBox rows t w = (Return t', w')
    /\ Forall2 (justified nacl oldBox newBox) rows outs
    /\ private_key w'
       = map (fold_left apply_update (flat_map update_of (combine rows outs))) (private_key w)
    /\ reported w' = reported w
    /\ errors t' = errors t ++ flat_map failure (combine rows outs)
    /\ successCount t' = (successCount t + count isRotated outs)%nat
    /\ errorCount t' = (errorCount t + count isFailed outs)%nat.
Proof.
  destruct (rotate_rows_outcomes_with (fun _ _ => True) (fun _ _ _ _ _ => I) rows t w)
    as (outs & t' & w' & E & J & _ & H).
  now exists outs, t', w'.
Qed.

End Loop.

End RotationFacts.

Module RotationTheorems.
Import RotateKey RotationOutcome JSFacts SecretBoxFacts RotationFacts.

Lemma count_split (outs : list Outcome) :
  (count isRotated outs + count isFailed outs = length outs)%nat.
Proof.
  unfold count, isFailed. induction outs as [|o outs IH]; [reflexivity|].
  cbn [filter]. destruct (isRotated o); cbn [negb length]; lia.
Qed.

Lemma justified_member {nacl oldBox newBox} (rows : list PrivateKeyRow) (outs : list Outcome) :
  Forall2 (justified nacl oldBox newBox) rows outs ->
  forall R, In R rows ->
  exists o, In (R, o) (combine rows outs) /\ justified nacl oldBox newBox R o.
Proof.
  induction 1 as [|r o rows outs J _ IH]; intros R HR; [contradiction|].
  destruct HR as [->|HR].
  - exists o. split; [now left | exact J].
  - destruct (IH R HR) as (o' & Hin & J'). exists o'. split; [now right | exact J'].
Qed.

Section Run.

Context (nacl : Nacl) (env : Environment).

Lemma rotateEncryptionKey_valid (oldKey newKey : jsstring) (w : World) :
  isHex64 oldKey = true -> isHex64 newKey = true ->
  rotateEncryptionKey nacl env oldKey newKey w
  = try_finally (session nacl env oldKey newKey) (client_end env) w.
Proof. intros Ho Hn. unfold rotateEncryptionKey. now rewrite Ho, Hn. Qed.

(** [finally] closes the session and keeps the world of the body; only a
    failing [end()] changes the outcome. *)
Lemma try_finally_end {A} (body : M World A) (w : World) :
  try_finally body (client_end env) w
  = (match end_error env with
     | Some m => Throw m
     | None => fst (body w)
     end, called End_ (snd (body w))).
Proof.
  unfold try_finally, client_end, fail_with.
  destruct (body w) as [r w']. cbn [fst snd]. now destruct (end_error env).
Qed.

(** The session, once the loop has run over a non-empty table. *)
Lemma session_after_loop (oldKey newKey : jsstring) (w : World) (t : Tally) (w1 : World) :
  connect_error env = None -> select_error env = None -> private_key w <> [] ->
  rotate_rows nacl env (new_SecretBox oldKey) (new_SecretBox newKey)
    (private_key w) tally0 (called SelectPrivateKeys (called Connect w)) = (Return t, w1) ->
  session nacl env oldKey newKey w
  = (if (0 <? errorCount t)%nat
     then Throw (numberToString (Z.of_nat (errorCount t)) ++ lit " key(s) failed to rotate")
     else Return {| Types.RotateKeyResult.success := successCount t;
                    Types.RotateKeyResult.errors := errorCount t |},
     reporting (errors t) w1).
Proof.
  intros Hc Hs Hne Loop.
  unfold session, bind, client_connect, client_select, fail_with. rewrite Hc, Hs.
  cbn [called private_key].
  destruct (private_key w) as [|r rows] eqn:E; [contradiction|].
  cbn [length Nat.eqb]. rewrite Loop.
  unfold print_errors, reporting. now destruct (0 <? errorCount t)%nat.
Qed.

(** Whatever the session returns carries no error. *)
Lemma session_returns_clean (oldKey newKey : jsstring) (w : World) :
  forall r w', session nacl env oldKey newKey w = (Return r, w') ->
               Types.RotateKeyResult.errors r = 0%nat.
Proof.
  intros r w'. unfold session, bind, client_connect, client_select, fail_with.
  destruct (connect_error env); [discriminate|].
  destruct (select_error env); [discriminate|].
  cbn [called private_key].
  destruct (length (private_key w) =? 0)%nat.
  - unfold ret. intros E. now injection E as <- _.
  - destruct (rotate_rows_outcomes nacl env (new_SecretBox oldKey) (new_SecretBox newKey)
                (private_key w) tally0 (called SelectPrivateKeys (called Connect w)))
      as (outs & t & w1 & E & _). rewrite E. unfold print_errors.
    destruct (0 <? errorCount t)%nat eqn:Z; unfold throw, ret; [discriminate|].
    intros R. injection R as <- _. cbn [Types.RotateKeyResult.errors].
    apply Nat.ltb_ge in Z. lia.
Qed.

(** C10: a result the caller receives carries [errors = 0]; on an empty
    table the run returns [{success: 0, errors: 0}] after connect, fetch
    and end, with no update; and a run whose loop counted an error throws
    once every record was processed, the updates of the loop still in the
    table. *)
Theorem no_result_with_errors (oldKey newKey : jsstring) (w : World) :
  (forall r w',
     rotateEncryptionKey nacl env oldKey newKey w = (Return r, w') ->
     Types.RotateKeyResult.errors r = 0%nat)
  /\ (isHex64 oldKey = true -> isHex64 newKey = true ->
      connect_error env = None -> select_error env = None -> end_error env = None ->
      private_key w = [] ->
      rotateEncryptionKey nacl env oldKey newKey w
      = (Return {| Types.RotateKeyResult.success := 0; Types.RotateKeyResult.errors := 0 |},
         {| private_key := [];
            calls := calls w ++ [Connect; SelectPrivateKeys; End_];
            drawn := drawn w; reported := reported w |}))
  /\ (isHex64 oldKey = true -> isHex64 newKey = true ->
      connect_error env = None -> select_error env = None ->
      private_key w <> [] ->
      exists t w1,
        rotate_rows nacl env (new_SecretBox oldKey) (new_SecretBox newKey)
          (private_key w) tally0 (called SelectPrivateKeys (called Connect w)) = (Return t, w1)
        /\ (successCount t + errorCount t = length (private_key w))%nat
        /\ ((0 < errorCount t)%nat ->
            exists message w',
              rotateEncryptionKey nacl env oldKey newKey w = (Throw message, w')
              /\ private_key w' = private_key w1)).
Proof.
  split; [|split].
  - intros r w'. unfold rotateEncryptionKey.
    destruct (isHex64 oldKey); [|discriminate].
    destruct (isHex64 newKey); [|discriminate]. cbn [negb].
    rewrite try_finally_end.
    destruct (end_error env); [discriminate|].
    destruct (session nacl env oldKey newKey w) as [r0 w0] eqn:E. cbn [fst snd].
    intros R. injection R as -> _. exact (session_returns_clean _ _ _ _ _ E).
  - intros Ho Hn Hc Hs He Hw.
    rewrite rotateEncryptionKey_valid, try_finally_end by assumption. rewrite He.
    unfold session, bind, client_connect, client_select, fail_with. rewrite Hc, Hs.
    cbn [called private_key calls drawn reported]. rewrite Hw. cbn [length Nat.eqb].
    unfold ret, called. cbn [fst snd private_key calls drawn reported].
    rewrite Hw. now rewrite <- !app_assoc.
  - intros Ho Hn Hc Hs Hw.
    destruct (rotate_rows_outcomes nacl env (new_SecretBox oldKey) (new_SecretBox newKey)
                (private_key w) tally0 (called SelectPrivateKeys (called Connect w)))
      as (outs & t & w1 & E & J & _ & _ & _ & Sc & Ec).
    exists t, w1. split; [exact E|]. split.
    + cbn [tally0 successCount errorCount Nat.add] in Sc, Ec.
      rewrite Sc, Ec, count_split. symmetry. eapply Forall2_length. eassumption.
    + intros Pos. rewrite rotateEncryptionKey_valid, try_finally_end by assumption.
      rewrite (session_after_loop oldKey newKey w t w1 Hc Hs Hw E).
      rewrite (proj2 (Nat.ltb_lt _ _) Pos). cbn [fst snd].
      destruct (end_error env); eexists _, _; (split; [reflexivity|]); reflexivity.
Qed.

End Run.

End RotationTheorems.

Module RestoreFacts.
Import BackupRestore Replies.

Section Player.

Context (server : Server).

(** The loop never throws: it sends every statement, in order, whatever the
    earlier ones answered, and counts the answers. *)
Lemma replay_continues (statements : list jsstring) : forall successCount errorCount s,
  replay server statements successCount errorCount s
  = (Return ((successCount + length (filter succeeded (fst (answers server (db server s) statements))))%nat,
             (errorCount + length (filter counted (fst (answers server (db server s) statements))))%nat),
     {| db := snd (answers server (db server s) statements);
        sent := sent server s ++ statements |}).
Proof.
  induction statements as [|stmt rest IH]; intros sc ec s.
  - cbn [replay answers fst snd filter length]. unfold ret.
    rewrite !Nat.add_0_r, app_nil_r. now destruct s.
  - cbn [replay answers]. unfold bind at 1, try_catch, bind at 1, client_query.
    destruct (query server (db server s) stmt) as [d [m|]] eqn:Q;
      destruct (answers server d rest) as [replies final] eqn:A;
      cbn [fst snd filter succeeded counted length].
    + rewrite <- negb_orb.
      destruct (negb (includes m (lit "already exists") || includes m (lit "duplicate key")));
        unfold ret; rewrite IH; cbn [db sent fst snd]; rewrite A; cbn [fst snd length];
        rewrite <- app_assoc; cbn [app]; rewrite ?Nat.add_succ_r, ?Nat.add_succ_l;
        reflexivity.
    + unfold ret. rewrite IH. cbn [db sent fst snd]. rewrite A. cbn [fst snd length].
      rewrite <- app_assoc. cbn [app]. rewrite ?Nat.add_succ_r, ?Nat.add_succ_l.
      reflexivity.
Qed.

(** The [if (drop)] block sends no statement of the file; when it throws,
    the message is that of [adminClient.end()], or carries the prefix. *)
Lemma recreate_keeps_sent (renv : RestoreEnv) (s : Session server)
  (r : completion unit) (s0 : Session server) :
  recreate_database server renv s = (r, s0) ->
  sent server s0 = sent server s
  /\ forall m, r = Throw m ->
       (exists e, m = restore_failed e)
       \/ (admin_connect_error renv = None /\ admin_end_error renv = Some m).
Proof.
  unfold recreate_database. destruct (admin_connect_error renv) as [e|].
  { unfold throw. intros E. injection E as <- <-. split; [reflexivity|].
    intros m E. injection E as <-. left. now exists e. }
  unfold try_catch, bind, admin_queries, admin_end, throw.
  destruct (recreate server (db server s)) as [d [e|]];
    destruct (admin_end_error renv) as [e'|];
    intros E; injection E as <- <-; (split; [reflexivity|]); intros m E;
    try discriminate; injection E as <-; eauto.
Qed.

(** What [restoreDatabase] returns whenever it returns: the success flag is
    set, and the two counts are those of the replay loop. *)
Lemma restore_returns (renv : RestoreEnv) (inputPath : jsstring) (drop : bool)
  (s : Session server) (r : Types.RestoreResult.t) (s' : Session server) :
  restoreDatabase server renv inputPath drop s = (Return r, s') ->
  Types.RestoreResult.success r = true
  /\ exists content s0,
       input_file renv = Some content
       /\ sent server s0 = sent server s
       /\ Types.RestoreResult.statements r
          = Some (length (filter succeeded
                            (fst (answers server (db server s0) (parseStatements content)))))
       /\ Types.RestoreResult.errors r
          = Some (length (filter counted
                            (fst (answers server (db server s0) (parseStatements content)))))
       /\ sent server s' = sent server s ++ parseStatements content.
Proof.
  unfold restoreDatabase.
  destruct (input_file renv) as [content|]; [|discriminate].
  unfold bind at 1.
  destruct ((if drop then recreate_database server renv else ret tt) s) as [[u|m] s0] eqn:D;
    [|discriminate].
  assert (S0 : sent server s0 = sent server s).
  { destruct drop.
    - exact (proj1 (recreate_keeps_sent renv s _ s0 D)).
    - unfold ret in D. now injection D as _ <-. }
  destruct (connect_error renv); [discriminate|].
  unfold bind. rewrite replay_continues. cbn [fst snd].
  destruct (end_error renv); [discriminate|]. unfold ret.
  intros E. injection E as <- <-. cbn [Types.RestoreResult.success
    Types.RestoreResult.statements Types.RestoreResult.errors sent].
  split; [reflexivity|]. exists content, s0. rewrite S0. now repeat split.
Qed.

(** With the file in place and the session opened and closed without
    fault, a restore without [drop] runs to its end and returns, however
    many statements failed. *)
Lemma restore_completes (renv : RestoreEnv) (inputPath content : jsstring)
  (s : Session server) :
  input_file renv = Some content ->
  connect_error renv = None -> end_error renv = None ->
  restoreDatabase server renv inputPath false s
  = (Return
       {| Types.RestoreResult.success := true;
          Types.RestoreResult.statements :=
            Some (length (filter succeeded
                            (fst (answers server (db server s) (parseStatements content)))));
          Types.RestoreResult.errors :=
            Some (length (filter counted
                            (fst (answers server (db server s) (parseStatements content))))) |},
     {| db := snd (answers server (db server s) (parseStatements content));
        sent := sent server s ++ parseStatements content |}).
Proof.
  intros Hi Hc He. unfold restoreDatabase. rewrite Hi, Hc.
  unfold bind, ret. rewrite replay_continues. cbn [fst snd]. now rewrite He.
Qed.

(** C6: a failure whose message contains "already exists" or "duplicate key"
    is not counted, every other failure is; the replay loop sends every
    statement in order whatever the earlier ones answered, adding one to the
    success count for each success and one to the error count for each
    counted failure; a restore that returns has sent the statements of the
    file in file order and returns these two counts; and with the file in
    place and the session opened and closed without fault, a restore
    without [drop] does return, whatever the statements answered. *)
Theorem restore_plays_every_statement :
  (forall m,
     counted (Some m) = false
     <-> includes m (lit "already exists") = true
         \/ includes m (lit "duplicate key") = true)
  /\ (forall statements successCount errorCount s,
        replay server statements successCount errorCount s
        = (Return
             ((successCount
               + length (filter succeeded
                           (fst (answers server (db server s) statements))))%nat,
              (errorCount
               + length (filter counted
                           (fst (answers server (db server s) statements))))%nat),
           {| db := snd (answers server (db server s) statements);
              sent := sent server s ++ statements |}))
  /\ (forall renv inputPath drop s r s',
        restoreDatabase server renv inputPath drop s = (Return r, s') ->
        exists content s0,
          input_file renv = Some content
          /\ sent server s' = sent server s ++ parseStatements content
          /\ Types.RestoreResult.statements r
             = Some (length (filter succeeded
                               (fst (answers server (db server s0)
                                       (parseStatements content)))))
          /\ Types.RestoreResult.errors r
             = Some (length (filter counted
                               (fst (answers server (db server s0)
                                       (parseStatements content))))))
  /\ (forall renv inputPath content s,
        input_file renv = Some content ->
        connect_error renv = None -> end_error renv = None ->
        exists r s',
          restoreDatabase server renv inputPath false s = (Return r, s')
          /\ sent server s' = sent server s ++ parseStatements content).
Proof.
  split; [|split; [|split]].
  - intros m. cbn [counted]. rewrite negb_false_iff. apply orb_true_iff.
  - intros. apply replay_continues.
  - intros renv inputPath drop s r s' E.
    destruct (restore_returns renv inputPath drop s r s' E)
      as (_ & content & s0 & Hi & _ & Hs & He & Hsent).
    now exists content, s0.
  - intros renv inputPath content s Hi Hc He.
    eexists _, _. split; [exact (restore_completes renv _ _ s Hi Hc He)|]. reflexivity.
Qed.

End Player.

End RestoreFacts.

Module TypeMapperFacts.
Import BackupRestore TypeMapperRules JSFacts.

Lemma truthy_length (col : ColumnInfo) :
  character_maximum_length col <> Some 0%Z ->
  (if truthy_number (character_maximum_length col)
   then length_qualifier (character_maximum_length col) else [])
  = optional_length col.
Proof.
  unfold optional_length, truthy_number, length_qualifier.
  destruct (character_maximum_length col) as [n|]; [|reflexivity].
  intros H. destruct (Z.eqb_spec n 0) as [->|]; [contradiction|reflexivity].
Qed.

Lemma varchar_length (col : ColumnInfo) :
  character_maximum_length col <> Some 0%Z ->
  (if truthy_number (character_maximum_length col)
   then lit "VARCHAR" ++ length_qualifier (character_maximum_length col)
   else lit "VARCHAR")
  = lit "VARCHAR" ++ optional_length col.
Proof.
  intros H. rewrite <- (truthy_length col H).
  now destruct (truthy_number (character_maximum_length col)).
Qed.

(** Without a sequence default, [dataType] is the table entry. *)
Lemma dataTypeOf_mapped (col : ColumnInfo) :
  character_maximum_length col <> Some 0%Z ->
  auto_increment col = false -> dataTypeOf col = mapped_type col.
Proof.
  intros Hl Ha. unfold dataTypeOf, mapped_type.
  replace (truthy_string (column_default col)
           && includes_opt (column_default col) (lit "nextval")) with false.
  - rewrite varchar_length, truthy_length by assumption. reflexivity.
  - unfold auto_increment in Ha. unfold includes_opt.
    destruct (column_default col); [|reflexivity]. rewrite Ha. now rewrite andb_false_r.
Qed.

Lemma ends_with_paren (x y : jsstring) : x ++ lit "(" ++ y ++ lit ")" <> lit "SERIAL".
Proof.
  change (lit "SERIAL") with (lit "SERIA" ++ [76]).
  change (lit ")") with [41].
  rewrite !app_assoc. intros E. apply app_inj_tail in E. destruct E as [_ E]. discriminate.
Qed.

(** No table entry reads SERIAL. *)
Lemma mapped_type_not_serial (col : ColumnInfo) :
  reported_by_catalog col -> eqb (mapped_type col) (lit "SERIAL") = false.
Proof.
  intros [_ _ Ht]. unfold mapped_type.
  repeat match goal with
         | |- context [if ?c then _ else _] => destruct c
         end; try reflexivity.
  apply eqb_neq. unfold optional_length.
  destruct (character_maximum_length col) as [n|].
  - apply ends_with_paren.
  - now rewrite app_nil_r.
Qed.

(** C8: for a column as the catalog reports it, the definition line is the
    one the mapping rules give: SERIAL alone when the default refers to a
    sequence (no DEFAULT, no NOT NULL); otherwise the table entry for
    int4, int8, varchar, text, bool, timestamp, timestamptz, or the
    upper-cased type name, with the length qualifier when a length is
    present, then DEFAULT and the expression verbatim when there is a
    default, then NOT NULL when the column is not nullable. *)
Theorem column_definition_follows_rules (col : ColumnInfo) :
  reported_by_catalog col -> columnDefinition col = column_line col.
Proof.
  intros R. pose proof R as [Hd Hl Ht].
  unfold columnDefinition, column_line.
  destruct (auto_increment col) eqn:Ha.
  - unfold auto_increment in Ha. unfold dataTypeOf, includes_opt, truthy_string.
    destruct (column_default col) as [[|c d]|]; try discriminate; try contradiction.
    rewrite Ha. cbn [andb negb]. rewrite andb_false_r. reflexivity.
  - rewrite dataTypeOf_mapped, mapped_type_not_serial by assumption.
    cbn [negb]. rewrite andb_true_r.
    unfold default_clause, not_null_clause, includes_opt, truthy_string.
    unfold auto_increment in Ha.
    destruct (column_default col) as [[|c d]|]; [contradiction| |].
    + rewrite Ha. cbn [negb andb].
      destruct (eqb (is_nullable col) (lit "NO")); now rewrite <- ?app_assoc, ?app_nil_r.
    + cbn [andb].
      destruct (eqb (is_nullable col) (lit "NO")); now rewrite <- ?app_assoc, ?app_nil_r.
Qed.

End TypeMapperFacts.

Module BatchTheorems.
Import RotateKey RotationOutcome BackupRestore Replies.
Import SecretBoxFacts RotationFacts RotationTheorems RestoreFacts.

(** C5 (as amended): a rotation whose loop counted an error throws; with the
    session closed in order the message is the count followed by
    " key(s) failed to rotate".  A restore whose file is in place and whose
    session opens and closes without fault returns [success: true] with
    the number of counted failures in its [errors] field, whatever that
    number is; and every result a restore returns has [success: true]. *)
Theorem aggregate_outcome :
  (forall nacl env oldKey newKey w t w1,
     isHex64 oldKey = true -> isHex64 newKey = true ->
     RotateKey.connect_error env = None -> select_error env = None ->
     private_key w <> [] ->
     rotate_rows nacl env (new_SecretBox oldKey) (new_SecretBox newKey)
       (private_key w) tally0 (called SelectPrivateKeys (called Connect w)) = (Return t, w1) ->
     (0 < errorCount t)%nat ->
     exists message w',
       rotateEncryptionKey nacl env oldKey newKey w = (Throw message, w')
       /\ (RotateKey.end_error env = None ->
           message = numberToString (Z.of_nat (errorCount t))
                     ++ lit " key(s) failed to rotate"))
  /\ (forall server renv inputPath content s,
        input_file renv = Some content ->
        BackupRestore.connect_error renv = None ->
        BackupRestore.end_error renv = None ->
        exists r s',
          restoreDatabase server renv inputPath false s = (Return r, s')
          /\ Types.RestoreResult.success r = true
          /\ Types.RestoreResult.errors r
             = Some (length (filter counted
                               (fst (answers server (db server s)
                                       (parseStatements content))))))
  /\ (forall server renv inputPath drop s r s',
        restoreDatabase server renv inputPath drop s = (Return r, s') ->
        Types.RestoreResult.success r = true
        /\ exists content s0,
             input_file renv = Some content
             /\ Types.RestoreResult.errors r
                = Some (length (filter counted
                                  (fst (answers server (db server s0)
                                          (parseStatements content)))))).
Proof.
  split; [|split].
  - intros nacl env oldKey newKey w t w1 Ho Hn Hc Hs Hw Loop Pos.
    rewrite rotateEncryptionKey_valid, try_finally_end by assumption.
    rewrite (session_after_loop nacl env oldKey newKey w t w1 Hc Hs Hw Loop).
    rewrite (proj2 (Nat.ltb_lt _ _) Pos). cbn [fst snd].
    destruct (RotateKey.end_error env) as [m|]; eexists _, _; (split; [reflexivity|]).
    + discriminate.
    + reflexivity.
  - intros server renv inputPath content s Hi Hc He.
    eexists _, _. split; [exact (restore_completes server renv _ _ s Hi Hc He)|].
    now split.
  - intros server renv inputPath drop s r s' E.
    destruct (restore_returns server renv inputPath drop s r s' E)
      as (Hs & content & s0 & Hi & _ & _ & He & _).
    split; [exact Hs|]. now exists content, s0.
Qed.

End BatchTheorems.

Module WriterFacts.
Import BackupRestore SnapshotText JSFacts.

(** *** Callbacks that may throw *)




Lemma traverse_returned {A B} (f : A -> completion B) (l : list A) : forall ys,
  traverse f l = Return ys -> Forall2 (fun x y => f x = Return y) l ys.
Proof.
  induction l as [|x l IH]; intros ys; cbn [traverse].
  - intros E. injection E as <-. constructor.
  - destruct (f x) as [y|m] eqn:Fx; cbn [and_then]; [|discriminate].
    destruct (traverse f l) as [ys'|m]; cbn [and_then]; [|discriminate].
    intros E. injection E as <-. constructor; [exact Fx | now apply IH].
Qed.

(** *** Numbers *)







(** *** Values and rows *)











(** *** Primary keys *)

Lemma pk_get_push (pks : PrimaryKeyMap) (t' c t : jsstring) :
  pk_get (pk_push pks t' c) t
  = if eqb t' t
    then Some (match pk_get pks t with Some cs => cs ++ [c] | None => [c] end)
    else pk_get pks t.
Proof.
  induction pks as [|[k cs] pks IH]; cbn [pk_push pk_get].
  - destruct (eqb t' t); reflexivity.
  - destruct (eqb k t') eqn:Ek; cbn [pk_get].
    + apply eqb_eq in Ek. subst k. destruct (eqb t' t); reflexivity.
    + destruct (eqb k t) eqn:Ekt.
      * apply eqb_eq in Ekt. subst k. destruct (eqb t' t) eqn:Et; [|reflexivity].
        apply eqb_eq in Et. subst t'. now rewrite eqb_refl in Ek.
      * exact IH.
Qed.

Lemma pk_get_fold (rows : list (jsstring * jsstring)) (t : jsstring) : forall pks,
  pk_get (fold_left (fun pks r => pk_push pks (fst r) (snd r)) rows pks) t
  = match pk_get pks t, key_columns rows t with
    | None, [] => None
    | None, cs => Some cs
    | Some a, cs => Some (a ++ cs)
    end.
Proof.
  unfold key_columns. induction rows as [|[t' c] rows IH]; intros pks.
  - cbn [fold_left filter map]. destruct (pk_get pks t); [now rewrite app_nil_r|reflexivity].
  - cbn [fold_left filter fst snd]. rewrite IH, pk_get_push.
    destruct (eqb t' t); cbn [map].
    + destruct (pk_get pks t); [now rewrite <- app_assoc | reflexivity].
    + reflexivity.
Qed.

Lemma add_key_column_own (pks : PrimaryKeyMap) (r : jsstring * jsstring) :
  array_includes object_prototype_names (fst r) = false ->
  add_key_column pks r = Return (pk_push pks (fst r) (snd r)).
Proof.
  intros H. unfold add_key_column, pk_property. rewrite H.
  now destruct (pk_get pks (fst r)).
Qed.

Lemma getPrimaryKeys_returns (constraint_rows : list (jsstring * jsstring)) :
  Forall (fun r => array_includes object_prototype_names (fst r) = false) constraint_rows ->
  getPrimaryKeys constraint_rows = Return (grouped constraint_rows).
Proof.
  intros F. unfold getPrimaryKeys, grouped. generalize (@nil (jsstring * list jsstring)).
  induction F as [|r rows Hr _ IH]; intros pks; [reflexivity|].
  cbn [fold_left and_then]. rewrite add_key_column_own by exact Hr. apply IH.
Qed.

Lemma thrown_stays {A} (f : PrimaryKeyMap -> A -> completion PrimaryKeyMap)
  (l : list A) (m : jsstring) :
  fold_left (fun pks r => and_then pks (fun pks => f pks r)) l (Throw m) = Throw m.
Proof. induction l as [|x l IH]; [reflexivity | exact IH]. Qed.

Lemma getPrimaryKeys_throws (constraint_rows : list (jsstring * jsstring)) :
  (exists r, In r constraint_rows
             /\ array_includes object_prototype_names (fst r) = true) ->
  getPrimaryKeys constraint_rows = Throw push_not_a_function.
Proof.
  unfold getPrimaryKeys.
  assert (H : forall pks, no_inherited_name pks ->
            (exists r, In r constraint_rows
                       /\ array_includes object_prototype_names (fst r) = true) ->
            fold_left (fun pks r => and_then pks (fun pks => add_key_column pks r))
              constraint_rows (Return pks) = Throw push_not_a_function).
  { induction constraint_rows as [|r rows IH]; intros pks Inv (x & Hin & Hx);
      [contradiction|].
    cbn [fold_left and_then].
    destruct (array_includes object_prototype_names (fst r)) eqn:Er.
    - unfold add_key_column, pk_property. rewrite (Inv _ Er), Er. apply thrown_stays.
    - rewrite add_key_column_own by exact Er.
      destruct Hin as [->|Hin]; [congruence|].
      apply IH; [|now exists x].
      intros t Ht. rewrite pk_get_push.
      destruct (eqb (fst r) t) eqn:E; [|now apply Inv].
      apply eqb_eq in E. congruence. }
  apply H. intros t _. reflexivity.
Qed.


Lemma pk_property_grouped (constraint_rows : list (jsstring * jsstring)) (t : jsstring) :
  array_includes object_prototype_names t = false ->
  pk_property (grouped constraint_rows) t
  = match key_columns constraint_rows t with
    | [] => Undefined
    | cols => Own cols
    end.
Proof.
  intros H. unfold pk_property, grouped. rewrite pk_get_fold, H. cbn [pk_get].
  now destruct (key_columns constraint_rows t).
Qed.

(** *** The entries of a snapshot *)





End WriterFacts.

Module SnapshotFacts.
Import BackupRestore SnapshotText Fixtures WriterFacts.



(** C9: on a database with the single empty table [t (id integer not null)]
    the writer returns the byte size of the file it wrote and [lines = 10],
    while the file has 12 lines of text by the count of the path through
    [pg_dump] (split on newline) and 11 newline characters: the statement
    that creates the table is one entry of three lines. *)
Theorem one_table_line_count :
  exists r content,
    backupDatabase generated_at None one_table (lit "/tmp/backup.sql") []
    = (Return r, [(lit "/tmp/backup.sql", from_utf8 content)])
    /\ Types.BackupResult.size r = length (from_utf8 content)
    /\ Types.BackupResult.lines r = 10%nat
    /\ text_lines content = 12%nat
    /\ LineCount.newlines content = 11%nat.
Proof.
  eexists _, (join [newline] (snapshot_lines generated_at one_table)).
  repeat split; vm_compute; reflexivity.
Qed.

End SnapshotFacts.

Module LineCountFacts.
Import BackupRestore LineCount WriterFacts.

Lemma text_lines_newlines (s : jsstring) : text_lines s = S (newlines s).
Proof.
  unfold text_lines, newlines. induction s as [|c s IH]; [reflexivity|].
  cbn [split count_occ]. destruct (N.eqb_spec c newline) as [->|Hc].
  - destruct (N.eq_dec newline newline); [|contradiction]. cbn [length]. now rewrite IH.
  - destruct (N.eq_dec c newline); [contradiction|].
    destruct (split newline s); [discriminate|exact IH].
Qed.

Lemma newlines_app (a b : jsstring) : newlines (a ++ b) = (newlines a + newlines b)%nat.
Proof. apply count_occ_app. Qed.

Lemma newlines_join (e : jsstring) (entries : list jsstring) :
  newlines (join [newline] (e :: entries))
  = (length entries + embedded_newlines (e :: entries))%nat.
Proof.
  revert e. unfold embedded_newlines.
  induction entries as [|e' entries IH]; intros e.
  - cbn [join map length]. unfold list_sum. cbn [fold_right]. lia.
  - change (join [newline] (e :: e' :: entries))
      with (e ++ [newline] ++ join [newline] (e' :: entries)).
    rewrite !newlines_app, IH. cbn [map length]. unfold list_sum. cbn [fold_right].
    change (newlines [newline]) with 1%nat. lia.
Qed.

(** The file the writer makes has one line per entry and one more per
    newline inside an entry. *)
Lemma text_lines_join (e : jsstring) (entries : list jsstring) :
  text_lines (join [newline] (e :: entries))
  = (length (e :: entries) + embedded_newlines (e :: entries))%nat.
Proof. rewrite text_lines_newlines, newlines_join. cbn [length]. lia. Qed.

Lemma newlines_schema (columns : list ColumnInfo) (tableName : jsstring) :
  (2 <= newlines (getTableSchema columns tableName))%nat.
Proof.
  unfold getTableSchema. rewrite !newlines_app.
  change (newlines [newline]) with 1%nat. lia.
Qed.

Lemma embedded_app (a b : list jsstring) :
  embedded_newlines (a ++ b) = (embedded_newlines a + embedded_newlines b)%nat.
Proof. unfold embedded_newlines. now rewrite map_app, list_sum_app. Qed.

Lemma embedded_cons (e : jsstring) (entries : list jsstring) :
  embedded_newlines (e :: entries) = (newlines e + embedded_newlines entries)%nat.
Proof. reflexivity. Qed.

Lemma embedded_table (cat : Catalog) (pks : PrimaryKeyMap) (t : jsstring)
  (entries : list jsstring) :
  table_entries cat pks t = Return entries -> (2 <= embedded_newlines entries)%nat.
Proof.
  unfold table_entries.
  destruct (match pk_property pks t with
            | Own cols => _ | Inherited => _ | Undefined => _ end) as [key|m];
    cbn [and_then]; [|discriminate].
  destruct (getTableData (data_of cat t) t) as [data|m]; cbn [and_then]; [|discriminate].
  intros E. injection E as <-. cbn [app]. rewrite !embedded_cons.
  pose proof (newlines_schema (columns_of cat t) t). lia.
Qed.

Lemma embedded_tables (cat : Catalog) (pks : PrimaryKeyMap) (ts : list jsstring)
  (entries : list (list jsstring)) :
  traverse (table_entries cat pks) ts = Return entries ->
  (2 * length ts <= embedded_newlines (concat entries))%nat.
Proof.
  intros T. apply traverse_returned in T.
  induction T as [|t e ts entries E _ IH]; cbn [length concat]; [lia|].
  rewrite embedded_app. pose proof (embedded_table cat pks t e E). lia.
Qed.

Lemma embedded_backup (now : jsstring) (cat : Catalog) (lines : list jsstring) :
  backup_lines now cat = Return lines ->
  (2 * length (tables cat) <= embedded_newlines lines)%nat.
Proof.
  unfold backup_lines.
  destruct (getPrimaryKeys (primary_key_rows cat)) as [pks|m]; cbn [and_then];
    [|discriminate].
  destruct (traverse (table_entries cat pks) (tables cat)) as [entries|m] eqn:T;
    cbn [and_then]; [|discriminate].
  intros E. injection E as <-. cbn [app]. rewrite !embedded_cons.
  pose proof (embedded_tables cat pks (tables cat) entries T). lia.
Qed.

(** The writer returns the byte size of the file it wrote; its [lines] is
    the number of entries pushed on the array, and the file has one more
    line of text for every newline inside an entry: at least two more per
    table. *)
Lemma snapshot_lines_are_entries (now : jsstring) (cat : Catalog)
  (outputPath : jsstring) (disk : Disk) (lines : list jsstring) :
  backup_lines now cat = Return lines ->
  exists r content,
    backupDatabase now None cat outputPath disk
    = (Return r, (outputPath, from_utf8 content) :: disk)
    /\ Types.BackupResult.size r = length (from_utf8 content)
    /\ Types.BackupResult.lines r = length lines
    /\ text_lines content
       = (Types.BackupResult.lines r + embedded_newlines lines)%nat
    /\ (Types.BackupResult.lines r + 2 * length (tables cat) <= text_lines content)%nat.
Proof.
  intros B. eexists _, (join [newline] lines).
  unfold backupDatabase, bind, lift. rewrite B.
  split; [reflexivity|]. cbn [Types.BackupResult.size Types.BackupResult.lines statSize].
  rewrite JSFacts.eqb_refl.
  assert (E : text_lines (join [newline] lines)
              = (length lines + embedded_newlines lines)%nat).
  { destruct lines as [|e entries]; [|apply text_lines_join].
    unfold backup_lines in B.
    destruct (getPrimaryKeys (primary_key_rows cat)); cbn [and_then] in B; [|discriminate].
    destruct (traverse _ (tables cat)); cbn [and_then] in B; discriminate. }
  split; [reflexivity|]. split; [reflexivity|]. split; [exact E|].
  rewrite E. pose proof (embedded_backup now cat lines B). lia.
Qed.

End LineCountFacts.

Module CodecExamples.

(** U+00E9, U+20AC, U+1F600 (a surrogate pair) and "A". *)
Example utf8_of_text :
  map Byte.to_N (from_utf8 [0xE9; 0x20AC; 0xD83D; 0xDE00; 0x41])
  = [0xC3; 0xA9; 0xE2; 0x82; 0xAC; 0xF0; 0x9F; 0x98; 0x80; 0x41]
  /\ to_utf8 (from_utf8 [0xE9; 0x20AC; 0xD83D; 0xDE00; 0x41])
     = [0xE9; 0x20AC; 0xD83D; 0xDE00; 0x41].
Proof. split; vm_compute; reflexivity. Qed.

(** Unpaired surrogates are written as U+FFFD; an overlong form, an encoded
    surrogate and a cut sequence are read as U+FFFD. *)
Example utf8_replacement :
  map Byte.to_N (from_utf8 [0xDC00; 0x41; 0xD800])
  = [0xEF; 0xBF; 0xBD; 0x41; 0xEF; 0xBF; 0xBD]
  /\ to_utf8 (map byte_of_N [0xC0; 0x80]) = [0xFFFD; 0xFFFD]
  /\ to_utf8 (map byte_of_N [0xED; 0xA0; 0x80]) = [0xFFFD; 0xFFFD; 0xFFFD]
  /\ to_utf8 (map byte_of_N [0x41; 0xE2; 0x82]) = [0x41; 0xFFFD].
Proof. repeat split; vm_compute; reflexivity. Qed.

(** Hex is written in lower case and read in either case; reading stops at
    the first pair that is not hex and drops a trailing single digit. *)
Example hex_of_bytes :
  to_hex (map byte_of_N [0xDE; 0xAD; 0x00; 0x0F]) = lit "dead000f"
  /\ map Byte.to_N (from_hex (lit "DEad1ag1")) = [0xDE; 0xAD; 0x1A]
  /\ map Byte.to_N (from_hex (lit "abc")) = [0xAB].
Proof. repeat split; vm_compute; reflexivity. Qed.

End CodecExamples.

Module SecretBoxExamples.
Import RotateKey RotationOutcome Fixtures FixtureFacts SecretBoxFacts.

Lemma round_trip_hello :
  exists hex w',
    encrypt keyed_box quiet (new_SecretBox key_a) (lit "Hello, World!") (world_of [])
    = (Return hex, w')
    /\ decrypt keyed_box (new_SecretBox key_a) hex = Return (lit "Hello, World!").
Proof.
  apply (round_trip_well_formed keyed_box quiet key_a (lit "Hello, World!") (world_of []));
    [exact keyed_box_laws | reflexivity | reflexivity].
Defined.

(** C1, as stated, fails: the text made of the single unpaired surrogate
    U+D800 comes back as U+FFFD, here under the key "aa...a", with every
    lawful primitive and every nonce. *)
Lemma lone_surrogate_not_restored :
  isHex64 key_a = true
  /\ [0xFFFD] <> [0xD800]
  /\ forall nacl env w, NaclLaws nacl ->
     exists hex w',
       encrypt nacl env (new_SecretBox key_a) [0xD800] w = (Return hex, w')
       /\ decrypt nacl (new_SecretBox key_a) hex = Return [0xFFFD].
Proof.
  split; [reflexivity|]. split; [discriminate|].
  intros nacl env w Laws.
  destruct (encrypt_decrypt_codec nacl env (new_SecretBox key_a) [0xD800] w Laws
              (BufferFacts.from_hex_key key_a eq_refl)) as (hex & E & D).
  exists hex, (after_draw 24 w). split; [exact E | exact D].
Qed.


(** A key is its 32 bytes: "aa...a" and "AA...A" are two spellings of the
    same key, and what one seals the other opens. *)
Example case_variant_key_decrypts :
  key_a <> key_A /\ isHex64 key_a = true /\ isHex64 key_A = true
  /\ forall nacl env w, NaclLaws nacl ->
     exists hex w',
       encrypt nacl env (new_SecretBox key_a) (lit "secret") w = (Return hex, w')
       /\ decrypt nacl (new_SecretBox key_A) hex = Return (lit "secret").
Proof.
  split; [vm_compute; discriminate|]. split; [reflexivity|]. split; [reflexivity|].
  intros nacl env w Laws.
  replace (new_SecretBox key_A) with (new_SecretBox key_a) by (vm_compute; reflexivity).
  destruct (encrypt_decrypt_codec nacl env (new_SecretBox key_a) (lit "secret") w Laws
              (BufferFacts.from_hex_key key_a eq_refl)) as (hex & E & D).
  exists hex, (after_draw 24 w). split; [exact E|].
  rewrite D. now rewrite BufferFacts.to_utf8_from_utf8.
Qed.

Lemma invalid_old_key_example :
  exists message,
    rotateEncryptionKey keyed_box quiet (lit "invalid") key_b (world_of [])
    = (Throw message, world_of [])
    /\ (message = lit "OLD_KEY must be 64 hex characters"
        \/ message = lit "NEW_KEY must be 64 hex characters").
Proof.
  apply (invalid_key_rejected_first keyed_box quiet (lit "invalid") key_b (world_of [])).
  left. reflexivity.
Defined.

End SecretBoxExamples.

Module RotationExamples.
Import RotateKey RotationOutcome Fixtures FixtureFacts.
Import SecretBoxFacts RotationFacts RotationTheorems.

Lemma three_records_unique : NoDup (map alias (private_key three_records)).
Proof.
  cbn [three_records world_of private_key map].
  repeat (constructor; [cbn [In]; intuition discriminate|]). constructor.
Qed.

(** The run on [three_records], from [key_a] to [key_b]: A and B are
    rotated, R is counted and reported, and R's row is as it was. *)
Example three_records_run :
  let run := rotate_rows keyed_box quiet (new_SecretBox key_a) (new_SecretBox key_b)
               (private_key three_records) tally0 three_records in
  fst run = Return one_failed_of_three
  /\ map (decrypt keyed_box (new_SecretBox key_b)) (map privateKeyHex (private_key (snd run)))
     = [Return (lit "deadbeef");
        Throw (lit "Decryption failed - wrong key or corrupted data");
        Return (lit "0123456789abcdef")]
  /\ nth_error (private_key (snd run)) 1 = Some record_R.
Proof. repeat split; vm_compute; reflexivity. Qed.

(** C4, as stated, fails where it says the alias is recorded: a record
    whose alias has more than 20 characters is pushed on [errors] under
    the first 20 characters followed by "...", not under its alias. *)
Lemma long_alias_recorded_short :
  let run := rotate_rows keyed_box quiet (new_SecretBox key_a) (new_SecretBox key_b)
               [record_long] tally0 (world_of [record_long]) in
  decrypt keyed_box (new_SecretBox key_a) (privateKeyHex record_long)
  = Throw (lit "Decryption failed - wrong key or corrupted data")
  /\ fst run
     = Return {| successCount := 0; errorCount := 1;
                 errors := [(lit "did:web:example.com:...",
                             lit "Decryption failed - wrong key or corrupted data")] |}
  /\ alias record_long <> lit "did:web:example.com:...".
Proof.
  split; [vm_compute; reflexivity|]. split; [vm_compute; reflexivity|].
  vm_compute. discriminate.
Qed.

Lemma three_records_rotation_throws :
  (forall r w',
     rotateEncryptionKey keyed_box quiet key_a key_b three_records = (Return r, w') ->
     Types.RotateKeyResult.errors r = 0%nat)
  /\ (exists t w1,
        rotate_rows keyed_box quiet (new_SecretBox key_a) (new_SecretBox key_b)
          (private_key three_records) tally0
          (called SelectPrivateKeys (called Connect three_records)) = (Return t, w1)
        /\ (successCount t + errorCount t = length (private_key three_records))%nat
        /\ ((0 < errorCount t)%nat ->
            exists message w',
              rotateEncryptionKey keyed_box quiet key_a key_b three_records
              = (Throw message, w')
              /\ private_key w' = private_key w1)).
Proof.
  destruct (no_result_with_errors keyed_box quiet key_a key_b three_records)
    as (H1 & _ & H3).
  split; [exact H1|].
  apply H3; try reflexivity. discriminate.
Defined.

(** On an empty table the run returns zero counts and issues no update. *)
Example empty_table_run :
  rotateEncryptionKey keyed_box quiet key_a key_b (world_of [])
  = (Return {| Types.RotateKeyResult.success := 0; Types.RotateKeyResult.errors := 0 |},
     {| private_key := []; calls := [Connect; SelectPrivateKeys; End_];
        drawn := 0; reported := [] |}).
Proof. vm_compute. reflexivity. Qed.

(** The run on [three_records] as the caller sees it. *)
Example three_records_rotation :
  fst (rotateEncryptionKey keyed_box quiet key_a key_b three_records)
  = Throw (lit "1 key(s) failed to rotate").
Proof. vm_compute. reflexivity. Qed.

End RotationExamples.

Module RestoreExamples.
Import RotateKey BackupRestore Replies Fixtures FixtureFacts BatchTheorems.

Lemma aggregate_outcome_examples :
  (fst (rotate_rows keyed_box quiet (new_SecretBox key_a) (new_SecretBox key_b)
          (private_key three_records) tally0
          (called SelectPrivateKeys (called Connect three_records)))
   = Return one_failed_of_three
   /\ exists message w',
        rotateEncryptionKey keyed_box quiet key_a key_b three_records = (Throw message, w')
        /\ (RotateKey.end_error quiet = None ->
            message = numberToString 1 ++ lit " key(s) failed to rotate"))
  /\ (restoreDatabase rejecting one_statement (lit "/backup.sql") false nothing_sent
      = (Return one_error_result, one_statement_sent)
      /\ Types.RestoreResult.success one_error_result = true
      /\ exists content s0,
           input_file one_statement = Some content
           /\ Types.RestoreResult.errors one_error_result
              = Some (length (filter counted
                                (fst (answers rejecting (db rejecting s0)
                                        (parseStatements content)))))).
Proof.
  destruct aggregate_outcome as (Hrot & _ & Hres). split.
  - split; [vm_compute; reflexivity|].
    refine (Hrot keyed_box quiet key_a key_b three_records one_failed_of_three
              _ eq_refl eq_refl eq_refl eq_refl _ _ _).
    + discriminate.
    + vm_compute. reflexivity.
    + cbn [errorCount one_failed_of_three]. lia.
  - split; [vm_compute; reflexivity|].
    refine (Hres rejecting one_statement (lit "/backup.sql") false nothing_sent
              one_error_result one_statement_sent _).
    vm_compute. reflexivity.
Defined.

(** C5, as stated, fails for restore: one statement, rejected with a syntax
    error, gives an error count of 1 and the result [success: true]. *)
Lemma restore_reports_success_with_errors :
  restoreDatabase rejecting one_statement (lit "/backup.sql") false nothing_sent
  = (Return one_error_result, one_statement_sent)
  /\ Types.RestoreResult.success one_error_result = true
  /\ Types.RestoreResult.errors one_error_result = Some 1%nat.
Proof. split; [vm_compute; reflexivity|]. split; reflexivity. Qed.

(** A file of seven lines with a comment, a blank line and a statement
    over two lines: four statements are sent, in file order; the two that
    succeed are counted, the syntax error is counted as an error, and the
    "already exists" failure is not counted. *)
Example mixed_restore_run :
  restoreDatabase remembering mixed_backup (lit "/backup.sql") false
    (Build_Session remembering [] [])
  = (Return {| Types.RestoreResult.success := true;
               Types.RestoreResult.statements := Some 2%nat;
               Types.RestoreResult.errors := Some 1%nat |},
     Build_Session remembering
       [lit "INSERT INTO a (id)" ++ [newline] ++ lit "  VALUES (1);";
        lit "CREATE TABLE a (id INTEGER);"]
       [lit "CREATE TABLE a (id INTEGER);";
        lit "BAD;";
        lit "CREATE TABLE a (id INTEGER);";
        lit "INSERT INTO a (id)" ++ [newline] ++ lit "  VALUES (1);"]).
Proof. vm_compute. reflexivity. Qed.

Lemma mixed_restore_sends_all :
  exists r s',
    restoreDatabase remembering mixed_backup (lit "/backup.sql") false
      (Build_Session remembering [] []) = (Return r, s')
    /\ sent remembering s' = [] ++ parseStatements mixed_text.
Proof.
  destruct (RestoreFacts.restore_plays_every_statement remembering) as (_ & _ & _ & H).
  apply (H mixed_backup (lit "/backup.sql") mixed_text (Build_Session remembering [] []));
    reflexivity.
Defined.

End RestoreExamples.

Module TypeMapperExamples.
Import BackupRestore TypeMapperRules Fixtures TypeMapperFacts.

Lemma serial_column_line :
  columnDefinition serial_column = column_line serial_column
  /\ column_line serial_column = quoted (lit "id") ++ lit " SERIAL".
Proof.
  split; [|reflexivity].
  apply (column_definition_follows_rules serial_column).
  split; cbn [serial_column column_default character_maximum_length data_type];
    [discriminate | discriminate | vm_compute; discriminate].
Defined.

End TypeMapperExamples.

Module DecoderFacts.
Import JSLib BufferFacts.

Lemma scalar_replacement : scalar 0xFFFD.
Proof. unfold scalar. lia. Qed.

(** The decoder yields scalar values only, whatever the bytes. *)
Lemma code_points_scalar (n : nat) : forall bs,
  (length bs <= n)%nat -> Forall scalar (utf8_code_points bs).
Proof.
  induction n as [|n IH]; intros bs L.
  - destruct bs; [constructor | cbn in L; lia].
  - destruct bs as [|b0 r0]; [constructor|]. cbn [length] in L.
    assert (IH0 : Forall scalar (utf8_code_points r0)) by (apply IH; lia).
    assert (R : forall l, Forall scalar l -> Forall scalar (0xFFFD :: l))
      by (intros l Hl; constructor; [apply scalar_replacement | exact Hl]).
    cbn [utf8_code_points].
    destruct (N.ltb_spec b0 0x80).
    { constructor; [unfold scalar; lia | exact IH0]. }
    destruct (N.leb_spec 0xC2 b0); destruct (N.leb_spec b0 0xDF); cbn [andb].
    { destruct r0 as [|b1 r1]; [now apply R|]. cbn [length] in L.
      unfold isContinuation.
      destruct (N.leb_spec 0x80 b1); destruct (N.leb_spec b1 0xBF); cbn [andb];
        try (now apply R).
      constructor; [unfold scalar; lia | apply IH; lia]. }
    all: destruct (N.leb_spec 0xE0 b0); destruct (N.leb_spec b0 0xEF); cbn [andb].
    all: try solve [
      destruct r0 as [|b1 r1]; [now apply R|]; cbn [length] in L;
      destruct (N.eqb_spec b0 0xE0); destruct (N.eqb_spec b0 0xED);
      match goal with
      | |- context [if (?a <=? ?b) && (?c <=? ?d) then _ else _] =>
          destruct (N.leb_spec a b); destruct (N.leb_spec c d); cbn [andb]
      end; try (now apply R);
      (destruct r1 as [|b2 r2]; [now apply R|]; cbn [length] in L;
       unfold isContinuation;
       destruct (N.leb_spec 0x80 b2); destruct (N.leb_spec b2 0xBF); cbn [andb];
       [ constructor; [unfold scalar; lia | apply IH; lia]
       | apply R; apply IH; cbn [length]; lia .. ]) ].
    all: destruct (N.leb_spec 0xF0 b0); destruct (N.leb_spec b0 0xF4); cbn [andb].
    all: try (now apply R).
    all: try solve [
      destruct r0 as [|b1 r1]; [now apply R|]; cbn [length] in L;
      destruct (N.eqb_spec b0 0xF0); destruct (N.eqb_spec b0 0xF4);
      match goal with
      | |- context [if (?a <=? ?b) && (?c <=? ?d) then _ else _] =>
          destruct (N.leb_spec a b); destruct (N.leb_spec c d); cbn [andb]
      end; try (now apply R);
      (destruct r1 as [|b2 r2]; [now apply R|]; cbn [length] in L;
       unfold isContinuation;
       destruct (N.leb_spec 0x80 b2); destruct (N.leb_spec b2 0xBF); cbn [andb];
       try (apply R; apply IH; cbn [length]; lia);
       (destruct r2 as [|b3 r3]; [now apply R|]; cbn [length] in L;
        destruct (N.leb_spec 0x80 b3); destruct (N.leb_spec b3 0xBF); cbn [andb];
        [ constructor; [unfold scalar; lia | apply IH; lia]
        | apply R; apply IH; cbn [length]; lia .. ])) ].
Qed.

Lemma utf16_scalar_well_formed (cp : N) (rest : jsstring) :
  scalar cp -> isWellFormed rest = true ->
  isWellFormed (utf16_of_code_point cp ++ rest) = true.
Proof.
  intros [Hmax Hs] Hr. unfold utf16_of_code_point.
  destruct (N.ltb_spec cp 0x10000) as [Hlt|Hge].
  - cbn [app isWellFormed]. unfold isHighSurrogate, isLowSurrogate.
    destruct (N.leb_spec 0xD800 cp); destruct (N.leb_spec cp 0xDBFF); cbn [andb]; try lia.
    all: destruct (N.leb_spec 0xDC00 cp); destruct (N.leb_spec cp 0xDFFF); cbn [andb negb];
      try lia.
    all: destruct (N.ltb_spec cp 0x10000); try lia; exact Hr.
  - pose proof (N.div_mod (cp - 0x10000) 0x400 ltac:(lia)) as Dm.
    pose proof (N.mod_lt (cp - 0x10000) 0x400 ltac:(lia)) as Ml.
    revert Dm Ml.
    generalize ((cp - 0x10000) / 0x400) as q, ((cp - 0x10000) mod 0x400) as m.
    intros q m Dm Ml.
    cbn [app isWellFormed]. unfold isHighSurrogate, isLowSurrogate.
    destruct (N.leb_spec 0xD800 (0xD800 + q)); try lia.
    destruct (N.leb_spec (0xD800 + q) 0xDBFF); try lia. cbn [andb].
    destruct (N.leb_spec 0xDC00 (0xDC00 + m)); try lia.
    destruct (N.leb_spec (0xDC00 + m) 0xDFFF); try lia. cbn [andb]. exact Hr.
Qed.

(** [buf.toString('utf8')] never yields an unpaired surrogate. *)
Lemma to_utf8_well_formed (b : bytes) : isWellFormed (to_utf8 b) = true.
Proof.
  unfold to_utf8.
  pose proof (code_points_scalar _ (map Byte.to_N b) (le_n _)) as F.
  induction F as [|cp l Hcp _ IH]; [reflexivity|].
  cbn [flat_map]. now apply utf16_scalar_well_formed.
Qed.

End DecoderFacts.

Module RotationRuns.
Import RotateKey RotationOutcome JSFacts BufferFacts DecoderFacts SecretBoxFacts.
Import RotationFacts RotationTheorems.

Section Runs.

Context (nacl : Nacl) (env : Environment).

(** What [decrypt] returns goes through [encrypt] and [decrypt] under any
    32-byte key unharmed. *)
Lemma decrypted_text_reencrypts (box box' : SecretBox) (hex text : jsstring) (w : World) :
  NaclLaws nacl -> length (secretKey box') = 32%nat ->
  decrypt nacl box hex = Return text ->
  exists hex',
    encrypt nacl env box' text w = (Return hex', after_draw 24 w)
    /\ decrypt nacl box' hex' = Return text.
Proof.
  intros Laws Lk D.
  destruct (decrypt_returns_opened nacl box hex text D) as (opened & _ & ->).
  destruct (encrypt_decrypt_codec nacl env box' (to_utf8 opened) w Laws Lk) as (hex' & E & V).
  exists hex'. split; [exact E|].
  now rewrite V, to_utf8_from_utf8 by apply to_utf8_well_formed.
Qed.

(** X3: whatever text [decrypt] returns holds no unpaired surrogate, so it
    survives [encrypt] and [decrypt] under any valid key unchanged: the
    check that the rotation makes after re-encrypting a record cannot fail
    with a lawful primitive. *)
Theorem decrypt_output_round_trips (key key' hex text : jsstring) (w : World) :
  NaclLaws nacl -> isHex64 key' = true ->
  decrypt nacl (new_SecretBox key) hex = Return text ->
  isWellFormed text = true
  /\ exists hex' w',
       encrypt nacl env (new_SecretBox key') text w = (Return hex', w')
       /\ decrypt nacl (new_SecretBox key') hex' = Return text.
Proof.
  intros Laws Hk D. split.
  - destruct (decrypt_returns_opened nacl _ hex text D) as (opened & _ & ->).
    apply to_utf8_well_formed.
  - destruct (decrypted_text_reencrypts (new_SecretBox key) (new_SecretBox key') hex text w
                Laws (from_hex_key key' Hk) D) as (hex' & E & V).
    now exists hex', (after_draw 24 w).
Qed.

Lemma rotate_row_healthy (oldBox newBox : SecretBox) (row : PrivateKeyRow)
  (plain : jsstring) (w : World) :
  NaclLaws nacl -> length (secretKey newBox) = 32%nat ->
  (forall hex, update_error env hex (alias row) = None) ->
  decrypt nacl oldBox (privateKeyHex row) = Return plain ->
  exists hex,
    decrypt nacl newBox hex = Return plain
    /\ rotate_row nacl env oldBox newBox row w
       = (Return tt,
          {| private_key := map (set_hex hex (alias row)) (private_key w);
             calls := calls w ++ [UpdatePrivateKey hex (alias row)];
             drawn := (drawn w + 24)%nat;
             reported := reported w |}).
Proof.
  intros Laws Lk Up D.
  destruct (decrypted_text_reencrypts oldBox newBox _ plain w Laws Lk D) as (hex & E & V).
  exists hex. split; [exact V|].
  unfold rotate_row, bind, lift. rewrite D, E, V, eqb_refl. cbn [negb].
  unfold client_update. rewrite Up. reflexivity.
Qed.

(** A record that decrypts under the old key completes its [try] block,
    with a lawful primitive and a server that accepts its update. *)
Lemma rotate_row_rotates (oldBox newBox : SecretBox) (row : PrivateKeyRow)
  (plain : jsstring) (w : World) (o : Outcome) (w' : World) :
  NaclLaws nacl -> length (secretKey newBox) = 32%nat ->
  (forall hex, update_error env hex (alias row) = None) ->
  decrypt nacl oldBox (privateKeyHex row) = Return plain ->
  rotate_row nacl env oldBox newBox row w = (completes o, w') ->
  isRotated o = true.
Proof.
  intros Laws Lk Up D E.
  destruct (rotate_row_healthy oldBox newBox row plain w Laws Lk Up D) as (hex & _ & E').
  rewrite E' in E. destruct o; [reflexivity | discriminate].
Qed.

Lemma outcome_member {oldBox newBox} (P : PrivateKeyRow -> Outcome -> Prop)
  (rows : list PrivateKeyRow) (outs : list Outcome) :
  Forall2 (justified nacl oldBox newBox) rows outs -> Forall2 P rows outs ->
  forall R, In R rows ->
  exists o, In (R, o) (combine rows outs) /\ justified nacl oldBox newBox R o /\ P R o.
Proof.
  intros J. induction J as [|r o rows outs Jo _ IH]; intros H R HR; [contradiction|].
  apply Forall2_cons_iff in H. destruct H as [Po H].
  destruct HR as [->|HR].
  - exists o. split; [now left | now split].
  - destruct (IH H R HR) as (o' & Hin & J' & P'). exists o'. split; [now right | now split].
Qed.

(** C4 (as amended): with unique aliases, the loop never throws and settles
    every fetched record by its own outcome, whatever the other records do.
    A record is rotated only when it decrypts under the old key and its new
    blob decrypts under the new key to the same text; its row then holds the
    new blob.  Every other record is failed: its row is as it was, and it
    is pushed on [errors] with its display alias (the alias cut to 20
    characters, then "...", when it is longer) and the message thrown.  A
    record that does not decrypt under the old key is failed with that
    decryption error.  A record that does decrypt under the old key is
    rotated, whatever became of the others, when the primitive keeps its
    promise, the new key has 32 bytes and the server accepts the update of
    its row: its row holds a new blob that decrypts under the new key to the
    same text.  The two counters count the two kinds and add up to the
    number of records. *)
Theorem records_settled_independently (oldBox newBox : SecretBox) (w : World) :
  NoDup (map alias (private_key w)) ->
  exists outs t w',
    rotate_rows nacl env oldBox newBox (private_key w) tally0 w = (Return t, w')
    /\ Forall2 (justified nacl oldBox newBox) (private_key w) outs
    /\ private_key w' = map settle (combine (private_key w) outs)
    /\ errors t = flat_map failure (combine (private_key w) outs)
    /\ successCount t = count isRotated outs
    /\ errorCount t = count isFailed outs
    /\ (successCount t + errorCount t = length (private_key w))%nat
    /\ (forall R reason,
          In (R, Failed reason) (combine (private_key w) outs) ->
          In R (private_key w') /\ In (shortAlias (alias R), reason) (errors t))
    /\ (forall R reason,
          In R (private_key w) ->
          decrypt nacl oldBox (privateKeyHex R) = Throw reason ->
          In (R, Failed reason) (combine (private_key w) outs))
    /\ (NaclLaws nacl -> length (secretKey newBox) = 32%nat ->
        forall R plain,
          In R (private_key w) ->
          decrypt nacl oldBox (privateKeyHex R) = Return plain ->
          (forall hex, update_error env hex (alias R) = None) ->
          exists hex,
            In (R, Rotated hex) (combine (private_key w) outs)
            /\ decrypt nacl newBox hex = Return plain
            /\ In {| alias := alias R; key_type := key_type R; privateKeyHex := hex |}
                 (private_key w')).
Proof.
  intros ND.
  destruct (rotate_rows_outcomes_with nacl env oldBox newBox
              (fun row o =>
                 NaclLaws nacl -> length (secretKey newBox) = 32%nat ->
                 forall plain,
                   decrypt nacl oldBox (privateKeyHex row) = Return plain ->
                   (forall hex, update_error env hex (alias row) = None) ->
                   isRotated o = true)
              (fun row w0 o w1 E Laws Lk plain D Up =>
                 rotate_row_rotates oldBox newBox row plain w0 o w1 Laws Lk Up D E)
              (private_key w) tally0 w)
    as (outs & t & w' & E & J & H & T & _ & Er & Sc & Ec).
  cbn [tally0 errors successCount errorCount app Nat.add] in Er, Sc, Ec.
  assert (L : length outs = length (private_key w))
    by (symmetry; eapply Forall2_length; eassumption).
  assert (T' : private_key w' = map settle (combine (private_key w) outs))
    by (rewrite T; now apply updates_settle).
  exists outs, t, w'. repeat split; try assumption.
  - rewrite Sc, Ec, count_split. exact L.
  - rewrite T'. change R with (settle (R, Failed reason)). now apply in_map.
  - rewrite Er. apply in_flat_map. exists (R, Failed reason). split; [assumption|].
    now left.
  - intros R reason HR D.
    destruct (justified_member _ _ J R HR) as (o & Hin & Jo).
    destruct o as [hex|m]; cbn [justified] in Jo.
    + destruct Jo as (plain & D' & _). congruence.
    + now rewrite <- (Jo reason D).
  - intros Laws Lk R plain HR D Up.
    destruct (outcome_member _ _ _ J H R HR) as (o & Hin & Jo & Ho).
    specialize (Ho Laws Lk plain D Up).
    destruct o as [hex|m]; [|discriminate]. cbn [justified] in Jo.
    destruct Jo as (plain' & D' & V). exists hex.
    split; [exact Hin|]. split; [congruence|].
    rewrite T'. change {| alias := alias R; key_type := key_type R; privateKeyHex := hex |}
      with (settle (R, Rotated hex)). now apply in_map.
Qed.

Lemma rotate_rows_healthy (oldBox newBox : SecretBox) (rows : list PrivateKeyRow) :
  NaclLaws nacl -> length (secretKey newBox) = 32%nat ->
  (forall hex target, update_error env hex target = None) ->
  (forall r, In r rows ->
     exists plain, decrypt nacl oldBox (privateKeyHex r) = Return plain) ->
  forall t w,
  exists hexes w',
    rotate_rows nacl env oldBox newBox rows t w
    = (Return {| successCount := (successCount t + length rows)%nat;
                 errorCount := errorCount t; errors := errors t |}, w')
    /\ Forall2 (fun r hex => decrypt nacl newBox hex
                             = decrypt nacl oldBox (privateKeyHex r)) rows hexes
    /\ private_key w'
       = map (fold_left apply_update
                (flat_map update_of (combine rows (map Rotated hexes)))) (private_key w)
    /\ calls w' = calls w ++ map (fun p => UpdatePrivateKey (snd p) (alias (fst p))) (combine rows hexes)
    /\ drawn w' = (drawn w + 24 * length rows)%nat
    /\ reported w' = reported w.
Proof.
  intros Laws Lk Up. induction rows as [|row rows IH]; intros Dec t w.
  - exists [], w. cbn [rotate_rows length combine flat_map fold_left map].
    unfold ret. rewrite Nat.add_0_r, map_id, app_nil_r, Nat.mul_0_r, Nat.add_0_r.
    destruct t. repeat split. constructor.
  - destruct (Dec row (or_introl eq_refl)) as [plain D].
    destruct (rotate_row_healthy oldBox newBox row plain w Laws Lk
                (fun hex => Up hex (alias row)) D) as (hex & V & E).
    cbn [rotate_rows]. unfold bind at 1. unfold try_catch, bind at 1. rewrite E.
    unfold ret at 1.
    match goal with
    | |- context [rotate_rows _ _ _ _ rows ?t1 ?w1] =>
        destruct (IH (fun r H => Dec r (or_intror H)) t1 w1)
          as (hexes & w' & E' & F & T & C & Dr & R)
    end.
    exists (hex :: hexes), w'. rewrite E'.
    cbn [successCount errorCount errors private_key calls drawn reported] in *.
    repeat split.
    + cbn [length]. now rewrite Nat.add_succ_r.
    + constructor; [congruence | exact F].
    + rewrite T, map_map. apply map_ext. intros r.
      cbn [map combine flat_map]. rewrite fold_left_app. reflexivity.
    + rewrite C. cbn [combine map]. now rewrite <- app_assoc.
    + rewrite Dr. cbn [length]. lia.
    + exact R.
Qed.

(** The rows after a run in which every record was rotated. *)
Lemma settle_rotated (rows : list PrivateKeyRow) : forall hexes (P : PrivateKeyRow -> jsstring -> Prop),
  Forall2 P rows hexes ->
  Forall2 (fun r r' => alias r' = alias r /\ key_type r' = key_type r
                       /\ P r (privateKeyHex r'))
    rows (map settle (combine rows (map Rotated hexes))).
Proof.
  intros hexes P F. induction F as [|r hex rows hexes H _ IH]; [constructor|].
  cbn [map combine]. constructor; [|exact IH].
  unfold settle. cbn [fst snd alias key_type privateKeyHex]. auto.
Qed.

(** X1: on a table whose records all decrypt under the old key, with a
    lawful primitive and a server that rejects nothing, the rotation returns
    the number of records as [success] and 0 as [errors]; every row keeps its
    alias and type and now decrypts under the new key to what it decrypted
    to under the old key; one nonce of 24 bytes was drawn per record and
    nothing was reported. *)
Theorem healthy_rotation_succeeds (oldKey newKey : jsstring) (w : World) :
  NaclLaws nacl ->
  isHex64 oldKey = true -> isHex64 newKey = true ->
  connect_error env = None -> select_error env = None -> end_error env = None ->
  (forall hex target, update_error env hex target = None) ->
  NoDup (map alias (private_key w)) ->
  (forall r, In r (private_key w) ->
     exists plain, decrypt nacl (new_SecretBox oldKey) (privateKeyHex r) = Return plain) ->
  exists w',
    rotateEncryptionKey nacl env oldKey newKey w
    = (Return {| Types.RotateKeyResult.success := length (private_key w);
                 Types.RotateKeyResult.errors := 0 |}, w')
    /\ Forall2 (fun r r' =>
                  alias r' = alias r /\ key_type r' = key_type r
                  /\ decrypt nacl (new_SecretBox newKey) (privateKeyHex r')
                     = decrypt nacl (new_SecretBox oldKey) (privateKeyHex r))
         (private_key w) (private_key w')
    /\ drawn w' = (drawn w + 24 * length (private_key w))%nat
    /\ reported w' = reported w.
Proof.
  intros Laws Ho Hn Hc Hs He Up ND Dec.
  rewrite rotateEncryptionKey_valid, try_finally_end by assumption. rewrite He.
  destruct (private_key w) as [|r0 rows0] eqn:Erows.
  - exists (called End_ (called SelectPrivateKeys (called Connect w))).
    unfold session, bind, client_connect, client_select, fail_with. rewrite Hc, Hs.
    cbn [called private_key]. rewrite Erows. cbn [length Nat.eqb fst snd]. unfold ret.
    cbn [fst snd called private_key drawn reported].
    repeat split; [constructor | lia].
  - rewrite <- Erows in *.
    destruct (rotate_rows_healthy (new_SecretBox oldKey) (new_SecretBox newKey)
                (private_key w) Laws (from_hex_key newKey Hn) Up Dec tally0
                (called SelectPrivateKeys (called Connect w)))
      as (hexes & w1 & E & F & T & C & Dr & R).
    assert (Hne : private_key w <> []) by (rewrite Erows; discriminate).
    rewrite (session_after_loop nacl env oldKey newKey w _ w1 Hc Hs Hne E).
    cbn [errorCount successCount errors tally0 Nat.ltb Nat.leb fst snd Nat.add].
    exists (called End_ (reporting [] w1)).
    cbn [called reporting private_key drawn reported] in *.
    repeat split.
    + rewrite T. rewrite updates_settle.
      * exact (settle_rotated _ hexes
                 (fun r hex => decrypt nacl (new_SecretBox newKey) hex
                               = decrypt nacl (new_SecretBox oldKey) (privateKeyHex r)) F).
      * exact ND.
      * rewrite length_map. symmetry. eapply Forall2_length. eassumption.
    + exact Dr.
    + now rewrite app_nil_r.
Qed.

Lemma rotate_rows_calls (oldBox newBox : SecretBox) (rows : list PrivateKeyRow) :
  forall t w t' w',
    rotate_rows nacl env oldBox newBox rows t w = (Return t', w') ->
    exists ups,
      calls w' = calls w ++ ups
      /\ Forall (fun c => exists hex target, c = UpdatePrivateKey hex target) ups.
Proof.
  induction rows as [|row rows IH]; intros t w t' w'.
  - cbn [rotate_rows]. unfold ret. intros E. injection E as _ <-.
    exists []. split; [now rewrite app_nil_r | constructor].
  - cbn [rotate_rows]. unfold bind at 1. unfold try_catch, bind at 1.
    assert (Hrow : exists ups, calls (snd (rotate_row nacl env oldBox newBox row w))
                               = calls w ++ ups
             /\ Forall (fun c => exists hex target, c = UpdatePrivateKey hex target) ups).
    { unfold rotate_row, bind, lift.
      destruct (decrypt nacl oldBox (privateKeyHex row)) as [plain|m].
      2:{ exists []. split; [now rewrite app_nil_r | constructor]. }
      rewrite encrypt_unfold.
      destruct (secretbox nacl _ _ _) as [sealed|m].
      2:{ exists []. split; [now rewrite app_nil_r | constructor]. }
      destruct (decrypt nacl newBox _) as [verify|m].
      2:{ exists []. split; [now rewrite app_nil_r | constructor]. }
      destruct (negb (eqb verify plain)).
      { exists []. split; [now rewrite app_nil_r | constructor]. }
      unfold client_update.
      destruct (update_error env _ _); eexists [_]; (split; [reflexivity|]);
        repeat constructor; eauto. }
    destruct (rotate_row nacl env oldBox newBox row w) as [[[]|m] w1];
      cbn [snd] in Hrow; destruct Hrow as (ups & C & F); unfold ret at 1; intros E;
      destruct (IH _ _ _ _ E) as (ups' & C' & F');
      exists (ups ++ ups'); (split; [now rewrite C', C, app_assoc | now apply Forall_app]).
Qed.

(** X2: once both keys passed the format check, the client is closed exactly
    once, as the last call of the run, whether the run returns or throws;
    before it come the connection attempt and then only the fetch and
    updates.  A failing [end()] decides the outcome; a refused connection
    is thrown as it is, after [end()], with no fetch, no update, no random
    byte drawn and every row as it was. *)
Theorem rotation_closes_client (oldKey newKey : jsstring) (w : World) :
  isHex64 oldKey = true -> isHex64 newKey = true ->
  (exists middle,
     calls (snd (rotateEncryptionKey nacl env oldKey newKey w))
     = calls w ++ [Connect] ++ middle ++ [End_]
     /\ Forall (fun c => c = SelectPrivateKeys
                         \/ exists hex target, c = UpdatePrivateKey hex target) middle)
  /\ (forall m, end_error env = Some m ->
        fst (rotateEncryptionKey nacl env oldKey newKey w) = Throw m)
  /\ (forall m, connect_error env = Some m -> end_error env = None ->
        rotateEncryptionKey nacl env oldKey newKey w
        = (Throw m,
           {| private_key := private_key w; calls := calls w ++ [Connect; End_];
              drawn := drawn w; reported := reported w |})).
Proof.
  intros Ho Hn. rewrite rotateEncryptionKey_valid, try_finally_end by assumption.
  cbn [fst snd]. split; [|split].
  - unfold session, bind, client_connect, client_select, fail_with.
    destruct (connect_error env).
    { exists []. cbn [snd called calls app]. now rewrite <- app_assoc. }
    destruct (select_error env).
    { exists [SelectPrivateKeys]. cbn [snd called calls app].
      rewrite <- !app_assoc. split; [reflexivity|]. repeat constructor. }
    cbn [called private_key].
    destruct (length (private_key w) =? 0)%nat.
    { exists [SelectPrivateKeys]. unfold ret. cbn [snd called calls app].
      rewrite <- !app_assoc. split; [reflexivity|]. repeat constructor. }
    destruct (rotate_rows_outcomes nacl env (new_SecretBox oldKey) (new_SecretBox newKey)
                (private_key w) tally0 (called SelectPrivateKeys (called Connect w)))
      as (outs & t & w1 & E & _).
    rewrite E. destruct (rotate_rows_calls _ _ _ _ _ _ _ E) as (ups & C & F).
    exists (SelectPrivateKeys :: ups).
    split.
    + unfold print_errors.
      destruct (0 <? errorCount t)%nat; unfold throw, ret; cbn [snd called calls];
        rewrite C; cbn [called calls]; rewrite <- !app_assoc; reflexivity.
    + constructor; [now left|]. eapply Forall_impl; [|exact F]. intros c H. now right.
  - intros m He. now rewrite He.
  - intros m Hc He. rewrite He.
    unfold session, bind, client_connect, fail_with. rewrite Hc.
    unfold called. cbn [fst snd private_key calls drawn reported].
    now rewrite <- app_assoc.
Qed.

End Runs.

End RotationRuns.

Module TextFacts.
Import JSLib JSFacts.

(** *** [startsWith], [endsWith] *)

Lemma startsWith_app (p r : jsstring) : startsWith (p ++ r) p = true.
Proof.
  induction p as [|c p IH]; [now destruct r|].
  cbn [app startsWith]. now rewrite N.eqb_refl, IH.
Qed.

Lemma startsWith_prefix (s p : jsstring) :
  startsWith s p = true <-> exists r, s = p ++ r.
Proof.
  split.
  - revert s. induction p as [|c p IH]; intros s H; [now exists s|].
    destruct s as [|d s]; [discriminate|]. cbn [startsWith] in H.
    apply andb_prop in H. destruct H as [E H]. apply N.eqb_eq in E. subst d.
    destruct (IH s H) as [r ->]. now exists r.
  - intros [r ->]. apply startsWith_app.
Qed.

Lemma endsWith_app (p r : jsstring) : endsWith (r ++ p) p = true.
Proof. unfold endsWith. rewrite rev_app_distr. apply startsWith_app. Qed.


(** Only the head matters to a one-unit prefix. *)
Lemma startsWith_unit_app (t r : jsstring) (c : N) :
  t <> [] -> startsWith (t ++ r) [c] = startsWith t [c].
Proof.
  destruct t as [|d t]; [contradiction|]. intros _. cbn [app startsWith].
  now destruct (t ++ r), t.
Qed.

(** *** White space at the head *)

Lemma blank_rev (q : jsstring) : blank q -> blank (rev q).
Proof.
  unfold blank. rewrite !forallb_forall. intros H x Hx. apply H. now apply in_rev.
Qed.

Lemma blank_app (a b : jsstring) : blank a -> blank b -> blank (a ++ b).
Proof. unfold blank. intros Ha Hb. now rewrite forallb_app, Ha, Hb. Qed.

Lemma trimStart_app (a b : jsstring) :
  trimStart (a ++ b)
  = match trimStart a with
    | [] => trimStart b
    | t => t ++ b
    end.
Proof.
  induction a as [|c a IH]; [reflexivity|].
  cbn [app trimStart]. now destruct (isWhiteSpace c).
Qed.

Lemma trimStart_blank (q : jsstring) : blank q <-> trimStart q = [].
Proof.
  unfold blank. induction q as [|c q IH]; [now split|].
  cbn [forallb trimStart]. destruct (isWhiteSpace c); cbn [andb]; [exact IH|].
  split; discriminate.
Qed.

Lemma trimStart_split (s : jsstring) :
  exists q, s = q ++ trimStart s /\ blank q.
Proof.
  unfold blank. induction s as [|c s IH]; [now exists []|].
  cbn [trimStart]. destruct (isWhiteSpace c) eqn:W.
  - destruct IH as (q & E & H). exists (c :: q). cbn [app forallb].
    rewrite W, H. now rewrite <- E.
  - now exists [].
Qed.

Lemma trimStart_head (s : jsstring) (c : N) (r : jsstring) :
  trimStart s = c :: r -> isWhiteSpace c = false.
Proof.
  induction s as [|d s IH]; [discriminate|].
  cbn [trimStart]. destruct (isWhiteSpace d) eqn:W; [exact IH|].
  intros E. now injection E as <- _.
Qed.

Lemma trimStart_fixed (c : N) (r : jsstring) :
  isWhiteSpace c = false -> trimStart (c :: r) = c :: r.
Proof. intros W. cbn [trimStart]. now rewrite W. Qed.

Lemma trimStart_idem (s : jsstring) : trimStart (trimStart s) = trimStart s.
Proof.
  destruct (trimStart s) as [|c r] eqn:E; [reflexivity|].
  apply trimStart_fixed. exact (trimStart_head _ _ _ E).
Qed.

Lemma trimStart_blank_app (q s : jsstring) : blank q -> trimStart (q ++ s) = trimStart s.
Proof. intros H. apply trimStart_blank in H. now rewrite trimStart_app, H. Qed.

(** *** [trim] *)

Lemma trim_blank_l (q s : jsstring) : blank q -> trim (q ++ s) = trim s.
Proof. intros H. unfold trim. now rewrite trimStart_blank_app. Qed.

Lemma trim_blank_r (s q : jsstring) : blank q -> trim (s ++ q) = trim s.
Proof.
  intros H. unfold trim. rewrite trimStart_app.
  destruct (trimStart s) as [|c t] eqn:E.
  - apply trimStart_blank in H. now rewrite H.
  - rewrite rev_app_distr, trimStart_blank_app by now apply blank_rev.
    reflexivity.
Qed.

Lemma trim_blank (q : jsstring) : blank q -> trim q = [].
Proof. intros H. unfold trim. apply trimStart_blank in H. now rewrite H. Qed.

(** A text whose first and last units are not white space is its own trim. *)
Lemma trim_core (c d : N) (m : jsstring) :
  isWhiteSpace c = false -> isWhiteSpace d = false ->
  trim (c :: m ++ [d]) = c :: m ++ [d].
Proof.
  intros Wc Wd. unfold trim. rewrite trimStart_fixed by exact Wc.
  change (c :: m ++ [d]) with ((c :: m) ++ [d]).
  rewrite rev_app_distr. cbn [rev app]. rewrite trimStart_fixed by exact Wd.
  change (d :: rev m ++ [c]) with ([d] ++ rev (c :: m)).
  now rewrite rev_app_distr, rev_involutive.
Qed.

Lemma trim_unit (c : N) : isWhiteSpace c = false -> trim [c] = [c].
Proof. intros W. unfold trim. rewrite trimStart_fixed by exact W. cbn [rev app].
  now rewrite trimStart_fixed. Qed.



(** The last unit of the trim is the first one met from the end that is not
    white space. *)
Lemma endsWith_trim (s : jsstring) (c : N) :
  endsWith (trim s) [c] = startsWith (trimStart (rev s)) [c].
Proof.
  unfold endsWith, trim. rewrite rev_involutive. cbn [rev app].
  destruct (trimStart_split s) as (q & E & Hq).
  rewrite E at 2. rewrite rev_app_distr, trimStart_app.
  destruct (trimStart (rev (trimStart s))) as [|x t] eqn:T.
  - apply blank_rev, trimStart_blank in Hq. now rewrite Hq.
  - now rewrite startsWith_unit_app.
Qed.

Lemma endsWith_trim_app (a s : jsstring) (c : N) :
  endsWith (trim s) [c] = true -> endsWith (trim (a ++ s ++ [newline])) [c] = true.
Proof.
  rewrite !endsWith_trim. intros H.
  rewrite app_assoc, rev_app_distr. cbn [rev app trimStart isWhiteSpace].
  change (isWhiteSpace newline) with true. cbn match.
  rewrite rev_app_distr, trimStart_app.
  destruct (trimStart (rev s)) as [|x t]; [discriminate|].
  now rewrite startsWith_unit_app.
Qed.

Lemma trim_idem (s : jsstring) : trim (trim s) = trim s.
Proof.
  unfold trim at 2. set (a := trimStart s). set (u := trimStart (rev a)).
  assert (Hu : trimStart u = u) by apply trimStart_idem.
  assert (Hr : trimStart (rev u) = rev u).
  { destruct (trimStart_split (rev a)) as (q & E & Hq). fold u in E.
    apply (f_equal (@rev N)) in E. rewrite rev_involutive, rev_app_distr in E.
    destruct (rev u) as [|c r] eqn:R; [reflexivity|].
    apply trimStart_fixed.
    assert (A : trimStart a = a) by apply trimStart_idem.
    rewrite E in A. cbn [app] in A. exact (trimStart_head _ _ _ A). }
  unfold trim. now rewrite Hr, rev_involutive, Hu.
Qed.

(** *** [split] and [join] *)

Lemma split_nonempty (sep : N) (s : jsstring) : split sep s <> [].
Proof.
  induction s as [|c s IH]; [discriminate|]. cbn [split].
  destruct (c =? sep); [discriminate|]. now destruct (split sep s).
Qed.

Lemma split_cons (sep c : N) (s : jsstring) :
  c <> sep ->
  split sep (c :: s) = (c :: hd [] (split sep s)) :: tl (split sep s).
Proof.
  intros H. cbn [split]. rewrite (proj2 (N.eqb_neq _ _) H).
  pose proof (split_nonempty sep s). now destruct (split sep s).
Qed.

(** A text without the separator is one part. *)
Lemma split_one (sep : N) (s : jsstring) : ~ In sep s -> split sep s = [s].
Proof.
  induction s as [|c s IH]; intros H; [reflexivity|].
  cbn [split]. destruct (N.eqb_spec c sep) as [->|Hc].
  - exfalso. apply H. now left.
  - rewrite IH; [reflexivity|]. intros Hin. apply H. now right.
Qed.

Lemma split_app (sep : N) (a b : jsstring) :
  split sep (a ++ sep :: b) = split sep a ++ split sep b.
Proof.
  induction a as [|c a IH].
  - cbn [app split]. now rewrite N.eqb_refl.
  - cbn [app split]. destruct (c =? sep).
    + now rewrite IH.
    + rewrite IH. pose proof (split_nonempty sep a). now destruct (split sep a).
Qed.

Lemma split_join (sep : N) (e : jsstring) (entries : list jsstring) :
  split sep (join [sep] (e :: entries)) = flat_map (split sep) (e :: entries).
Proof.
  revert e. induction entries as [|e' entries IH]; intros e.
  - cbn [join flat_map]. now rewrite app_nil_r.
  - change (join [sep] (e :: e' :: entries)) with (e ++ sep :: join [sep] (e' :: entries)).
    rewrite split_app, IH. reflexivity.
Qed.

End TextFacts.

Module ParserFacts.
Import BackupRestore JSLib JSFacts TextFacts.

Lemma parse_lines_tail (tail : list jsstring) :
  Forall (fun line => endsWith (trim line) (lit ";") = false) tail ->
  forall current statements, parse_lines tail current statements = statements.
Proof.
  induction 1 as [|line tail H _ IH]; intros current statements; [reflexivity|].
  cbn [parse_lines]. rewrite H.
  destruct (startsWith (trim line) (lit "--") || eqb (trim line) []); apply IH.
Qed.

Lemma parse_lines_app_tail (tail : list jsstring) :
  Forall (fun line => endsWith (trim line) (lit ";") = false) tail ->
  forall lines current statements,
    parse_lines (lines ++ tail) current statements = parse_lines lines current statements.
Proof.
  intros H. induction lines as [|line lines IH]; intros current statements.
  - cbn [app parse_lines]. now apply parse_lines_tail.
  - cbn [app parse_lines].
    destruct (startsWith (trim line) (lit "--") || eqb (trim line) []); [apply IH|].
    destruct (endsWith (trim line) (lit ";")); apply IH.
Qed.

Lemma parse_lines_skip (x : jsstring) (after : list jsstring) :
  startsWith (trim x) (lit "--") = true \/ trim x = [] ->
  forall before current statements,
    parse_lines (before ++ x :: after) current statements
    = parse_lines (before ++ after) current statements.
Proof.
  intros H. induction before as [|line before IH]; intros current statements.
  - cbn [app parse_lines].
    replace (startsWith (trim x) (lit "--") || eqb (trim x) []) with true; [reflexivity|].
    destruct H as [H|H]; [now rewrite H|]. rewrite H. cbn [eqb]. now rewrite orb_true_r.
  - cbn [app parse_lines].
    destruct (startsWith (trim line) (lit "--") || eqb (trim line) []); [apply IH|].
    destruct (endsWith (trim line) (lit ";")); apply IH.
Qed.

(** What is pushed on [statements] ends with a semicolon and is trimmed. *)
Lemma parse_lines_invariant (P : jsstring -> Prop) :
  (forall current line,
     endsWith (trim line) (lit ";") = true -> P (trim (current ++ line ++ [newline]))) ->
  forall lines current statements,
    Forall P statements -> Forall P (parse_lines lines current statements).
Proof.
  intros HP. induction lines as [|line lines IH]; intros current statements F; [exact F|].
  cbn [parse_lines].
  destruct (startsWith (trim line) (lit "--") || eqb (trim line) []); [now apply IH|].
  destruct (endsWith (trim line) (lit ";")) eqn:E; apply IH; [|exact F].
  apply Forall_app. split; [exact F|]. constructor; [|constructor]. now apply HP.
Qed.

(** X4: every statement the parser hands to the player ends with a
    semicolon, is not empty and carries no white space at either end. *)
Theorem parsed_statements_terminated (content stmt : jsstring) :
  In stmt (parseStatements content) ->
  endsWith stmt (lit ";") = true /\ stmt <> [] /\ trim stmt = stmt.
Proof.
  intros Hin.
  assert (F : Forall (fun s => endsWith s (lit ";") = true /\ trim s = s)
                (parseStatements content)).
  { unfold parseStatements. apply parse_lines_invariant; [|constructor].
    intros current line E. split.
    - now apply endsWith_trim_app.
    - apply trim_idem. }
  rewrite Forall_forall in F. destruct (F stmt Hin) as [E T].
  repeat split; try assumption. intros ->. discriminate.
Qed.

(** X5: what follows the last line that ends with a semicolon is never
    played: adding lines none of which ends with a semicolon (white space
    aside) to a backup file leaves the parsed statements as they were, and
    a file without such a line holds no statement. *)
Theorem unterminated_tail_dropped (content tail : jsstring) :
  Forall (fun line => endsWith (trim line) (lit ";") = false) (split newline tail) ->
  parseStatements (content ++ newline :: tail) = parseStatements content
  /\ parseStatements tail = [].
Proof.
  intros H. unfold parseStatements. split.
  - rewrite split_app. now apply parse_lines_app_tail.
  - now apply parse_lines_tail.
Qed.

(** X6: a blank line and a line that starts with two dashes (white space
    aside) are dropped wherever they stand, inside a statement that spans
    lines as well as between statements. *)
Theorem blank_and_comment_lines_dropped (before line after : jsstring) :
  ~ In newline line ->
  startsWith (trim line) (lit "--") = true \/ trim line = [] ->
  parseStatements (before ++ newline :: line ++ newline :: after)
  = parseStatements (before ++ newline :: after).
Proof.
  intros One H. unfold parseStatements.
  rewrite !split_app, (split_one _ _ One). cbn [app].
  now apply parse_lines_skip.
Qed.

End ParserFacts.

Module SnapshotParse.
Import BackupRestore JSLib SnapshotText JSFacts BufferFacts TextFacts ParserFacts WriterFacts.

(** *** Texts on one line *)

Lemma one_line_app (a b : jsstring) : one_line (a ++ b) <-> one_line a /\ one_line b.
Proof. unfold one_line. rewrite in_app_iff. tauto. Qed.

Lemma one_line_test (s : jsstring) : existsb (N.eqb newline) s = false -> one_line s.
Proof.
  intros H Hin. assert (E : existsb (N.eqb newline) s = true).
  { apply existsb_exists. exists newline. split; [exact Hin | apply N.eqb_refl]. }
  congruence.
Qed.

Lemma one_line_quoted (s : jsstring) : one_line s -> one_line (quoted s).
Proof.
  intros H. unfold quoted. change (dquote :: s ++ [dquote]) with ([dquote] ++ s ++ [dquote]).
  rewrite !one_line_app. repeat split; try exact H; now apply one_line_test.
Qed.


Lemma one_line_digits (u : Decimal.uint) : one_line (digits u).
Proof.
  induction u; cbn [digits]; try (now apply one_line_test);
    (intros [H|H]; [discriminate | now apply IHu]).
Qed.

Lemma one_line_number (n : Z) : one_line (numberToString n).
Proof.
  destruct n; cbn [numberToString]; [now apply one_line_test | apply one_line_digits |].
  intros [H|H]; [discriminate | now apply one_line_digits in H].
Qed.


Ltac one_line_lit := apply one_line_test; reflexivity.

(** *** Lines and what the parser does with them *)







(** *** Shapes *)

Lemma trim_wrapped (p x q : jsstring) :
  p <> [] -> trimStart p = p -> q <> [] -> trimStart (rev q) = rev q ->
  trim (p ++ x ++ q) = p ++ x ++ q.
Proof.
  intros Hp Tp Hq Tq.
  destruct p as [|c p]; [contradiction|].
  destruct (rev q) as [|d q'] eqn:R.
  { apply (f_equal (@rev N)) in R. rewrite rev_involutive in R. contradiction. }
  apply (f_equal (@rev N)) in R. rewrite rev_involutive in R. cbn [rev] in R. subst q.
  pose proof (trimStart_head _ _ _ Tp) as Wc. pose proof (trimStart_head _ _ _ Tq) as Wd.
  replace ((c :: p) ++ x ++ rev q' ++ [d]) with (c :: (p ++ x ++ rev q') ++ [d])
    by (cbn [app]; now rewrite <- !app_assoc).
  now apply trim_core.
Qed.



Lemma split_line (s : jsstring) : one_line s -> split newline s = [s].
Proof. apply split_one. Qed.

(** *** The schema text *)






(** *** The statements on one line *)







Lemma flat_map_split_lines (l : list jsstring) :
  Forall one_line l -> flat_map (split newline) l = l.
Proof.
  induction 1 as [|e l H _ IH]; [reflexivity|].
  cbn [flat_map]. now rewrite (split_line e H), IH.
Qed.


(** *** One table *)





End SnapshotParse.

Module RestoreFailures.
Import BackupRestore Replies RestoreFacts.

(** X8: on the path without a container, with [input_file] the text read
    from the backup file, a restore throws in these cases only.  The file is
    missing: the message names the path and the session is untouched.
    Before any statement of the file is sent: a connection is refused or
    the database cannot be recreated, and the message starts with
    "Restore failed: "; or [drop] was asked and closing the administrative
    client fails, and the message is that failure's own.  After every
    statement of the file was sent: closing the client fails.  A statement
    that fails never makes the restore throw. *)
Theorem restore_throws_before_or_after (server : Server) (renv : RestoreEnv)
  (inputPath : jsstring) (drop : bool) (s s' : Session server) (m : jsstring) :
  restoreDatabase server renv inputPath drop s = (Throw m, s') ->
  (input_file renv = None /\ m = lit "Backup file not found: " ++ inputPath /\ s' = s)
  \/ (sent server s' = sent server s
      /\ ((exists e, m = restore_failed e)
          \/ (drop = true /\ admin_connect_error renv = None
              /\ admin_end_error renv = Some m)))
  \/ (exists content,
        input_file renv = Some content /\ end_error renv = Some m
        /\ sent server s' = sent server s ++ parseStatements content).
Proof.
  unfold restoreDatabase.
  destruct (input_file renv) as [content|].
  2:{ unfold throw. intros E. injection E as <- <-. now left. }
  unfold bind at 1.
  destruct ((if drop then recreate_database server renv else ret tt) s) as [[[]|e] s0] eqn:E0.
  - assert (Hs : sent server s0 = sent server s).
    { destruct drop.
      - exact (proj1 (recreate_keeps_sent server renv s _ s0 E0)).
      - unfold ret in E0. now injection E0 as <-. }
    destruct (connect_error renv) as [e|].
    { unfold throw. intros E. injection E as <- <-. right. left.
      split; [exact Hs|]. left. now exists e. }
    unfold bind. rewrite replay_continues.
    destruct (end_error renv) as [e|]; unfold throw, ret; intros E; [|discriminate].
    injection E as <- <-. right. right. exists content. cbn [sent]. now rewrite Hs.
  - intros E. injection E as <- <-. right. left. destruct drop.
    + destruct (recreate_keeps_sent server renv s _ s0 E0) as [Hs He].
      split; [exact Hs|]. destruct (He e eq_refl) as [H|[H1 H2]]; [now left|].
      right. now repeat split.
    + unfold ret in E0. discriminate.
Qed.

End RestoreFailures.

Module PrimaryKeyFacts.
Import BackupRestore JSLib SnapshotText JSFacts WriterFacts.

(** X9: [getPrimaryKeys] groups the constraint rows by table: when no row
    names a table like a property of [Object.prototype], it returns, and
    reading a table that is not named so gives its key columns in the order
    of the rows, and [undefined] for a table without a row.  A row that
    names a table like a property of [Object.prototype] makes it throw the
    [TypeError] of [push]. *)
Theorem primary_keys_grouped (constraint_rows : list (jsstring * jsstring)) (t : jsstring) :
  (Forall (fun r => array_includes object_prototype_names (fst r) = false) constraint_rows ->
   array_includes object_prototype_names t = false ->
   exists pks,
     getPrimaryKeys constraint_rows = Return pks
     /\ pk_get pks t
        = match key_columns constraint_rows t with
          | [] => None
          | cols => Some cols
          end
     /\ pk_property pks t
        = match key_columns constraint_rows t with
          | [] => Undefined
          | cols => Own cols
          end)
  /\ ((exists r, In r constraint_rows
                 /\ array_includes object_prototype_names (fst r) = true) ->
      getPrimaryKeys constraint_rows = Throw push_not_a_function).
Proof.
  split; [|apply getPrimaryKeys_throws].
  intros F Ht. exists (grouped constraint_rows).
  split; [now apply getPrimaryKeys_returns|].
  split; [unfold grouped; now rewrite pk_get_fold | now apply pk_property_grouped].
Qed.

End PrimaryKeyFacts.

Module SqlLiteralFacts.
Import BackupRestore ChangePassword SqlLiteral.

Lemma read_doubled (text rest : jsstring) :
  startsWith rest [squote] = false ->
  read (doubleQuotes text ++ squote :: rest) = Some (text, rest).
Proof.
  intros H. induction text as [|c text IH].
  - cbn [doubleQuotes app read]. change (squote =? squote) with true. cbn match.
    destruct rest as [|d rest]; [reflexivity|].
    destruct (N.eqb_spec d squote) as [->|Hd]; [|reflexivity].
    cbn [startsWith] in H. change (squote =? squote) with true in H.
    now destruct rest.
  - cbn [doubleQuotes]. destruct (c =? squote) eqn:E.
    + apply N.eqb_eq in E. subst c. cbn [app read].
      change (squote =? squote) with true. cbn match. now rewrite IH.
    + cbn [app read]. now rewrite E, IH.
Qed.

(** X10: the quotes are doubled so that the server reads the text back: the
    password in the ALTER USER statement and a text value in an INSERT
    statement are string constants whose value is the original text, and
    what follows the constant is what the statement put there, whatever
    quotes the text holds. *)
Theorem quoted_text_reads_back :
  (forall userToChange newPassword,
     alter_user userToChange newPassword
     = (lit "ALTER USER " ++ userToChange ++ lit " WITH PASSWORD ")
       ++ squote :: doubleQuotes newPassword ++ lit "';"
     /\ read (doubleQuotes newPassword ++ lit "';") = Some (newPassword, lit ";"))
  /\ (forall text rest,
        startsWith rest [squote] = false ->
        serializeValue (VOther text)
        = Return (CString (squote :: doubleQuotes text ++ [squote]))
        /\ cellToString (CString (squote :: doubleQuotes text ++ [squote]))
           = squote :: doubleQuotes text ++ [squote]
        /\ read (doubleQuotes text ++ [squote] ++ rest) = Some (text, rest)).
Proof.
  split.
  - intros userToChange newPassword. split.
    + unfold alter_user. now rewrite <- !app_assoc.
    + now apply (read_doubled newPassword (lit ";")).
  - intros text rest H. split; [reflexivity|]. split; [reflexivity|].
    now apply read_doubled.
Qed.

End SqlLiteralFacts.

Module GeneratorFacts.
Import RotateKey RotationOutcome KeyGenerators JSLib BufferFacts JSFacts.

Lemma below (P : N -> bool) (k : nat) :
  forallb P (map N.of_nat (seq 0 k)) = true -> forall n, n < N.of_nat k -> P n = true.
Proof.
  intros H n Hn. rewrite forallb_forall in H. apply H.
  apply in_map_iff. exists (N.to_nat n). split; [apply N2Nat.id|].
  apply in_seq. lia.
Qed.

Lemma to_N_below (b : byte) : Byte.to_N b < 256.
Proof. pose proof (Byte.to_N_bounded b). lia. Qed.

Lemma hexDigit_lower (n : N) :
  n < 16 -> (isDigit (hexDigit n) || ((97 <=? hexDigit n) && (hexDigit n <=? 102))) = true.
Proof.
  apply (below (fun n => isDigit (hexDigit n)
                         || ((97 <=? hexDigit n) && (hexDigit n <=? 102))) 16).
  reflexivity.
Qed.

Lemma to_hex_lower (b : bytes) :
  forallb (fun c => isDigit c || ((97 <=? c) && (c <=? 102))) (to_hex b) = true.
Proof.
  induction b as [|x b IH]; [reflexivity|].
  cbn [to_hex flat_map app forallb]. fold (to_hex b). rewrite IH.
  pose proof (to_N_below x) as Hx.
  rewrite !hexDigit_lower; [reflexivity| |].
  - apply N.mod_lt. discriminate.
  - apply N.Div0.div_lt_upper_bound. exact Hx.
Qed.

Lemma to_hex_length (b : bytes) : length (to_hex b) = (2 * length b)%nat.
Proof.
  induction b as [|x b IH]; [reflexivity|].
  cbn [to_hex flat_map app length]. fold (to_hex b). rewrite IH. lia.
Qed.

Lemma lower_is_hex (s : jsstring) :
  forallb (fun c => isDigit c || ((97 <=? c) && (c <=? 102))) s = true ->
  forallb isHexDigit s = true.
Proof.
  rewrite !forallb_forall. intros H c Hc. specialize (H c Hc).
  unfold isHexDigit, isDigit in *. now rewrite H.
Qed.

(** X11: whatever the random source gives, [generateKey] returns 64
    lower-case hexadecimal digits that spell the 32 bytes drawn: a key that
    the format check of the rotation accepts, as old key and as new key. *)
Theorem generated_key_is_valid (env : Environment) (w : World) :
  exists key,
    generateKey env w = (Return key, after_draw 32 w)
    /\ length key = 64%nat
    /\ forallb (fun c => isDigit c || ((97 <=? c) && (c <=? 102))) key = true
    /\ isHex64 key = true
    /\ from_hex key = map (entropy env) (seq (drawn w) 32).
Proof.
  exists (to_hex (map (entropy env) (seq (drawn w) 32))).
  assert (L : length (to_hex (map (entropy env) (seq (drawn w) 32))) = 64%nat)
    by now rewrite to_hex_length, length_map, length_seq.
  split; [reflexivity|]. split; [exact L|]. split; [apply to_hex_lower|]. split.
  - unfold isHex64. rewrite L. cbn [Nat.eqb andb]. apply lower_is_hex, to_hex_lower.
  - apply from_hex_to_hex.
Qed.

(** *** Passwords *)

Lemma fold_append {A} (f : A -> jsstring) (l : list A) : forall init,
  fold_left (fun password i => password ++ f i) l init = init ++ flat_map f l.
Proof.
  induction l as [|a l IH]; intros init; cbn [fold_left flat_map].
  - now rewrite app_nil_r.
  - now rewrite IH, app_assoc.
Qed.

Lemma char_at_chars (b : byte) :
  exists c, char_at chars (Byte.to_N b mod N.of_nat (length chars)) = [c]
            /\ In c chars /\ c <> squote.
Proof.
  assert (H : forall n, n < 256 ->
            match nth_error chars (N.to_nat (n mod N.of_nat (length chars))) with
            | Some c => existsb (N.eqb c) chars && negb (c =? squote)
            | None => false
            end = true).
  { apply (below (fun n =>
             match nth_error chars (N.to_nat (n mod N.of_nat (length chars))) with
             | Some c => existsb (N.eqb c) chars && negb (c =? squote)
             | None => false
             end) 256). vm_compute. reflexivity. }
  specialize (H (Byte.to_N b) (to_N_below b)). unfold char_at.
  destruct (nth_error chars _) as [c|]; [|discriminate].
  apply andb_prop in H. destruct H as [H1 H2].
  exists c. split; [reflexivity|]. split.
  - apply existsb_exists in H1. destruct H1 as (x & Hx & E). apply N.eqb_eq in E. now subst x.
  - intros ->. discriminate.
Qed.

Lemma password_units (buf : bytes) : forall k,
  (k <= length buf)%nat ->
  exists pw,
    flat_map (password_char buf) (seq (length buf - k) k) = pw
    /\ length pw = k /\ Forall (fun c => In c chars /\ c <> squote) pw.
Proof.
  induction k as [|k IH]; intros Hk.
  - exists []. split; [reflexivity|]. split; [reflexivity|constructor].
  - cbn [seq flat_map].
    destruct (nth_error buf (length buf - S k)) as [b|] eqn:E.
    2:{ apply nth_error_None in E. lia. }
    destruct (char_at_chars b) as (c & Ec & Hin & Hq).
    replace (S (length buf - S k)) with (length buf - k)%nat by lia.
    destruct (IH ltac:(lia)) as (pw & Epw & L & F).
    exists (c :: pw). unfold password_char at 1. rewrite E, Ec, Epw. cbn [app length].
    split; [reflexivity|]. split; [now rewrite L | now constructor].
Qed.

Lemma no_quote_no_doubling (s : jsstring) :
  Forall (fun c => c <> squote) s -> doubleQuotes s = s.
Proof.
  induction 1 as [|c s H _ IH]; [reflexivity|].
  cbn [doubleQuotes]. now rewrite (proj2 (N.eqb_neq _ _) H), IH.
Qed.

Lemma generated_password (env : Environment) (length : nat) (w : World) :
  exists password,
    generatePassword env length w = (Return password, after_draw length w)
    /\ List.length password = length
    /\ Forall (fun c => In c chars) password
    /\ doubleQuotes password = password.
Proof.
  unfold generatePassword, bind, crypto_randomBytes, randomBytes, ret.
  set (buf := map (entropy env) (seq (drawn w) length)).
  assert (Lb : List.length buf = length) by (unfold buf; now rewrite length_map, length_seq).
  destruct (password_units buf length ltac:(lia)) as (pw & E & L & F).
  rewrite Lb, Nat.sub_diag in E.
  exists pw. rewrite fold_append, E. cbn [app].
  split; [reflexivity|]. split; [exact L|]. split.
  - eapply Forall_impl; [|exact F]. now intros c [H _].
  - apply no_quote_no_doubling. eapply Forall_impl; [|exact F]. now intros c [_ H].
Qed.

(** X12: [generatePassword(length)] draws [length] random bytes and returns
    [length] characters, every one taken from the 70 characters of
    [chars]. *)
Theorem generated_password_shape (env : Environment) (length : nat) (w : World) :
  exists password,
    generatePassword env length w = (Return password, after_draw length w)
    /\ List.length password = length
    /\ Forall (fun c => In c chars) password.
Proof.
  destruct (generated_password env length w) as (pw & E & L & F & _).
  now exists pw.
Qed.

(** X13: the characters are not drawn evenly: a byte is reduced modulo 70,
    so each of the first 46 characters of [chars] comes from four of the 256
    byte values and each of the other 24 from three. *)
Theorem password_characters_uneven (i : nat) :
  (i < 70)%nat ->
  List.length
    (filter (fun b => eqb (password_char [b] 0) (char_at chars (N.of_nat i))) all_bytes)
  = if (i <? 46)%nat then 4%nat else 3%nat.
Proof.
  intros Hi.
  assert (H : forallb
                (fun n =>
                   (List.length
                      (filter (fun b => eqb (password_char [b] 0) (char_at chars n)) all_bytes)
                    =? (if (n <? 46)%N then 4 else 3))%nat)
                (map N.of_nat (seq 0 70)) = true) by (vm_compute; reflexivity).
  pose proof (below _ 70 H (N.of_nat i) ltac:(lia)) as E. cbn beta in E.
  apply Nat.eqb_eq in E. rewrite E.
  destruct (Nat.ltb_spec i 46); destruct (N.ltb_spec (N.of_nat i) 46); try lia; reflexivity.
Qed.

End GeneratorFacts.

Module ChangePasswordFacts.
Import RotateKey RotationOutcome KeyGenerators DbUtils Outside ChangePassword.
Import JSLib JSFacts GeneratorFacts.

Lemma short_password (p : jsstring) :
  (length p < 8)%nat -> eqb p [] || (length p <? 8)%nat = true.
Proof. intros H. rewrite (proj2 (Nat.ltb_lt _ _) H). apply orb_true_r. Qed.

Lemma long_password (p : jsstring) :
  (8 <= length p)%nat -> eqb p [] || (length p <? 8)%nat = false.
Proof.
  intros H. rewrite (proj2 (Nat.ltb_ge _ _) H).
  destruct p; [cbn in H; lia | reflexivity].
Qed.

(** X14: [changePassword] checks the length first: a password of fewer than
    8 characters is refused before anything is run or connected.  A longer
    one is sent in one ALTER USER statement for the target user (the
    connecting user when no target is given): through [docker exec] when a
    container is named, else over a client connected to the [postgres]
    database, which is then closed; the result is [success: true]. *)
Theorem change_password_checks_first (out : Answers) (o : ChangePasswordOptions) (log : Log) :
  ((length (newPassword o) < 8)%nat ->
   changePassword out o log
   = (Throw (lit "New password must be at least 8 characters"), log))
  /\ (forall c name stdout,
        (8 <= length (newPassword o))%nat -> container o = Some (c :: name) ->
        exec out (lit "docker exec " ++ (c :: name) ++ lit " psql -U " ++ user (dbConfig o)
                  ++ lit " -c "
                  ++ quoted (alter_user (or_else (targetUser o) (user (dbConfig o)))
                               (newPassword o))) = Return stdout ->
        changePassword out o log
        = (Return true,
           log ++ [Exec (lit "docker exec " ++ (c :: name) ++ lit " psql -U "
                         ++ user (dbConfig o) ++ lit " -c "
                         ++ quoted (alter_user (or_else (targetUser o) (user (dbConfig o)))
                                      (newPassword o)))]))
  /\ (forall rows,
        (8 <= length (newPassword o))%nat ->
        container o = None \/ container o = Some [] ->
        connect out {| host := host (dbConfig o); port := port (dbConfig o);
                       database := lit "postgres"; user := user (dbConfig o);
                       password := password (dbConfig o); ssl := ssl (dbConfig o) |} = None ->
        run out (alter_user (or_else (targetUser o) (user (dbConfig o))) (newPassword o))
        = Return rows ->
        close out = None ->
        changePassword out o log
        = (Return true,
           log ++ [ClientConnect {| host := host (dbConfig o); port := port (dbConfig o);
                                    database := lit "postgres"; user := user (dbConfig o);
                                    password := password (dbConfig o);
                                    ssl := ssl (dbConfig o) |};
                   ClientQuery (alter_user (or_else (targetUser o) (user (dbConfig o)))
                                  (newPassword o));
                   ClientEnd])).
Proof.
  split; [|split].
  - intros H. unfold changePassword. now rewrite short_password.
  - intros c name stdout H Hc He. unfold changePassword. rewrite long_password, Hc by exact H.
    unfold bind, try_catch, execAsync, ret. now rewrite He.
  - intros rows H Hc Hcon Hrun Hclose. unfold changePassword. rewrite long_password by exact H.
    destruct Hc as [Hc|Hc]; rewrite Hc;
      unfold bind, try_catch, client_connect, client_query, client_end, ret;
      rewrite Hcon, Hrun, Hclose; now rewrite <- !app_assoc.
Qed.

Lemma change_password_throws (out : Answers) (o : ChangePasswordOptions)
  (log log' : Log) (m : jsstring) :
  (8 <= length (newPassword o))%nat ->
  changePassword out o log = (Throw m, log') ->
  exists e,
    m = password_change_failed e
    /\ ((exists command, log' = log ++ [Exec command] /\ exec out command = Throw e)
        \/ (exists config,
              connect out config = Some e /\ log' = log ++ [ClientConnect config])
        \/ (exists config sql,
              run out sql = Throw e
              /\ log' = log ++ [ClientConnect config; ClientQuery sql])
        \/ (exists config sql,
              close out = Some e
              /\ log' = log ++ [ClientConnect config; ClientQuery sql; ClientEnd])).
Proof.
  intros H. unfold changePassword. rewrite long_password by exact H.
  assert (Client :
    (let config := {| host := host (dbConfig o); port := port (dbConfig o);
                      database := lit "postgres"; user := user (dbConfig o);
                      password := password (dbConfig o); ssl := ssl (dbConfig o) |} in
     bind (try_catch
             (bind (client_connect out config)
                (fun _ => bind (client_query out
                                  (alter_user (or_else (targetUser o) (user (dbConfig o)))
                                     (newPassword o)))
                            (fun _ => client_end out)))
             (fun m0 => throw (password_change_failed m0)))
       (fun _ => ret true)) log = (Throw m, log') ->
    exists e,
      m = password_change_failed e
      /\ ((exists command, log' = log ++ [Exec command] /\ exec out command = Throw e)
          \/ (exists config,
                connect out config = Some e /\ log' = log ++ [ClientConnect config])
          \/ (exists config sql,
                run out sql = Throw e
                /\ log' = log ++ [ClientConnect config; ClientQuery sql])
          \/ (exists config sql,
                close out = Some e
                /\ log' = log ++ [ClientConnect config; ClientQuery sql; ClientEnd]))).
  { cbv zeta. unfold bind, try_catch, client_connect, client_query, client_end, throw, ret.
    destruct (connect out _) as [e|] eqn:Ec.
    { intros E. injection E as <- <-. exists e. split; [reflexivity|].
      right. left. eexists. split; [exact Ec | reflexivity]. }
    destruct (run out _) as [rows|e] eqn:Er.
    2:{ intros E. injection E as <- <-. exists e. split; [reflexivity|].
        right. right. left. eexists _, _. split; [exact Er|]. now rewrite <- app_assoc. }
    destruct (close out) as [e|] eqn:Ee; [|discriminate].
    intros E. injection E as <- <-. exists e. split; [reflexivity|].
    right. right. right. eexists _, _. split; [reflexivity|]. now rewrite <- !app_assoc. }
  destruct (container o) as [[|c name]|]; try exact Client.
  unfold bind, try_catch, execAsync, throw, ret.
  destruct (exec out _) as [stdout|e] eqn:Ee; [discriminate|].
  intros E. injection E as <- <-. exists e. split; [reflexivity|].
  left. eexists. split; [reflexivity | exact Ee].
Qed.

(** X15: once the length check passed, every failure is thrown again with
    the prefix "Password change failed: ".  In the client path the client is
    closed only after the statement succeeded: a refused connection and a
    failed statement leave it open. *)
Theorem change_password_failures (out : Answers) (o : ChangePasswordOptions)
  (log log' : Log) (m : jsstring) :
  (8 <= length (newPassword o))%nat ->
  changePassword out o log = (Throw m, log') ->
  exists e,
    m = password_change_failed e
    /\ ((exists command, log' = log ++ [Exec command] /\ exec out command = Throw e)
        \/ (exists config,
              connect out config = Some e /\ log' = log ++ [ClientConnect config])
        \/ (exists config sql,
              run out sql = Throw e
              /\ log' = log ++ [ClientConnect config; ClientQuery sql])
        \/ (exists config sql,
              close out = Some e
              /\ log' = log ++ [ClientConnect config; ClientQuery sql; ClientEnd])).
Proof. apply change_password_throws. Qed.

(** X16: a generated password of 8 characters or more passes the length
    check of [changePassword], and since its characters hold no quote it
    stands in the ALTER USER statement exactly as it was generated. *)
Theorem generated_password_accepted (env : Environment) (length : nat) (w : World) :
  (8 <= length)%nat ->
  exists password,
    generatePassword env length w = (Return password, after_draw length w)
    /\ (forall userToChange,
          alter_user userToChange password
          = lit "ALTER USER " ++ userToChange ++ lit " WITH PASSWORD '"
            ++ password ++ lit "';")
    /\ (forall out target container config log,
          fst (changePassword out
                 {| newPassword := password; targetUser := target;
                    ChangePassword.container := container; dbConfig := config |} log)
          <> Throw (lit "New password must be at least 8 characters")).
Proof.
  intros H. destruct (generated_password env length w) as (pw & E & L & _ & Q).
  exists pw. split; [exact E|]. split.
  - intros u. unfold alter_user. now rewrite Q.
  - intros out target container config log.
    destruct (changePassword out _ log) as [r log'] eqn:C. cbn [fst]. intros ->.
    apply change_password_throws in C; [|cbn [newPassword]; lia].
    destruct C as (e & Em & _). discriminate.
Qed.

End ChangePasswordFacts.

Module DbUtilsFacts.
Import JSLib DbUtils JSFacts TextFacts.

Lemma literal_accepts (p s : jsstring) (k : jsstring -> bool) :
  literal p k (p ++ s) = k s.
Proof.
  induction p as [|c p IH]; [reflexivity|].
  cbn [literal app]. unfold then_, unit_of. now rewrite N.eqb_refl, IH.
Qed.

Lemma literal_i_accepts (p p' s : jsstring) (k : jsstring -> bool) :
  toLowerCase p' = toLowerCase p -> literal_i p k (p' ++ s) = k s.
Proof.
  revert p'. induction p as [|c p IH]; intros [|d p'] E; try discriminate; [reflexivity|].
  cbn [toLowerCase map] in E. injection E as Ec Ep.
  cbn [literal_i app]. unfold then_, unit_of.
  rewrite (IH p' Ep). cbn [toLowerCase map]. rewrite Ec, eqb_refl. now rewrite orb_true_r.
Qed.

Lemma digits_1_3_accepts (a s : jsstring) (k : jsstring -> bool) :
  octet a -> k s = true -> digits_1_3 k (a ++ s) = true.
Proof.
  intros (Hne & Hl & Hd) Hk.
  destruct a as [|a1 [|a2 [|a3 [|a4 a]]]]; try contradiction; cbn [length] in Hl; try lia;
    cbn [forallb] in Hd; repeat (apply andb_prop in Hd; destruct Hd as [? Hd]);
    unfold digits_1_3, then_, optional, unit_of; cbn [app];
    repeat match goal with H : isDigit _ = true |- _ => rewrite H; clear H end;
    rewrite Hk; cbn [andb orb]; rewrite ?orb_true_r; reflexivity.
Qed.

Lemma dotted_tail_accepts (a b c : jsstring) :
  octet a -> octet b -> octet c ->
  dotted_tail (lit "." ++ a ++ lit "." ++ b ++ lit "." ++ c) = true.
Proof.
  intros Ha Hb Hc. unfold dotted_tail, then_.
  rewrite literal_accepts. apply digits_1_3_accepts; [exact Ha|].
  rewrite literal_accepts. apply digits_1_3_accepts; [exact Hb|].
  rewrite literal_accepts. rewrite <- (app_nil_r c).
  now apply digits_1_3_accepts.
Qed.

(** X17: every dotted address 127.a.b.c whose three last parts are one to
    three digits is a local host, and so is its IPv4-mapped form behind
    "::ffff:" in either letter case: the default for such a host is a
    connection without TLS. *)
Theorem loopback_is_local (a b c : jsstring) :
  octet a -> octet b -> octet c ->
  isLocalHost (lit "127" ++ lit "." ++ a ++ lit "." ++ b ++ lit "." ++ c) = true
  /\ (forall p,
        toLowerCase p = lit "::ffff:127" ->
        isLocalHost (p ++ lit "." ++ a ++ lit "." ++ b ++ lit "." ++ c) = true)
  /\ (forall port database user password overrideDatabase,
        client_ssl
          (buildClientConfig
             {| host := lit "127" ++ lit "." ++ a ++ lit "." ++ b ++ lit "." ++ c;
                port := port; database := database; user := user; password := password;
                ssl := None |} overrideDatabase) = None).
Proof.
  intros Ha Hb Hc.
  assert (V4 : isLocalHost (lit "127" ++ lit "." ++ a ++ lit "." ++ b ++ lit "." ++ c) = true).
  { unfold isLocalHost.
    assert (L : loopback_v4 (lit "127" ++ lit "." ++ a ++ lit "." ++ b ++ lit "." ++ c) = true)
      by (unfold loopback_v4; rewrite literal_accepts; now apply dotted_tail_accepts).
    rewrite L. destruct (eqb _ []); [reflexivity|]. now destruct (array_includes localHosts _). }
  split; [exact V4|]. split.
  - intros p Hp. unfold isLocalHost.
    assert (L : loopback_mapped (p ++ lit "." ++ a ++ lit "." ++ b ++ lit "." ++ c) = true).
    { unfold loopback_mapped. rewrite literal_i_accepts by exact Hp.
      now apply dotted_tail_accepts. }
    rewrite L. destruct (eqb _ []); [reflexivity|].
    destruct (array_includes localHosts _); [reflexivity|]. now destruct (loopback_v4 _).
  - intros port database user password overrideDatabase.
    unfold buildClientConfig. cbn [host ssl ssl_enabled is_true is_not_false client_ssl].
    now rewrite V4.
Qed.

(** X18: the TLS decision of [buildClientConfig]: [ssl.enabled = false]
    switches TLS off for every host and [ssl.enabled = true] switches it on
    for every host; when [enabled] is not given, TLS is on exactly for the
    hosts that are not local.  With TLS on, the certificate is checked
    unless [rejectUnauthorized] was given as [false].  An empty database
    override leaves the configured database; host, port, user and password
    are passed on as they are. *)
Theorem tls_decision (dbConfig : DbConfig) (overrideDatabase : option jsstring) :
  (ssl_enabled (ssl dbConfig) = Some false ->
   client_ssl (buildClientConfig dbConfig overrideDatabase) = None)
  /\ (ssl_enabled (ssl dbConfig) = Some true ->
      client_ssl (buildClientConfig dbConfig overrideDatabase)
      = Some (is_not_false (ssl_rejectUnauthorized (ssl dbConfig))))
  /\ (ssl_enabled (ssl dbConfig) = None ->
      client_ssl (buildClientConfig dbConfig overrideDatabase)
      = if isLocalHost (host dbConfig) then None
        else Some (is_not_false (ssl_rejectUnauthorized (ssl dbConfig))))
  /\ (client_ssl (buildClientConfig dbConfig overrideDatabase) = Some false ->
      ssl_rejectUnauthorized (ssl dbConfig) = Some false)
  /\ (overrideDatabase = None \/ overrideDatabase = Some [] ->
      client_database (buildClientConfig dbConfig overrideDatabase) = database dbConfig)
  /\ client_host (buildClientConfig dbConfig overrideDatabase) = host dbConfig
  /\ client_port (buildClientConfig dbConfig overrideDatabase) = port dbConfig
  /\ client_user (buildClientConfig dbConfig overrideDatabase) = user dbConfig
  /\ client_password (buildClientConfig dbConfig overrideDatabase) = password dbConfig.
Proof.
  unfold buildClientConfig. cbn [client_ssl client_database client_host client_port
                                 client_user client_password].
  repeat match goal with |- _ /\ _ => split end; try reflexivity.
  - intros E. rewrite E. cbn [is_true is_not_false]. now rewrite andb_false_r.
  - intros E. now rewrite E.
  - intros E. rewrite E. cbn [is_true is_not_false orb]. rewrite andb_true_r.
    now destruct (isLocalHost (host dbConfig)).
  - destruct (is_true _ || _); [|discriminate].
    intros E. injection E as E.
    destruct (ssl_rejectUnauthorized (ssl dbConfig)) as [[|]|]; try discriminate; reflexivity.
  - intros [-> | ->]; reflexivity.
Qed.

End DbUtilsFacts.

Module ReportFacts.
Import JSLib DbUtils Outside Reports JSFacts TextFacts.

(** *** [formatSize] *)

Lemma nearest_hundredth (p q : N) :
  0 < q ->
  let n := (200 * p + q) / (2 * q) in
  2 * q * n <= 200 * p + q /\ 200 * p + q < 2 * q * n + 2 * q.
Proof.
  intros Hq n. subst n.
  pose proof (N.div_mod (200 * p + q) (2 * q) ltac:(lia)) as Dm.
  pose proof (N.mod_lt (200 * p + q) (2 * q) ltac:(lia)) as Ml.
  revert Dm Ml.
  generalize ((200 * p + q) / (2 * q)) as n, ((200 * p + q) mod (2 * q)) as r.
  intros n r Dm Ml. nia.
Qed.

(** X19: for a byte count that a number holds exactly, [formatSize] prints
    a count below 1024 as it is, a count below 1024 * 1024 in KB and any
    other in MB, the figure being the number of hundredths nearest to the
    size in that unit (the larger one at a tie), printed with two decimals.
    The KB figure therefore runs from 1.00 up to 1024.00, which the last
    five byte counts below 1 MB show. *)
Theorem format_size_rounds (bytes : N) :
  bytes < 2 ^ 53 ->
  (bytes < 1024 -> formatSize bytes = numberToString (Z.of_N bytes) ++ lit " B")
  /\ (1024 <= bytes -> bytes < 1024 * 1024 ->
      exists n,
        formatSize bytes
        = numberToString (Z.of_N (n / 100)) ++ lit "." ++ two_digits (n mod 100) ++ lit " KB"
        /\ 1024 * n <= 100 * bytes + 512 /\ 100 * bytes < 1024 * n + 512
        /\ 100 <= n /\ n <= 102400
        /\ (1048571 <= bytes -> formatSize bytes = lit "1024.00 KB"))
  /\ (1024 * 1024 <= bytes ->
      exists n,
        formatSize bytes
        = numberToString (Z.of_N (n / 100)) ++ lit "." ++ two_digits (n mod 100) ++ lit " MB"
        /\ 1048576 * n <= 100 * bytes + 524288 /\ 100 * bytes < 1048576 * n + 524288
        /\ 100 <= n).
Proof.
  intros _. unfold formatSize, toFixed2. split; [|split].
  - intros H. now rewrite (proj2 (N.ltb_lt _ _) H).
  - intros H1 H2.
    destruct (N.ltb_spec bytes 1024); [lia|]. rewrite (proj2 (N.ltb_lt _ _) H2).
    destruct (nearest_hundredth bytes 1024 ltac:(lia)) as [Lo Hi]. cbv zeta in Lo, Hi.
    set (n := (200 * bytes + 1024) / (2 * 1024)) in *.
    exists n. split; [now rewrite <- !app_assoc|].
    assert (Hn : n <= 102400) by lia.
    repeat split; try lia.
    intros H3. assert (E : n = 102400) by lia. rewrite E. reflexivity.
  - intros H1.
    destruct (N.ltb_spec bytes 1024); [lia|].
    destruct (N.ltb_spec bytes (1024 * 1024)); [lia|].
    destruct (nearest_hundredth bytes (1024 * 1024) ltac:(lia)) as [Lo Hi]. cbv zeta in Lo, Hi.
    set (n := (200 * bytes + 1024 * 1024) / (2 * (1024 * 1024))) in *.
    exists n. split; [now rewrite <- !app_assoc|]. repeat split; lia.
Qed.

(** *** [includes] *)

Lemma includes_unfold (s p : jsstring) :
  includes s p
  = startsWith s p || match s with [] => false | _ :: s' => includes s' p end.
Proof. now destruct s. Qed.

Lemma includes_spec (s p : jsstring) :
  includes s p = true <-> exists a b, s = a ++ p ++ b.
Proof.
  split.
  - induction s as [|c s IH]; rewrite includes_unfold; intros H;
      apply orb_prop in H; destruct H as [H|H]; try discriminate.
    + apply startsWith_prefix in H. destruct H as [r E]. now exists [], r.
    + apply startsWith_prefix in H. destruct H as [r E]. now exists [], r.
    + destruct (IH H) as (a & b & ->). now exists (c :: a), b.
  - intros (a & b & ->). induction a as [|c a IH]; rewrite includes_unfold.
    + cbn [app]. now rewrite startsWith_app.
    + cbn [app]. rewrite IH. apply orb_true_r.
Qed.

Lemma includes_trans (s p q : jsstring) :
  includes s p = true -> includes p q = true -> includes s q = true.
Proof.
  rewrite !includes_spec. intros (a & b & ->) (a' & b' & ->).
  exists (a ++ a'), (b' ++ b). now rewrite <- !app_assoc.
Qed.

Lemma verdict_missing (missing : list jsstring) :
  Reports.missing (verdict missing) = missing
  /\ (valid (verdict missing) = true <-> missing = []).
Proof. destruct missing; cbn; split; try reflexivity; split; congruence. Qed.

(** X20: the two paths of [verifyDatabase] do not look for a table the same
    way.  Through a container the names are looked for anywhere in the text
    that [psql] prints: when that text holds "private-key", the table "key"
    is never reported missing, whether it exists or not.  Over a client the
    names are compared with the table names, letter case aside: "key" is
    reported missing exactly when no table bears that name.  On both paths
    [valid] is true exactly when nothing is missing. *)
Theorem verification_paths_differ (out : Answers) (dbConfig : DbConfig) (log : Log) :
  (forall c name stdout,
     exec out (lit "docker exec " ++ (c :: name) ++ lit " psql -U " ++ user dbConfig
               ++ lit " -d " ++ database dbConfig ++ lit " -c "
               ++ quoted (lit "SELECT tablename FROM pg_tables WHERE schemaname = 'public';"))
     = Return stdout ->
     isAscii stdout = true ->
     includes (toLowerCase stdout) (lit "private-key") = true ->
     exists r log',
       verifyDatabase out (Some (c :: name)) dbConfig log = (Return r, log')
       /\ ~ In (lit "key") (missing r)
       /\ (valid r = true <-> missing r = []))
  /\ (forall tables,
        connect out dbConfig = None -> run out list_tables = Return tables ->
        close out = None ->
        Forall (fun t => isAscii t = true) tables ->
        exists r log',
          verifyDatabase out None dbConfig log = (Return r, log')
          /\ (In (lit "key") (missing r) <-> ~ In (lit "key") (map toLowerCase tables))
          /\ (valid r = true <-> missing r = [])).
Proof.
  split.
  - intros c name stdout He _ Hi. unfold verifyDatabase, try_catch, bind, execAsync, ret.
    rewrite He. eexists _, _. split; [reflexivity|].
    destruct (verdict_missing (missing_in_output stdout)) as [-> V]. split; [|exact V].
    unfold missing_in_output. rewrite filter_In. intros [_ H].
    apply negb_true_iff in H.
    rewrite (includes_trans _ (lit "private-key") (toLowerCase (lit "key")) Hi eq_refl) in H.
    discriminate.
  - intros tables Hc Hr He _.
    unfold verifyDatabase, try_catch, try_finally, bind, client_connect, client_query,
      client_end, ret.
    rewrite Hc, Hr, He. eexists _, _. split; [reflexivity|].
    destruct (verdict_missing (missing_in_tables tables)) as [-> V]. split; [|exact V].
    unfold missing_in_tables. rewrite filter_In. unfold array_includes.
    change (toLowerCase (lit "key")) with (lit "key"). split.
    + intros [_ H] Hin. apply negb_true_iff in H.
      assert (E : existsb (eqb (lit "key")) (map toLowerCase tables) = true).
      { apply existsb_exists. exists (lit "key"). split; [exact Hin | reflexivity]. }
      congruence.
    + intros H. split; [right; now left|]. apply negb_true_iff.
      destruct (existsb _ _) eqn:E; [|reflexivity].
      apply existsb_exists in E. destruct E as (x & Hx & Ex).
      apply eqb_eq in Ex. subst x. contradiction.
Qed.

(** X21: over a client, [verifyDatabase] closes the client exactly once
    after it connected, whether the query returns or throws; a query that
    throws is thrown again as it is, while a refused connection is thrown
    with the prefix "Verification failed: " and nothing else is called. *)
Theorem verification_closes_client (out : Answers) (dbConfig : DbConfig) (log : Log) :
  (forall e,
     connect out dbConfig = Some e ->
     verifyDatabase out None dbConfig log
     = (Throw (verification_failed e), log ++ [ClientConnect dbConfig]))
  /\ (connect out dbConfig = None ->
      snd (verifyDatabase out None dbConfig log)
      = log ++ [ClientConnect dbConfig; ClientQuery list_tables; ClientEnd])
  /\ (forall e,
        connect out dbConfig = None -> run out list_tables = Throw e -> close out = None ->
        fst (verifyDatabase out None dbConfig log) = Throw e).
Proof.
  unfold verifyDatabase, try_catch, try_finally, bind, client_connect, client_query,
    client_end, throw, ret.
  split; [|split].
  - intros e ->. reflexivity.
  - intros ->. destruct (run out list_tables); destruct (close out); cbn [snd];
      now rewrite <- !app_assoc.
  - intros e -> -> ->. reflexivity.
Qed.

End ReportFacts.

Module EnvFileFacts.
Import JSLib Cli EnvFileText JSFacts TextFacts SnapshotParse.

(** *** More on lines *)

Lemma join_split (sep : N) (s : jsstring) : join [sep] (split sep s) = s.
Proof.
  induction s as [|c s IH]; [reflexivity|].
  cbn [split]. pose proof (split_nonempty sep s) as Hne.
  destruct (N.eqb_spec c sep) as [->|Hc].
  - destruct (split sep s) as [|h t]; [contradiction|].
    change (join [sep] ([] :: h :: t)) with ([] ++ [sep] ++ join [sep] (h :: t)).
    now rewrite IH.
  - destruct (split sep s) as [|h t]; [contradiction|].
    destruct t as [|h' t].
    + cbn [join] in *. now rewrite IH.
    + change (join [sep] ((c :: h) :: h' :: t))
        with (c :: (h ++ [sep] ++ join [sep] (h' :: t))).
      change (join [sep] (h :: h' :: t)) with (h ++ [sep] ++ join [sep] (h' :: t)) in IH.
      now rewrite IH.
Qed.

Lemma join_snoc (sep : N) (l : list jsstring) (x : jsstring) :
  l <> [] -> join [sep] (l ++ [x]) = join [sep] l ++ sep :: x.
Proof.
  induction l as [|a l IH]; intros Hne; [contradiction|].
  destruct l as [|b l]; [reflexivity|].
  change (join [sep] ((a :: b :: l) ++ [x])) with (a ++ [sep] ++ join [sep] ((b :: l) ++ [x])).
  rewrite IH by discriminate.
  change (join [sep] (a :: b :: l)) with (a ++ [sep] ++ join [sep] (b :: l)).
  now rewrite <- !app_assoc.
Qed.

Lemma split_lines_one_line (s : jsstring) : Forall one_line (split newline s).
Proof.
  induction s as [|c s IH]; [repeat constructor; intros []|].
  cbn [split]. destruct (N.eqb_spec c newline) as [->|Hc].
  - constructor; [intros [] | exact IH].
  - destruct (split newline s) as [|h t]; [repeat constructor; intros [E|[]]; congruence|].
    apply Forall_cons_iff in IH. destruct IH as [Hh Ht]. constructor; [|exact Ht].
    intros [E|E]; [congruence | now apply Hh].
Qed.

Lemma split_join_lines (l : list jsstring) :
  l <> [] -> Forall one_line l -> split newline (join [newline] l) = l.
Proof.
  intros Hne F. destruct l as [|e l]; [contradiction|].
  rewrite split_join. now apply flat_map_split_lines.
Qed.

(** *** White space at both ends *)

Lemma trim_split (s : jsstring) :
  exists q q', s = q ++ trim s ++ q' /\ blank q /\ blank q'.
Proof.
  destruct (trimStart_split s) as (q & E & Hq).
  destruct (trimStart_split (rev (trimStart s))) as (q' & E' & Hq').
  exists q, (rev q'). split; [|split; [exact Hq | now apply blank_rev]].
  unfold trim. rewrite <- rev_app_distr, <- E', rev_involutive. exact E.
Qed.

Lemma trim_length (s : jsstring) : (length (trim s) <= length s)%nat.
Proof.
  destruct (trim_split s) as (q & q' & E & _). rewrite E at 2.
  rewrite !length_app. lia.
Qed.

Lemma trimmed_head (s : jsstring) :
  trim s = s -> s <> [] -> exists c r, s = c :: r /\ isWhiteSpace c = false.
Proof.
  intros T Hne. destruct s as [|c r]; [contradiction|]. exists c, r. split; [reflexivity|].
  destruct (isWhiteSpace c) eqn:W; [|reflexivity].
  pose proof (trim_blank_l [c] r) as B. cbn [app] in B.
  rewrite B in T by (unfold blank; cbn [forallb]; now rewrite W).
  pose proof (trim_length r) as L. rewrite T in L. cbn [length] in L. lia.
Qed.

Lemma trimmed_last (s : jsstring) :
  trim s = s -> s <> [] -> exists d r, rev s = d :: r /\ isWhiteSpace d = false.
Proof.
  intros T Hne. unfold trim in T. apply (f_equal (@rev N)) in T.
  rewrite rev_involutive in T.
  destruct (rev s) as [|d r] eqn:R.
  - apply (f_equal (@rev N)) in R. rewrite rev_involutive in R. contradiction.
  - exists d, r. split; [reflexivity|]. exact (trimStart_head _ _ _ T).
Qed.

Lemma blank_no_equals (q : jsstring) : blank q -> ~ In 61 q.
Proof.
  unfold blank. rewrite forallb_forall. intros H Hin. specialize (H 61 Hin). discriminate.
Qed.

(** *** The pattern of an assignment *)

Lemma no_terminator_app (a b : jsstring) :
  no_terminator (a ++ b) <-> no_terminator a /\ no_terminator b.
Proof. unfold no_terminator. rewrite forallb_app. apply andb_true_iff. Qed.

Lemma blank_no_terminator_one_line (s : jsstring) : no_terminator s -> one_line s.
Proof.
  unfold no_terminator, one_line. rewrite forallb_forall. intros H Hin.
  specialize (H newline Hin). discriminate.
Qed.

Lemma upto_equals_app (k v : jsstring) :
  ~ In 61 k -> upto_equals (k ++ 61 :: v) = Some (k, v).
Proof.
  induction k as [|c k IH]; intros H; [reflexivity|].
  cbn [app upto_equals]. destruct (N.eqb_spec c 61) as [->|Hc].
  - exfalso. apply H. now left.
  - rewrite IH; [reflexivity|]. intros Hin. apply H. now right.
Qed.

Lemma upto_equals_inv (s k v : jsstring) :
  upto_equals s = Some (k, v) -> s = k ++ 61 :: v /\ ~ In 61 k.
Proof.
  revert k v. induction s as [|c s IH]; intros k v; [discriminate|].
  cbn [upto_equals]. destruct (N.eqb_spec c 61) as [->|Hc].
  - intros E. injection E as <- <-. split; [reflexivity | intros []].
  - destruct (upto_equals s) as [[k' v']|]; [|discriminate].
    intros E. injection E as <- <-. destruct (IH k' v' eq_refl) as [-> Hk].
    split; [reflexivity|]. intros [E|E]; [congruence | contradiction].
Qed.

Lemma matchAssignment_intro (k v : jsstring) :
  k <> [] -> ~ In 61 k -> no_terminator v -> matchAssignment (k ++ 61 :: v) = Some (k, v).
Proof.
  intros Hne Hk Hv. unfold matchAssignment. rewrite upto_equals_app by exact Hk.
  destruct k; [contradiction|]. unfold no_terminator in Hv. now rewrite Hv.
Qed.

Lemma matchAssignment_inv (s k v : jsstring) :
  matchAssignment s = Some (k, v) ->
  s = k ++ 61 :: v /\ k <> [] /\ ~ In 61 k /\ no_terminator v.
Proof.
  unfold matchAssignment. destruct (upto_equals s) as [[[|c k'] v']|] eqn:U; try discriminate.
  destruct (forallb _ v') eqn:F; [|discriminate].
  intros E. injection E as <- <-. destruct (upto_equals_inv _ _ _ U) as [-> Hk].
  repeat split; try assumption. discriminate.
Qed.

(** A line that assigns after trimming assigns as it stands, when it holds
    no line terminator. *)
Lemma match_untrimmed (l k2 v2 : jsstring) :
  no_terminator l -> matchAssignment (trim l) = Some (k2, v2) ->
  exists k v, matchAssignment l = Some (k, v) /\ trim k = trim k2.
Proof.
  intros Hl M. destruct (matchAssignment_inv _ _ _ M) as (E & Hne & Hk & Hv).
  destruct (trim_split l) as (q & q' & El & Hq & Hq').
  rewrite E in El.
  assert (El' : l = (q ++ k2) ++ 61 :: (v2 ++ q'))
    by (rewrite El; now rewrite <- !app_assoc).
  exists (q ++ k2), (v2 ++ q'). split.
  - rewrite El' at 1. apply matchAssignment_intro.
    + destruct q; [exact Hne | discriminate].
    + rewrite in_app_iff. intros [H|H]; [now apply (blank_no_equals q) | contradiction].
    + rewrite El' in Hl. apply no_terminator_app in Hl. destruct Hl as [_ Hl].
      change (61 :: v2 ++ q') with ([61] ++ v2 ++ q') in Hl.
      apply no_terminator_app in Hl. exact (proj2 Hl).
  - now apply trim_blank_l.
Qed.

(** *** [loadEnvFile] *)

Lemma getenv_set (env : ProcessEnv) (key value name : jsstring) :
  getenv ((key, value) :: env) name = if eqb key name then Some value else getenv env name.
Proof. reflexivity. Qed.

Lemma load_line_cases (env : ProcessEnv) (line : jsstring) :
  load_line env line = env
  \/ exists k v value,
       matchAssignment (trim line) = Some (k, v)
       /\ isUndefined env (trim k) = true
       /\ load_line env line = (trim k, value) :: env.
Proof.
  unfold load_line.
  destruct (eqb (trim line) [] || startsWith (trim line) (lit "#")); [now left|].
  destruct (matchAssignment (trim line)) as [[k v]|]; [|now left].
  destruct (isUndefined env (trim k)) eqn:U; [|now left].
  right. now eexists k, v, _.
Qed.

Lemma load_line_keeps (env : ProcessEnv) (line name value : jsstring) :
  getenv env name = Some value -> getenv (load_line env line) name = Some value.
Proof.
  intros H. destruct (load_line_cases env line) as [->|(k & v & x & _ & U & ->)]; [exact H|].
  rewrite getenv_set. destruct (eqb (trim k) name) eqn:E; [|exact H].
  apply eqb_eq in E. subst name. unfold isUndefined in U. now rewrite H in U.
Qed.

Lemma load_lines_keep (lines : list jsstring) : forall env name value,
  getenv env name = Some value -> getenv (fold_left load_line lines env) name = Some value.
Proof.
  induction lines as [|l lines IH]; intros env name value H; [exact H|].
  cbn [fold_left]. apply IH. now apply load_line_keeps.
Qed.

Lemma load_content_app (a b : jsstring) (env : ProcessEnv) :
  load_content (a ++ newline :: b) env = load_content b (load_content a env).
Proof. unfold load_content. now rewrite split_app, fold_left_app. Qed.

(** X22: [loadEnvFile] never changes a variable that is set: what the
    process environment holds wins over the file, and among the lines of
    the file the first assignment of a name wins over the later ones. *)
Theorem env_file_never_overrides (content more name value : jsstring) (env : ProcessEnv) :
  (getenv env name = Some value -> getenv (load_content content env) name = Some value)
  /\ (getenv (load_content content env) name = Some value ->
      getenv (load_content (content ++ newline :: more) env) name = Some value).
Proof.
  split.
  - apply load_lines_keep.
  - intros H. rewrite load_content_app. now apply load_lines_keep.
Qed.

(** A line that assigns [key] is read as that assignment. *)
Lemma load_assignment (env : ProcessEnv) (key w value : jsstring) :
  plain_name key -> isUndefined env key = true ->
  no_terminator w -> trim w = w ->
  (if hasQuotes dquote w || hasQuotes squote w then slice_1_m1 w else w) = value ->
  load_line env (key ++ lit "=" ++ w) = (key, value) :: env.
Proof.
  intros [Hne Hone Heq Htrim Hcom] U Hw Tw Hv.
  destruct (trimmed_head key Htrim Hne) as (c & r & Ek & Wc).
  assert (T : trim (key ++ lit "=" ++ w) = key ++ lit "=" ++ w).
  { destruct w as [|x w'].
    - rewrite <- (app_nil_l (lit "=" ++ [])), app_nil_r.
      change (key ++ [] ++ lit "=") with (key ++ [] ++ lit "=").
      apply trim_wrapped; try discriminate; try exact Hne; try reflexivity.
      rewrite Ek. now apply trimStart_fixed.
    - destruct (trimmed_last (x :: w') Tw ltac:(discriminate)) as (d & r' & R & Wd).
      apply trim_wrapped; try discriminate; try exact Hne.
      + rewrite Ek. now apply trimStart_fixed.
      + rewrite R. now apply trimStart_fixed. }
  unfold load_line. rewrite T.
  assert (E1 : eqb (key ++ lit "=" ++ w) [] = false) by (rewrite Ek; reflexivity).
  assert (E2 : startsWith (key ++ lit "=" ++ w) (lit "#") = false)
    by (change (lit "#") with [35]; rewrite startsWith_unit_app by exact Hne; exact Hcom).
  rewrite E1, E2. cbn [orb].
  change (key ++ lit "=" ++ w) with (key ++ 61 :: w).
  rewrite matchAssignment_intro by assumption.
  rewrite Htrim, Tw, Hv, U. reflexivity.
Qed.

Lemma slice_quoted (q : N) (v : jsstring) : slice_1_m1 (q :: v ++ [q]) = v.
Proof. unfold slice_1_m1. cbn [tl]. apply removelast_last. Qed.

Lemma hasQuotes_quoted (q : N) (v : jsstring) : hasQuotes q (q :: v ++ [q]) = true.
Proof.
  unfold hasQuotes. cbn [startsWith]. rewrite N.eqb_refl.
  replace (startsWith (v ++ [q]) []) with true by now destruct (v ++ [q]).
  change (q :: v ++ [q]) with ((q :: v) ++ [q]). now rewrite endsWith_app.
Qed.

Lemma no_terminator_one_line (s : jsstring) : no_terminator s -> one_line s.
Proof. apply blank_no_terminator_one_line. Qed.

(** The line [update_line] writes is read back as the new value. *)
Lemma load_updated (env : ProcessEnv) (key newValue line : jsstring) :
  plain_name key -> plain_value newValue -> isUndefined env key = true ->
  snd (update_line key newValue line) = true ->
  load_line env (fst (update_line key newValue line)) = (key, newValue) :: env.
Proof.
  intros Hk [Hv Tv Qd Qs] U. unfold update_line.
  destruct (matchAssignment line) as [[k v]|]; [|discriminate].
  destruct (eqb (trim k) key); [|discriminate]. intros _.
  destruct (hasQuotes dquote (trim v)); [|destruct (hasQuotes squote (trim v))]; cbn [fst].
  - apply load_assignment; try assumption.
    + unfold quoted. change (dquote :: newValue ++ [dquote]) with ([dquote] ++ newValue ++ [dquote]).
      rewrite !no_terminator_app. now repeat split.
    + unfold quoted. now apply trim_core.
    + unfold quoted. now rewrite hasQuotes_quoted, slice_quoted.
  - apply load_assignment; try assumption.
    + rewrite !no_terminator_app. now repeat split.
    + change ([squote] ++ newValue ++ [squote]) with (squote :: newValue ++ [squote]).
      now apply trim_core.
    + change ([squote] ++ newValue ++ [squote]) with (squote :: newValue ++ [squote]).
      rewrite (hasQuotes_quoted squote), slice_quoted. now rewrite orb_true_r.
  - apply load_assignment; try assumption. now rewrite Qd, Qs.
Qed.

(** A line that [update_line] leaves alone does not set [key] when read. *)
Lemma load_untouched (env : ProcessEnv) (key newValue line : jsstring) :
  no_terminator line -> isUndefined env key = true ->
  snd (update_line key newValue line) = false ->
  fst (update_line key newValue line) = line
  /\ isUndefined (load_line env line) key = true.
Proof.
  intros Hl U Hs.
  assert (Hfst : fst (update_line key newValue line) = line).
  { unfold update_line in *. destruct (matchAssignment line) as [[k v]|]; [|reflexivity].
    destruct (eqb (trim k) key); [|reflexivity].
    destruct (hasQuotes dquote (trim v)); [discriminate|].
    destruct (hasQuotes squote (trim v)); discriminate. }
  split; [exact Hfst|].
  destruct (load_line_cases env line) as [->|(k2 & v2 & x & M & _ & ->)]; [exact U|].
  unfold isUndefined in *. rewrite getenv_set.
  destruct (eqb (trim k2) key) eqn:E; [|exact U].
  exfalso. apply eqb_eq in E.
  destruct (match_untrimmed line k2 v2 Hl M) as (k & v & M' & Tk).
  unfold update_line in Hs. rewrite M', Tk, E, eqb_refl in Hs.
  destruct (hasQuotes dquote (trim v)); [discriminate|].
  destruct (hasQuotes squote (trim v)); discriminate.
Qed.

Lemma load_updated_lines (key newValue : jsstring) (lines : list jsstring) :
  plain_name key -> plain_value newValue -> Forall no_terminator lines ->
  forall env, isUndefined env key = true ->
  if existsb snd (map (update_line key newValue) lines)
  then getenv (fold_left load_line (map fst (map (update_line key newValue) lines)) env) key
       = Some newValue
  else isUndefined (fold_left load_line (map fst (map (update_line key newValue) lines)) env)
         key = true.
Proof.
  intros Hk Hv F. induction F as [|line lines Hl _ IH]; intros env U; [exact U|].
  cbn [map existsb fold_left].
  destruct (snd (update_line key newValue line)) eqn:S; cbn [orb].
  - rewrite (load_updated env key newValue line Hk Hv U S).
    apply load_lines_keep. rewrite getenv_set. now rewrite eqb_refl.
  - destruct (load_untouched env key newValue line Hl U S) as [-> U'].
    now apply IH.
Qed.

Lemma unix_lines (content : jsstring) :
  unix_text content -> Forall no_terminator (split newline content).
Proof.
  unfold unix_text, no_terminator. induction content as [|c s IH]; intros H.
  - repeat constructor.
  - cbn [forallb] in H. apply andb_prop in H. destruct H as [Hc Hs].
    specialize (IH Hs). cbn [split]. destruct (N.eqb_spec c newline) as [->|Hn].
    + constructor; [reflexivity | exact IH].
    + destruct (split newline s) as [|h t]; [repeat constructor|].
      * cbn [forallb]. rewrite orb_false_r in Hc.
        now rewrite Hc.
      * apply Forall_cons_iff in IH. destruct IH as [Hh Ht]. constructor; [|exact Ht].
        cbn [forallb]. rewrite orb_false_r in Hc.
        now rewrite Hc, Hh.
Qed.

Lemma updated_line_one_line (key newValue line : jsstring) :
  one_line key -> one_line newValue -> one_line line ->
  one_line (fst (update_line key newValue line)).
Proof.
  intros Hk Hv Hl. unfold update_line.
  destruct (matchAssignment line) as [[k v]|]; [|exact Hl].
  destruct (eqb (trim k) key); [|exact Hl].
  destruct (hasQuotes dquote (trim v)); [|destruct (hasQuotes squote (trim v))]; cbn [fst];
    rewrite ?one_line_app; repeat split; try assumption; try one_line_lit.
  now apply one_line_quoted.
Qed.

Lemma updated_lines (content key newValue : jsstring) :
  one_line key -> one_line newValue ->
  split newline (fst (update_content content key newValue))
  = map fst (map (update_line key newValue) (split newline content))
    ++ (if existsb snd (map (update_line key newValue) (split newline content))
        then [] else [key ++ lit "=" ++ newValue]).
Proof.
  intros Hk Hv. unfold update_content. cbn [fst].
  apply split_join_lines.
  - pose proof (split_nonempty newline content).
    destruct (split newline content); [contradiction | discriminate].
  - apply Forall_app. split.
    + rewrite map_map. apply Forall_map.
      eapply Forall_impl; [|apply split_lines_one_line].
      intros l Hl. now apply updated_line_one_line.
    + destruct (existsb _ _); constructor; [|constructor].
      rewrite !one_line_app. repeat split; try assumption. one_line_lit.
Qed.

(** X23: what [updateEnvFile] wrote, [loadEnvFile] reads: for a plain name
    that is not set in the process and a plain value, and a file whose only
    line terminator is the line feed, loading the updated file sets the name
    to the new value, whether the name was found or appended, and whatever
    quotes the old value had. *)
Theorem updated_file_loads_new_value (content key newValue : jsstring) (env : ProcessEnv) :
  plain_name key -> plain_value newValue -> unix_text content ->
  isUndefined env key = true ->
  getenv (load_content (fst (update_content content key newValue)) env) key
  = Some newValue.
Proof.
  intros Hk Hv Hc U. unfold load_content.
  rewrite updated_lines
    by (try exact (name_one_line key Hk);
        apply no_terminator_one_line; exact (value_no_terminator newValue Hv)).
  rewrite fold_left_app.
  pose proof (load_updated_lines key newValue (split newline content) Hk Hv
                (unix_lines content Hc) env U) as H.
  destruct (existsb snd _); cbn [fold_left]; [exact H|].
  destruct Hv as [Hv Tv Qd Qs].
  rewrite (load_assignment _ key newValue newValue Hk H Hv Tv)
    by now rewrite Qd, Qs.
  rewrite getenv_set. now rewrite eqb_refl.
Qed.

(** *** [updateEnvFile] *)

Lemma untouched_lines (key newValue : jsstring) (lines : list jsstring) :
  existsb snd (map (update_line key newValue) lines) = false ->
  map fst (map (update_line key newValue) lines) = lines.
Proof.
  induction lines as [|l lines IH]; [reflexivity|].
  cbn [map existsb]. intros H. apply orb_false_elim in H. destruct H as [Hl H].
  rewrite (IH H). f_equal.
  unfold update_line in *. destruct (matchAssignment l) as [[k v]|]; [|reflexivity].
  destruct (eqb (trim k) key); [|reflexivity].
  destruct (hasQuotes dquote (trim v)); [discriminate|].
  destruct (hasQuotes squote (trim v)); discriminate.
Qed.

(** What the callback makes of one line. *)
Lemma update_line_cases (key newValue line : jsstring) :
  (update_line key newValue line = (line, false)
   /\ forall k v, matchAssignment line = Some (k, v) -> trim k <> key)
  \/ exists k v,
       matchAssignment line = Some (k, v) /\ trim k = key
       /\ update_line key newValue line
          = (key ++ lit "="
             ++ (if hasQuotes dquote (trim v) then quoted newValue
                 else if hasQuotes squote (trim v) then [squote] ++ newValue ++ [squote]
                 else newValue), true).
Proof.
  unfold update_line. destruct (matchAssignment line) as [[k v]|].
  2:{ left. split; [reflexivity | discriminate]. }
  destruct (eqb (trim k) key) eqn:E.
  - apply eqb_eq in E. right. exists k, v. split; [reflexivity|]. split; [exact E|].
    destruct (hasQuotes dquote (trim v)); [|destruct (hasQuotes squote (trim v))]; reflexivity.
  - left. split; [reflexivity|]. intros k' v' M. injection M as <- <-.
    now apply eqb_neq.
Qed.

(** [found] is set exactly when a line assigns the name. *)
Lemma found_assignment (key newValue : jsstring) (lines : list jsstring) :
  existsb snd (map (update_line key newValue) lines) = true
  <-> exists line k v, In line lines /\ matchAssignment line = Some (k, v) /\ trim k = key.
Proof.
  rewrite existsb_exists. split.
  - intros ([new found] & Hin & Hf). cbn [snd] in Hf. subst found.
    apply in_map_iff in Hin. destruct Hin as (line & E & Hin).
    destruct (update_line_cases key newValue line) as [[E' _]|(k & v & M & T & _)].
    + rewrite E' in E. discriminate.
    + now exists line, k, v.
  - intros (line & k & v & Hin & M & T).
    exists (update_line key newValue line). split; [now apply in_map|].
    destruct (update_line_cases key newValue line) as [[_ N]|(k' & v' & _ & _ & ->)];
      [|reflexivity].
    now destruct (N k v M).
Qed.

(** X24: [updateEnvFile] rewrites the lines that assign the name and no
    other.  The result is [updated] exactly when a line assigns the name
    (white space around the name aside).  Then, with a name and a value on
    one line, the file keeps its lines one for one: a line that assigns the
    name reads name=value afterwards, the new value between double quotes
    when the old value stood between double quotes, between single quotes
    when it stood between single quotes, bare otherwise; every other line is
    as it was.  When no line assigns the name, the old text is kept in full
    and the line name=value is added after a line feed. *)
Theorem update_rewrites_assignments_only (content key newValue : jsstring) :
  one_line key -> one_line newValue ->
  (snd (update_content content key newValue) = Updated
   <-> exists line k v,
         In line (split newline content)
         /\ matchAssignment line = Some (k, v) /\ trim k = key)
  /\ (snd (update_content content key newValue) = Appended ->
      fst (update_content content key newValue)
      = content ++ newline :: key ++ lit "=" ++ newValue)
  /\ (snd (update_content content key newValue) = Updated ->
      Forall2
        (fun old new =>
           (new = old /\ forall k v, matchAssignment old = Some (k, v) -> trim k <> key)
           \/ exists k v,
                matchAssignment old = Some (k, v) /\ trim k = key
                /\ new = key ++ lit "="
                         ++ (if hasQuotes dquote (trim v) then quoted newValue
                             else if hasQuotes squote (trim v)
                                  then [squote] ++ newValue ++ [squote]
                                  else newValue))
        (split newline content)
        (split newline (fst (update_content content key newValue)))).
Proof.
  intros Hk Hv. split; [|split].
  - rewrite <- found_assignment with (newValue := newValue).
    unfold update_content. cbn [snd].
    destruct (existsb snd _); split; intros H; try reflexivity; discriminate.
  - unfold update_content. cbn [fst snd].
    destruct (existsb snd _) eqn:E; [discriminate|]. intros _.
    rewrite untouched_lines by exact E.
    rewrite join_snoc by apply split_nonempty. now rewrite join_split.
  - intros H. rewrite updated_lines by assumption.
    unfold update_content in H. cbn [snd] in H.
    destruct (existsb snd _); [|discriminate]. rewrite app_nil_r, map_map.
    induction (split newline content) as [|l lines IH]; constructor; [|exact IH].
    destruct (update_line_cases key newValue l) as [[E N]|(k & v & M & T & E)];
      rewrite E; cbn [fst].
    + now left.
    + right. now exists k, v.
Qed.

(** *** Lines that end with a carriage return *)

Lemma match_last (line k v : jsstring) :
  matchAssignment line = Some (k, v) -> forall body, line <> body ++ [13].
Proof.
  intros M body E. destruct (matchAssignment_inv _ _ _ M) as (El & _ & _ & Hv).
  rewrite El in E. apply (f_equal (@rev N)) in E.
  rewrite !rev_app_distr in E. cbn [rev app] in E.
  destruct (rev v) as [|x r] eqn:R.
  - cbn [app] in E. discriminate.
  - cbn [app] in E. injection E as -> _.
    assert (Hin : In 13 v) by (apply in_rev; rewrite R; now left).
    unfold no_terminator in Hv. rewrite forallb_forall in Hv.
    specialize (Hv 13 Hin). discriminate.
Qed.

Lemma dos_line_untouched (key newValue line : jsstring) :
  dos_line line -> update_line key newValue line = (line, false).
Proof.
  intros D. unfold update_line.
  destruct (matchAssignment line) as [[k v]|] eqn:M; [|reflexivity].
  exfalso. destruct D as [->|[body E]]; [discriminate|].
  exact (match_last _ _ _ M body E).
Qed.

Lemma dos_lines_untouched (key newValue : jsstring) (lines : list jsstring) :
  Forall dos_line lines ->
  existsb snd (map (update_line key newValue) lines) = false.
Proof.
  induction 1 as [|l lines D _ IH]; [reflexivity|].
  cbn [map existsb]. now rewrite (dos_line_untouched key newValue l D), IH.
Qed.

(** X25: in a file whose lines end with a carriage return, [updateEnvFile]
    finds no assignment: the name is appended even when the file assigns
    it, and since [loadEnvFile] trims its lines, loading the result gives
    the old value, not the new one. *)
Theorem carriage_returns_hide_assignments (key oldValue newValue : jsstring) :
  (forall content,
     Forall dos_line (split newline content) ->
     update_content content key newValue
     = (content ++ newline :: key ++ lit "=" ++ newValue, Appended))
  /\ (forall env,
        plain_name key -> plain_value oldValue -> isUndefined env key = true ->
        getenv
          (load_content
             (fst (update_content (key ++ lit "=" ++ oldValue ++ [13; newline]) key newValue))
             env) key
        = Some oldValue).
Proof.
  assert (A : forall content,
             Forall dos_line (split newline content) ->
             update_content content key newValue
             = (content ++ newline :: key ++ lit "=" ++ newValue, Appended)).
  { intros content D. unfold update_content.
    rewrite (dos_lines_untouched key newValue _ D).
    rewrite untouched_lines by now apply dos_lines_untouched.
    rewrite join_snoc by apply split_nonempty. now rewrite join_split. }
  split; [exact A|].
  intros env Hk Hv U.
  assert (One : one_line (key ++ lit "=" ++ oldValue ++ [13])).
  { rewrite !one_line_app. repeat split; try one_line_lit.
    - exact (name_one_line key Hk).
    - apply no_terminator_one_line. exact (value_no_terminator oldValue Hv). }
  assert (S : split newline (key ++ lit "=" ++ oldValue ++ [13; newline])
              = [key ++ lit "=" ++ oldValue ++ [13]; []]).
  { replace (key ++ lit "=" ++ oldValue ++ [13; newline])
      with ((key ++ lit "=" ++ oldValue ++ [13]) ++ newline :: [])
      by (now rewrite <- !app_assoc).
    rewrite split_app, (split_line _ One). reflexivity. }
  rewrite A.
  2:{ rewrite S. constructor; [right; exists (key ++ lit "=" ++ oldValue);
                                now rewrite <- !app_assoc|].
      constructor; [now left | constructor]. }
  cbn [fst]. rewrite load_content_app.
  apply load_lines_keep. unfold load_content. rewrite S. cbn [fold_left].
  apply load_line_keeps.
  assert (L : load_line env (key ++ lit "=" ++ oldValue ++ [13])
              = load_line env (key ++ lit "=" ++ oldValue)).
  { unfold load_line.
    replace (key ++ lit "=" ++ oldValue ++ [13]) with ((key ++ lit "=" ++ oldValue) ++ [13])
      by (now rewrite <- !app_assoc).
    now rewrite trim_blank_r by reflexivity. }
  rewrite L.
  destruct Hv as [Hv Tv Qd Qs].
  rewrite (load_assignment env key oldValue oldValue Hk U Hv Tv) by now rewrite Qd, Qs.
  rewrite getenv_set. now rewrite eqb_refl.
Qed.

End EnvFileFacts.

Module UiFacts.
Import JSLib Ui JSFacts TextFacts SnapshotParse.

(** *** [stripAnsi] *)

Lemma parameters_app (code rest : jsstring) :
  forallb parameter code = true ->
  parameters (code ++ rest) = (length code + parameters rest)%nat.
Proof.
  induction code as [|c code IH]; intros H; [reflexivity|].
  cbn [forallb] in H. apply andb_prop in H. destruct H as [Hc H].
  cbn [app parameters length]. unfold parameter in Hc. rewrite Hc, IH by exact H. reflexivity.
Qed.

Lemma parameters_le (s : jsstring) : (parameters s <= length s)%nat.
Proof.
  induction s as [|c s IH]; [constructor|].
  cbn [parameters length]. destruct (isDigit c || (c =? 59)); lia.
Qed.

Lemma parameters_stop (s : jsstring) (m : N) :
  nth_error s (parameters s) = Some m -> parameter m = false.
Proof.
  induction s as [|c s IH]; [discriminate|].
  cbn [parameters]. destruct (isDigit c || (c =? 59)) eqn:E.
  - exact IH.
  - cbn [nth_error]. intros H. injection H as <-. exact E.
Qed.

(** After a unit that is no parameter, what follows does not matter. *)
Lemma parameters_cut (s rest : jsstring) (m : N) :
  nth_error s (parameters s) = Some m ->
  parameters (s ++ rest) = parameters s
  /\ nth_error (s ++ rest) (parameters s) = Some m.
Proof.
  induction s as [|c s IH]; [discriminate|].
  cbn [parameters app]. destruct (isDigit c || (c =? 59)) eqn:E.
  - cbn [nth_error]. intros H. destruct (IH H) as [-> ->]. now split.
  - cbn [nth_error]. intros H. now split.
Qed.

Lemma escape_length_bound (s : jsstring) (n : nat) :
  escape_length s = Some n -> (1 <= n <= length s)%nat.
Proof.
  unfold escape_length. destruct s as [|e [|b r]]; try discriminate.
  destruct ((e =? ESC) && (b =? 91)); [|discriminate].
  destruct (nth_error r (parameters r)) as [m|] eqn:E; [|discriminate].
  destruct (m =? 109); [|discriminate]. intros H. injection H as <-.
  assert (parameters r < length r)%nat by (apply nth_error_Some; congruence).
  cbn [length]. lia.
Qed.

(** An escape sequence does not reach into a reset that follows. *)
Lemma escape_length_reset (s : jsstring) :
  s <> [] -> escape_length (s ++ RESET) = escape_length s.
Proof.
  intros Hne. destruct s as [|e [|b r]]; [contradiction| |].
  - cbn [app]. unfold escape_length, RESET, ESC. cbn [lit]. 
    now rewrite andb_false_r.
  - cbn [app]. unfold escape_length.
    destruct ((e =? ESC) && (b =? 91)); [|reflexivity].
    destruct (nth_error r (parameters r)) as [m|] eqn:E.
    + destruct (parameters_cut r RESET m E) as [-> ->]. reflexivity.
    + apply nth_error_None in E. pose proof (parameters_le r) as L.
      assert (P : parameters r = length r) by lia.
      assert (F : forallb parameter r = true).
      { clear -P. induction r as [|c r IH]; [reflexivity|].
        cbn [parameters length] in P. cbn [forallb]. unfold parameter at 1.
        destruct (isDigit c || (c =? 59)); [|discriminate].
        apply IH. lia. }
      rewrite parameters_app by exact F.
      change (parameters RESET) with 0%nat. rewrite Nat.add_0_r.
      rewrite nth_error_app2 by lia. rewrite Nat.sub_diag. reflexivity.
Qed.

Lemma strip_reset (s : jsstring) : forall skip,
  (skip <= length s)%nat -> strip skip (s ++ RESET) = strip skip s.
Proof.
  induction s as [|c s IH]; intros skip Hs.
  - cbn [length] in Hs. assert (skip = 0%nat) by lia. subst skip. reflexivity.
  - cbn [length] in Hs. destruct skip as [|k].
    + change ((c :: s) ++ RESET) with (c :: (s ++ RESET)).
      cbn [strip].
      change (c :: (s ++ RESET)) with ((c :: s) ++ RESET).
      rewrite escape_length_reset by discriminate.
      destruct (escape_length (c :: s)) as [n|] eqn:E.
      * apply escape_length_bound in E. cbn [length] in E. apply IH. lia.
      * f_equal. apply IH. lia.
    + cbn [app strip]. apply IH. lia.
Qed.

Lemma strip_skip (a s : jsstring) : strip (length a) (a ++ s) = strip 0 s.
Proof. induction a as [|c a IH]; [reflexivity|]. destruct s; cbn [length app strip]; exact IH. Qed.

Lemma strip_plain (s : jsstring) : ~ In ESC s -> strip 0 s = s.
Proof.
  induction s as [|c s IH]; intros H; [reflexivity|].
  cbn [strip]. replace (escape_length (c :: s)) with (@None nat).
  - f_equal. apply IH. intros Hin. apply H. now right.
  - unfold escape_length. destruct s as [|b r]; [reflexivity|].
    destruct (N.eqb_spec c ESC) as [->|Hc]; [exfalso; apply H; now left | reflexivity].
Qed.

(** X26: [stripAnsi] gives the text without its colours: painting a text
    with one of the colour functions and stripping the result gives the text
    stripped, and a text without escape character comes back as it is.  So
    the widths that the boxes and tables compute from the stripped text are
    those of the text shown. *)
Theorem strip_undoes_paint (code s : jsstring) :
  forallb (fun c => isDigit c || (c =? 59)) code = true ->
  stripAnsi (paint code s) = stripAnsi s
  /\ (~ In ESC s -> stripAnsi (paint code s) = s)
  /\ stripAnsi (cyan s) = stripAnsi s
  /\ stripAnsi (red s) = stripAnsi s
  /\ stripAnsi (bold (white s)) = stripAnsi s.
Proof.
  assert (P : forall code s,
             forallb (fun c => isDigit c || (c =? 59)) code = true ->
             stripAnsi (paint code s) = stripAnsi s).
  { clear code s. intros code s Hc. unfold stripAnsi, paint.
    change (ESC :: lit "[" ++ code ++ lit "m" ++ s ++ RESET)
      with (ESC :: 91 :: code ++ 109 :: s ++ RESET).
    cbn [strip].
    assert (E : escape_length (ESC :: 91 :: code ++ 109 :: s ++ RESET)
                = Some (3 + length code)%nat).
    { unfold escape_length. cbn [N.eqb Pos.eqb andb ESC].
      rewrite (parameters_app code _ Hc). cbn [parameters isDigit].
      change (isDigit 109 || (109 =? 59)) with false. cbn match.
      rewrite Nat.add_0_r, nth_error_app2 by lia. rewrite Nat.sub_diag. reflexivity. }
    rewrite E. cbn [Nat.add Nat.sub].
    replace (code ++ 109 :: s ++ RESET) with ((code ++ [109]) ++ s ++ RESET)
      by (now rewrite <- app_assoc).
    replace (S (length code)) with (length (code ++ [109]))
      by (rewrite length_app; cbn [length]; lia).
    rewrite strip_skip. apply strip_reset. lia. }
  intros Hc. split; [now apply P|]. split.
  - intros H. rewrite P by exact Hc. now apply strip_plain.
  - repeat split; unfold cyan, red, bold, white; rewrite ?P; reflexivity.
Qed.

(** *** [errorBox] *)

Lemma collapse_units (s : jsstring) : forall inRun,
  Forall (fun c => isWhiteSpace c = true -> c = 32) (collapse inRun s).
Proof.
  induction s as [|c s IH]; intros inRun; [constructor|].
  cbn [collapse]. destruct (isWhiteSpace c) eqn:W.
  - destruct inRun; [apply IH|]. constructor; [reflexivity | apply IH].
  - constructor; [|apply IH]. intros H. congruence.
Qed.

Lemma collapse_single_spaced (s : jsstring) : forall inRun,
  single_spaced (collapse inRun s)
  /\ (inRun = true -> forall r, collapse inRun s <> 32 :: r).
Proof.
  induction s as [|c s IH]; intros inRun; [split; [exact I | discriminate]|].
  cbn [collapse]. destruct (isWhiteSpace c) eqn:W.
  - destruct inRun.
    + exact (IH true).
    + split; [|discriminate]. destruct (IH true) as [S N].
      destruct (collapse true s) as [|b r] eqn:E; [exact I|].
      split; [|exact S]. intros [_ ->]. exact (N eq_refl r eq_refl).
  - split.
    + destruct (IH false) as [S _]. destruct (collapse false s) as [|b r]; [exact I|].
      split; [|exact S]. intros [-> _]. discriminate.
    + intros _ r E. injection E as -> _. discriminate.
Qed.

Lemma single_spaced_tail (c : N) (s : jsstring) : single_spaced (c :: s) -> single_spaced s.
Proof. destruct s as [|b r]; [intros; exact I|]. now intros [_ H]. Qed.

Lemma single_spaced_app (a b : jsstring) :
  single_spaced (a ++ b) -> single_spaced a /\ single_spaced b.
Proof.
  induction a as [|c a IH]; intros H; [now split|].
  cbn [app] in H. destruct (IH (single_spaced_tail _ _ H)) as [Ha Hb].
  split; [|exact Hb].
  destruct a as [|d a]; [exact I|]. cbn [app] in H. destruct H as [H _]. now split.
Qed.

(** *** The words of a message *)

Lemma collapse_word (w r : jsstring) (inRun : bool) :
  word w -> collapse inRun (w ++ r) = w ++ collapse false r.
Proof.
  intros [Hne Hw]. revert inRun. induction w as [|c w IH]; intros inRun; [contradiction|].
  cbn [forallb] in Hw. apply andb_prop in Hw. destruct Hw as [Hc Hw].
  apply negb_true_iff in Hc. cbn [app collapse]. rewrite Hc. f_equal.
  destruct w as [|d w]; [reflexivity|]. apply IH; [discriminate | exact Hw].
Qed.

Lemma collapse_run (g r : jsstring) : blank g -> collapse true (g ++ r) = collapse true r.
Proof.
  unfold blank. induction g as [|c g IH]; intros H; [reflexivity|].
  cbn [forallb] in H. apply andb_prop in H. destruct H as [Hc Hg].
  cbn [app collapse]. rewrite Hc. now apply IH.
Qed.

Lemma collapse_gap (g w r : jsstring) :
  blank g -> word w ->
  collapse false (g ++ w ++ r)
  = match g with [] => [] | _ :: _ => [32] end ++ w ++ collapse false r.
Proof.
  intros Hg Hw. destruct g as [|c g]; [cbn [app]; now apply collapse_word|].
  unfold blank in Hg. cbn [forallb] in Hg. apply andb_prop in Hg. destruct Hg as [Hc Hg].
  cbn [app collapse]. rewrite Hc. f_equal.
  rewrite collapse_run by exact Hg. now apply collapse_word.
Qed.

Lemma collapse_blank (tail : jsstring) (inRun : bool) :
  blank tail -> blank (collapse inRun tail).
Proof.
  unfold blank. revert inRun. induction tail as [|c tail IH]; intros inRun H; [reflexivity|].
  cbn [forallb] in H. apply andb_prop in H. destruct H as [Hc Ht].
  cbn [collapse]. rewrite Hc. destruct inRun; [now apply IH|].
  cbn [forallb]. now rewrite (IH true Ht).
Qed.

(** After the first word, one space stands before every word. *)
Lemma collapse_spaced (parts : list (jsstring * jsstring)) (tail : jsstring) :
  Forall (fun p => blank (fst p) /\ word (snd p)) parts ->
  Forall (fun p => fst p <> []) parts ->
  collapse false (spaced parts ++ tail)
  = flat_map (fun w => 32 :: w) (map snd parts) ++ collapse false tail.
Proof.
  induction 1 as [|[g w] parts [Hg Hw] _ IH]; intros G; [reflexivity|].
  apply Forall_cons_iff in G. destruct G as [Hne G]. cbn [fst snd] in *.
  cbn [spaced map flat_map]. rewrite <- !app_assoc.
  rewrite collapse_gap by assumption. destruct g as [|c g]; [contradiction|].
  cbn [app]. now rewrite IH.
Qed.

Lemma join_spaces (w : jsstring) (ws : list jsstring) :
  join [32] (w :: ws) = w ++ flat_map (fun x => 32 :: x) ws.
Proof.
  revert w. induction ws as [|w' ws IH]; intros w; [cbn [join flat_map]; now rewrite app_nil_r|].
  change (join [32] (w :: w' :: ws)) with (w ++ [32] ++ join [32] (w' :: ws)).
  now rewrite IH.
Qed.

Lemma ends_clean_app (a b : jsstring) : b <> [] -> ends_clean b -> ends_clean (a ++ b).
Proof.
  intros Hne Hb r d E. destruct (exists_last Hne) as (b' & d' & ->).
  rewrite app_assoc in E. apply app_inj_tail in E. destruct E as [_ <-].
  exact (Hb b' d' eq_refl).
Qed.

Lemma ends_clean_word (w : jsstring) : word w -> ends_clean w.
Proof.
  intros [_ Hw] r d ->. rewrite forallb_app in Hw. apply andb_prop in Hw.
  destruct Hw as [_ Hd]. cbn [forallb] in Hd. rewrite andb_true_r in Hd.
  now apply negb_true_iff.
Qed.

Lemma ends_clean_words (w : jsstring) (ws : list jsstring) :
  word w -> Forall word ws -> ends_clean (w ++ flat_map (fun x => 32 :: x) ws).
Proof.
  intros Hw F. revert w Hw. induction F as [|w' ws Hw' _ IH]; intros w Hw.
  - cbn [flat_map]. rewrite app_nil_r. now apply ends_clean_word.
  - cbn [flat_map].
    replace (w ++ (32 :: w') ++ flat_map (fun x => 32 :: x) ws)
      with ((w ++ [32]) ++ w' ++ flat_map (fun x => 32 :: x) ws)
      by now rewrite <- app_assoc.
    apply (ends_clean_app (w ++ [32]) (w' ++ flat_map (fun x => 32 :: x) ws));
      [|now apply IH].
    destruct Hw' as [Hne _]. destruct w'; [contradiction | discriminate].
Qed.

(** A text that neither starts nor ends with white space is its own trim. *)
Lemma trim_clean (s : jsstring) :
  (forall c r, s = c :: r -> isWhiteSpace c = false) -> ends_clean s -> trim s = s.
Proof.
  intros Hh He. destruct s as [|c t]; [reflexivity|].
  pose proof (Hh c t eq_refl) as Wc.
  destruct t as [|e t]; [now apply trim_unit|].
  assert (Hne : e :: t <> []) by discriminate.
  destruct (exists_last Hne) as (m & d & E). rewrite E.
  apply trim_core; [exact Wc|]. apply (He (c :: m) d). now rewrite E.
Qed.

Lemma trim_words (w : jsstring) (ws : list jsstring) :
  word w -> Forall word ws ->
  trim (w ++ flat_map (fun x => 32 :: x) ws) = w ++ flat_map (fun x => 32 :: x) ws.
Proof.
  intros Hw F. apply trim_clean; [|now apply ends_clean_words].
  destruct Hw as [Hne Hw]. destruct w as [|c w]; [contradiction|].
  intros c' r E. injection E as <- _. cbn [forallb] in Hw. apply andb_prop in Hw.
  now apply negb_true_iff.
Qed.

(** Every text is words between runs of white space. *)
Lemma layout_exists (s : jsstring) :
  exists parts tail, layout parts /\ blank tail /\ s = spaced parts ++ tail.
Proof.
  induction s as [|c s (parts & tail & [F G] & Ht & E)].
  - exists [], []. repeat split; constructor.
  - destruct (isWhiteSpace c) eqn:W.
    + destruct parts as [|[g w] parts].
      * exists [], (c :: tail). cbn [spaced app] in *. subst s.
        repeat split; try constructor. unfold blank in *. cbn [forallb]. now rewrite W.
      * exists ((c :: g, w) :: parts), tail. cbn [spaced app tl] in *. subst s.
        apply Forall_cons_iff in F. destruct F as [[Hg Hw] F]. cbn [fst snd] in *.
        repeat split; try assumption. constructor; [|exact F]. cbn [fst snd].
        split; [|exact Hw]. unfold blank in *. cbn [forallb]. now rewrite W.
    + assert (Wd : word [c]).
      { split; [discriminate|]. cbn [forallb]. now rewrite W. }
      destruct parts as [|[g w] parts].
      * exists [([], [c])], tail. cbn [spaced app tl] in *. subst s.
        repeat split; try assumption; repeat constructor; try reflexivity; apply Wd.
      * apply Forall_cons_iff in F. destruct F as [[Hg Hw] F]. cbn [fst snd tl] in *.
        destruct g as [|d g].
        -- exists (([], c :: w) :: parts), tail. cbn [spaced app tl] in *. subst s.
           repeat split; try assumption. constructor; [|exact F]. cbn [fst snd].
           split; [reflexivity|]. split; [discriminate|]. cbn [forallb]. rewrite W.
           exact (proj2 Hw).
        -- exists (([], [c]) :: (d :: g, w) :: parts), tail. cbn [spaced app tl] in *.
           subst s. repeat split; try assumption.
           ++ constructor; [split; [reflexivity | exact Wd]|].
              constructor; [now split | exact F].
           ++ constructor; [discriminate | exact G].
Qed.

(** X27: the message an error box shows is the words of the message, in
    their order, with one space between them: every text is words between
    runs of white space (line breaks included), and [cleanMessage] drops the
    run before the first word and the run after the last one and puts one
    space for every run between two words.  So the message is on one line,
    its only white space is the space, never two in a row, and none at
    either end. *)
Theorem clean_message_joins_words (message : jsstring) :
  (exists parts tail, layout parts /\ blank tail /\ message = spaced parts ++ tail)
  /\ (forall parts tail,
        layout parts -> blank tail -> message = spaced parts ++ tail ->
        cleanMessage message = join [32] (map snd parts))
  /\ one_line (cleanMessage message)
  /\ Forall (fun c => isWhiteSpace c = true -> c = 32) (cleanMessage message)
  /\ single_spaced (cleanMessage message)
  /\ trim (cleanMessage message) = cleanMessage message.
Proof.
  split; [apply layout_exists|]. split.
  - intros parts tail [F G] Ht ->. unfold cleanMessage.
    destruct parts as [|[g w] parts].
    + cbn [spaced app map join]. apply trim_blank. now apply collapse_blank.
    + apply Forall_cons_iff in F. destruct F as [[Hg Hw] F]. cbn [fst snd tl] in *.
      cbn [spaced map]. rewrite <- !app_assoc.
      rewrite collapse_gap by assumption.
      rewrite collapse_spaced by assumption.
      rewrite trim_blank_l by (destruct g; reflexivity).
      rewrite app_assoc, trim_blank_r by (now apply collapse_blank).
      rewrite join_spaces. apply trim_words; [exact Hw|].
      apply Forall_map. eapply Forall_impl; [|exact F]. now intros p [_ H].
  - unfold cleanMessage.
    destruct (EnvFileFacts.trim_split (collapse false message)) as (q & q' & E & _ & _).
    pose proof (collapse_units message false) as U. rewrite E in U.
    apply Forall_app in U. destruct U as [_ U]. apply Forall_app in U. destruct U as [U _].
    pose proof (proj1 (collapse_single_spaced message false)) as S. rewrite E in S.
    apply single_spaced_app in S. destruct S as [_ S].
    apply single_spaced_app in S. destruct S as [S _].
    split; [|split; [exact U | split; [exact S | apply trim_idem]]].
    intros Hin. rewrite Forall_forall in U. specialize (U newline Hin eq_refl). discriminate.
Qed.


End UiFacts.

Module SampleFacts.
Import RotateKey BackupRestore JSLib SnapshotText EnvFileText Cli Fixtures Samples.
Import JSFacts TextFacts SnapshotParse.

Lemma absent (c : N) (s : jsstring) : existsb (N.eqb c) s = false -> ~ In c s.
Proof.
  intros H Hin. assert (E : existsb (N.eqb c) s = true).
  { apply existsb_exists. exists c. split; [exact Hin | apply N.eqb_refl]. }
  congruence.
Qed.

Lemma two_records_unique : NoDup (map alias (private_key two_records)).
Proof.
  cbn. repeat constructor; cbn; intros H; repeat destruct H as [H|H];
    try discriminate; assumption.
Qed.

Lemma two_records_decrypt (r : PrivateKeyRow) :
  In r (private_key two_records) ->
  exists plain, decrypt keyed_box (new_SecretBox key_a) (privateKeyHex r) = Return plain.
Proof.
  intros [<-|[<-|[]]]; eexists; vm_compute; reflexivity.
Qed.



Lemma encryption_key_name_plain : plain_name encryption_key_name.
Proof.
  constructor.
  - discriminate.
  - now apply one_line_test.
  - now apply absent.
  - vm_compute. reflexivity.
  - reflexivity.
Qed.

Lemma key_b_plain : plain_value key_b.
Proof. constructor; vm_compute; reflexivity. Qed.

End SampleFacts.

Module RunExamples.
Import RotateKey RotationOutcome BackupRestore JSLib SnapshotText EnvFileText.
Import KeyGenerators DbUtils Outside ChangePassword Reports Cli Ui SqlLiteral Fixtures Samples.
Import FixtureFacts SampleFacts SnapshotParse.

Lemma three_records_settled :
  exists outs t w',
    rotate_rows keyed_box quiet (new_SecretBox key_a) (new_SecretBox key_b)
      (private_key three_records) tally0 three_records = (Return t, w')
    /\ private_key w' = map settle (combine (private_key three_records) outs)
    /\ errors t = flat_map failure (combine (private_key three_records) outs)
    /\ successCount t = count isRotated outs
    /\ errorCount t = count isFailed outs
    /\ In (record_R, Failed (lit "Decryption failed - wrong key or corrupted data"))
         (combine (private_key three_records) outs)
    /\ (exists hex,
          In (record_A, Rotated hex) (combine (private_key three_records) outs)
          /\ decrypt keyed_box (new_SecretBox key_b) hex = Return (lit "deadbeef")
          /\ In {| alias := alias record_A; key_type := key_type record_A;
                   privateKeyHex := hex |} (private_key w'))
    /\ (exists hex,
          In (record_B, Rotated hex) (combine (private_key three_records) outs)
          /\ decrypt keyed_box (new_SecretBox key_b) hex = Return (lit "0123456789abcdef")
          /\ In {| alias := alias record_B; key_type := key_type record_B;
                   privateKeyHex := hex |} (private_key w')).
Proof.
  destruct (RotationRuns.records_settled_independently keyed_box quiet
              (new_SecretBox key_a) (new_SecretBox key_b) three_records
              RotationExamples.three_records_unique)
    as (outs & t & w' & E & _ & T & Er & Sc & Ec & _ & _ & Bad & Good).
  exists outs, t, w'. repeat split; try assumption.
  - apply Bad; [right; left; reflexivity | vm_compute; reflexivity].
  - apply (Good keyed_box_laws eq_refl record_A (lit "deadbeef"));
      [left; reflexivity | vm_compute; reflexivity | reflexivity].
  - apply (Good keyed_box_laws eq_refl record_B (lit "0123456789abcdef"));
      [right; right; left; reflexivity | vm_compute; reflexivity | reflexivity].
Defined.


Lemma two_records_rotated :
  exists w',
    rotateEncryptionKey keyed_box quiet key_a key_b two_records
    = (Return {| Types.RotateKeyResult.success := 2; Types.RotateKeyResult.errors := 0 |}, w')
    /\ Forall2 (fun r r' =>
                  alias r' = alias r /\ key_type r' = key_type r
                  /\ decrypt keyed_box (new_SecretBox key_b) (privateKeyHex r')
                     = decrypt keyed_box (new_SecretBox key_a) (privateKeyHex r))
         (private_key two_records) (private_key w')
    /\ drawn w' = 48%nat
    /\ reported w' = [].
Proof.
  apply (RotationRuns.healthy_rotation_succeeds keyed_box quiet key_a key_b two_records);
    [ exact keyed_box_laws | reflexivity | reflexivity | reflexivity | reflexivity
    | reflexivity | reflexivity | exact two_records_unique | exact two_records_decrypt ].
Defined.

Lemma three_records_client_closed :
  (exists middle,
     calls (snd (rotateEncryptionKey keyed_box quiet key_a key_b three_records))
     = calls three_records ++ [Connect] ++ middle ++ [End_]
     /\ Forall (fun c => c = SelectPrivateKeys
                         \/ exists hex target, c = UpdatePrivateKey hex target) middle)
  /\ (forall m, RotateKey.end_error quiet = Some m ->
        fst (rotateEncryptionKey keyed_box quiet key_a key_b three_records) = Throw m)
  /\ (forall m, RotateKey.connect_error quiet = Some m -> RotateKey.end_error quiet = None ->
        rotateEncryptionKey keyed_box quiet key_a key_b three_records
        = (Throw m,
           {| private_key := private_key three_records;
              calls := calls three_records ++ [Connect; End_];
              drawn := drawn three_records; reported := reported three_records |})).
Proof.
  apply (RotationRuns.rotation_closes_client keyed_box quiet key_a key_b three_records);
    reflexivity.
Defined.

Lemma stored_record_round_trips :
  isWellFormed (lit "deadbeef") = true
  /\ exists hex' w',
       encrypt keyed_box quiet (new_SecretBox key_b) (lit "deadbeef") (world_of [])
       = (Return hex', w')
       /\ decrypt keyed_box (new_SecretBox key_b) hex' = Return (lit "deadbeef").
Proof.
  apply (RotationRuns.decrypt_output_round_trips keyed_box quiet key_a key_b
           (stored key_a (lit "deadbeef")) (lit "deadbeef") (world_of []));
    [ exact keyed_box_laws | reflexivity | vm_compute; reflexivity ].
Defined.

Lemma mixed_statement_terminated :
  endsWith (lit "BAD;") (lit ";") = true /\ lit "BAD;" <> [] /\ trim (lit "BAD;") = lit "BAD;".
Proof.
  apply (ParserFacts.parsed_statements_terminated mixed_text (lit "BAD;")).
  vm_compute. right. left. reflexivity.
Defined.

Lemma open_statement_dropped :
  parseStatements (mixed_text ++ newline :: open_statement) = parseStatements mixed_text
  /\ parseStatements open_statement = [].
Proof.
  apply (ParserFacts.unterminated_tail_dropped mixed_text open_statement).
  vm_compute. repeat constructor.
Defined.

Lemma empty_line_of_value_dropped :
  parseStatements (insert_head ++ newline :: [] ++ newline :: insert_tail)
  = parseStatements (insert_head ++ newline :: insert_tail).
Proof.
  apply (ParserFacts.blank_and_comment_lines_dropped insert_head [] insert_tail);
    [ intros [] | right; reflexivity ].
Defined.


Lemma admin_end_failure_thrown_as_it_is :
  (input_file unclosed_admin = None
   /\ lit "Connection terminated" = lit "Backup file not found: " ++ lit "/tmp/backup.sql"
   /\ nothing_sent = nothing_sent)
  \/ (sent rejecting nothing_sent = sent rejecting nothing_sent
      /\ ((exists e, lit "Connection terminated" = restore_failed e)
          \/ (true = true /\ admin_connect_error unclosed_admin = None
              /\ admin_end_error unclosed_admin = Some (lit "Connection terminated"))))
  \/ (exists content,
        input_file unclosed_admin = Some content
        /\ BackupRestore.end_error unclosed_admin = Some (lit "Connection terminated")
        /\ sent rejecting nothing_sent
           = sent rejecting nothing_sent ++ parseStatements content).
Proof.
  apply (RestoreFailures.restore_throws_before_or_after rejecting unclosed_admin
           (lit "/tmp/backup.sql") true nothing_sent nothing_sent
           (lit "Connection terminated")).
  reflexivity.
Defined.

Lemma obrien_primary_key :
  (exists pks,
     getPrimaryKeys (primary_key_rows obrien_db) = Return pks
     /\ pk_get pks (lit "t")
        = match key_columns (primary_key_rows obrien_db) (lit "t") with
          | [] => None
          | cols => Some cols
          end
     /\ pk_property pks (lit "t")
        = match key_columns (primary_key_rows obrien_db) (lit "t") with
          | [] => Undefined
          | cols => Own cols
          end)
  /\ getPrimaryKeys [(lit "toString", lit "id")] = Throw push_not_a_function.
Proof.
  split.
  - apply (proj1 (PrimaryKeyFacts.primary_keys_grouped (primary_key_rows obrien_db) (lit "t")));
      [ repeat constructor | reflexivity ].
  - apply (proj2 (PrimaryKeyFacts.primary_keys_grouped [(lit "toString", lit "id")] [])).
    exists (lit "toString", lit "id"). split; [now left | reflexivity].
Defined.

Lemma first_character_from_four_bytes :
  length (filter (fun b => eqb (password_char [b] 0) (char_at chars (N.of_nat 0))) all_bytes)
  = if (0 <? 46)%nat then 4%nat else 3%nat.
Proof. apply (GeneratorFacts.password_characters_uneven 0). lia. Defined.

Lemma rejected_change_leaves_client_open :
  exists e,
    password_change_failed (lit "permission denied") = password_change_failed e
    /\ ((exists command, rejected_change = [] ++ [Exec command]
                         /\ exec read_only command = Throw e)
        \/ (exists config,
              connect read_only config = Some e /\ rejected_change = [] ++ [ClientConnect config])
        \/ (exists config sql,
              run read_only sql = Throw e
              /\ rejected_change = [] ++ [ClientConnect config; ClientQuery sql])
        \/ (exists config sql,
              close read_only = Some e
              /\ rejected_change = [] ++ [ClientConnect config; ClientQuery sql; ClientEnd])).
Proof.
  apply (ChangePasswordFacts.change_password_failures read_only new_password []
           rejected_change (password_change_failed (lit "permission denied")));
    [ vm_compute; lia | reflexivity ].
Defined.

Lemma generated_password_of_24 :
  exists password,
    generatePassword quiet 24 (world_of []) = (Return password, after_draw 24 (world_of []))
    /\ (forall userToChange,
          alter_user userToChange password
          = lit "ALTER USER " ++ userToChange ++ lit " WITH PASSWORD '"
            ++ password ++ lit "';")
    /\ (forall out target container config log,
          fst (changePassword out
                 {| newPassword := password; targetUser := target;
                    ChangePassword.container := container; dbConfig := config |} log)
          <> Throw (lit "New password must be at least 8 characters")).
Proof.
  apply (ChangePasswordFacts.generated_password_accepted quiet 24 (world_of [])). lia.
Defined.

Lemma size_just_below_one_megabyte :
  (1048575 < 1024 -> formatSize 1048575 = numberToString (Z.of_N 1048575) ++ lit " B")
  /\ (1024 <= 1048575 -> 1048575 < 1024 * 1024 ->
      exists n,
        formatSize 1048575
        = numberToString (Z.of_N (n / 100)) ++ lit "." ++ two_digits (n mod 100) ++ lit " KB"
        /\ 1024 * n <= 100 * 1048575 + 512 /\ 100 * 1048575 < 1024 * n + 512
        /\ 100 <= n /\ n <= 102400
        /\ (1048571 <= 1048575 -> formatSize 1048575 = lit "1024.00 KB"))
  /\ (1024 * 1024 <= 1048575 ->
      exists n,
        formatSize 1048575
        = numberToString (Z.of_N (n / 100)) ++ lit "." ++ two_digits (n mod 100) ++ lit " MB"
        /\ 1048576 * n <= 100 * 1048575 + 524288 /\ 100 * 1048575 < 1048576 * n + 524288
        /\ 100 <= n).
Proof. apply (ReportFacts.format_size_rounds 1048575). reflexivity. Defined.

Lemma loopback_127_0_0_1 :
  isLocalHost (lit "127" ++ lit "." ++ lit "0" ++ lit "." ++ lit "0" ++ lit "." ++ lit "1")
  = true
  /\ (forall p,
        toLowerCase p = lit "::ffff:127" ->
        isLocalHost (p ++ lit "." ++ lit "0" ++ lit "." ++ lit "0" ++ lit "." ++ lit "1") = true)
  /\ (forall port database user password overrideDatabase,
        client_ssl
          (buildClientConfig
             {| host := lit "127" ++ lit "." ++ lit "0" ++ lit "." ++ lit "0" ++ lit "."
                        ++ lit "1";
                port := port; database := database; user := user; password := password;
                ssl := None |} overrideDatabase) = None).
Proof.
  apply (DbUtilsFacts.loopback_is_local (lit "0") (lit "0") (lit "1"));
    (split; [discriminate | split; [cbn; lia | reflexivity]]).
Defined.

Lemma updated_env_file_loads_key_b :
  getenv (load_content (fst (update_content env_file encryption_key_name key_b)) [])
    encryption_key_name
  = Some key_b.
Proof.
  apply (EnvFileFacts.updated_file_loads_new_value env_file encryption_key_name key_b []);
    [ exact encryption_key_name_plain | exact key_b_plain | reflexivity | reflexivity ].
Defined.

Lemma env_file_rewritten :
  (snd (update_content env_file encryption_key_name key_b) = Updated
   <-> exists line k v,
         In line (split newline env_file)
         /\ matchAssignment line = Some (k, v) /\ trim k = encryption_key_name)
  /\ (snd (update_content env_file encryption_key_name key_b) = Appended ->
      fst (update_content env_file encryption_key_name key_b)
      = env_file ++ newline :: encryption_key_name ++ lit "=" ++ key_b)
  /\ (snd (update_content env_file encryption_key_name key_b) = Updated ->
      Forall2
        (fun old new =>
           (new = old
            /\ forall k v, matchAssignment old = Some (k, v) -> trim k <> encryption_key_name)
           \/ exists k v,
                matchAssignment old = Some (k, v) /\ trim k = encryption_key_name
                /\ new = encryption_key_name ++ lit "="
                         ++ (if hasQuotes dquote (trim v) then quoted key_b
                             else if hasQuotes squote (trim v)
                                  then [squote] ++ key_b ++ [squote]
                                  else key_b))
        (split newline env_file)
        (split newline (fst (update_content env_file encryption_key_name key_b)))).
Proof.
  apply (EnvFileFacts.update_rewrites_assignments_only env_file encryption_key_name key_b);
    now apply one_line_test.
Defined.

Lemma cyan_text_stripped :
  stripAnsi (paint (lit "96") (lit "ok")) = stripAnsi (lit "ok")
  /\ (~ In ESC (lit "ok") -> stripAnsi (paint (lit "96") (lit "ok")) = lit "ok")
  /\ stripAnsi (cyan (lit "ok")) = stripAnsi (lit "ok")
  /\ stripAnsi (red (lit "ok")) = stripAnsi (lit "ok")
  /\ stripAnsi (bold (white (lit "ok"))) = stripAnsi (lit "ok").
Proof. apply (UiFacts.strip_undoes_paint (lit "96") (lit "ok")). reflexivity. Defined.

Lemma obrien_text_reads_back :
  serializeValue (VOther (lit "O'Brien"))
  = Return (CString (squote :: doubleQuotes (lit "O'Brien") ++ [squote]))
  /\ cellToString (CString (squote :: doubleQuotes (lit "O'Brien") ++ [squote]))
     = squote :: doubleQuotes (lit "O'Brien") ++ [squote]
  /\ read (doubleQuotes (lit "O'Brien") ++ [squote] ++ lit ");")
     = Some (lit "O'Brien", lit ");").
Proof.
  apply (proj2 SqlLiteralFacts.quoted_text_reads_back (lit "O'Brien") (lit ");")).
  reflexivity.
Defined.

Lemma password_changed_on_both_paths :
  changePassword accepting short_password []
  = (Throw (lit "New password must be at least 8 characters"), [])
  /\ changePassword accepting in_container []
     = (Return true,
        [Exec (lit "docker exec vckit-postgres psql -U postgres -c "
               ++ quoted (alter_user (lit "vckit") (lit "correct horse")))])
  /\ changePassword accepting new_password [] = (Return true, rejected_change ++ [ClientEnd]).
Proof.
  split; [|split].
  - apply (proj1 (ChangePasswordFacts.change_password_checks_first
                    accepting short_password [])).
    vm_compute. lia.
  - refine (proj1 (proj2 (ChangePasswordFacts.change_password_checks_first
                            accepting in_container []))
              118 (lit "ckit-postgres") (lit " tablename" ++ [newline] ++ lit " private-key" ++ [newline]) _ eq_refl eq_refl).
    vm_compute. lia.
  - refine (proj2 (proj2 (ChangePasswordFacts.change_password_checks_first
                            accepting new_password []))
              [lit "private-key"] _ (or_introl eq_refl) eq_refl eq_refl eq_refl).
    vm_compute. lia.
Defined.

Lemma remote_host_uses_tls :
  client_ssl
    (buildClientConfig
       (remote_config (Some {| enabled := Some false; rejectUnauthorized := None |})) None)
  = None
  /\ client_ssl
       (buildClientConfig
          {| host := lit "localhost"; port := 5432; database := lit "vckit";
             user := lit "postgres"; password := None;
             ssl := Some {| enabled := Some true; rejectUnauthorized := None |} |} None)
     = Some true
  /\ client_ssl (buildClientConfig (remote_config None) None) = Some true
  /\ client_ssl (buildClientConfig local_config None) = None
  /\ ssl_rejectUnauthorized
       (ssl (remote_config (Some {| enabled := None; rejectUnauthorized := Some false |})))
     = Some false
  /\ client_database (buildClientConfig (remote_config None) (Some [])) = lit "vckit".
Proof.
  split; [|split; [|split; [|split; [|split]]]].
  - exact (proj1 (DbUtilsFacts.tls_decision
                    (remote_config (Some {| enabled := Some false;
                                            rejectUnauthorized := None |})) None) eq_refl).
  - exact (proj1 (proj2 (DbUtilsFacts.tls_decision
                    {| host := lit "localhost"; port := 5432; database := lit "vckit";
                       user := lit "postgres"; password := None;
                       ssl := Some {| enabled := Some true; rejectUnauthorized := None |} |}
                    None)) eq_refl).
  - exact (proj1 (proj2 (proj2 (DbUtilsFacts.tls_decision (remote_config None) None)))
             eq_refl).
  - exact (proj1 (proj2 (proj2 (DbUtilsFacts.tls_decision local_config None))) eq_refl).
  - exact (proj1 (proj2 (proj2 (proj2 (DbUtilsFacts.tls_decision
                    (remote_config (Some {| enabled := None;
                                            rejectUnauthorized := Some false |})) None))))
             eq_refl).
  - exact (proj1 (proj2 (proj2 (proj2 (proj2 (DbUtilsFacts.tls_decision
                    (remote_config None) (Some [])))))) (or_intror eq_refl)).
Defined.

Lemma private_key_hides_key :
  (exists r log',
     verifyDatabase accepting (Some (lit "vckit-postgres")) local_config [] = (Return r, log')
     /\ ~ In (lit "key") (missing r)
     /\ (valid r = true <-> missing r = []))
  /\ (exists r log',
        verifyDatabase accepting None local_config [] = (Return r, log')
        /\ (In (lit "key") (missing r)
            <-> ~ In (lit "key") (map toLowerCase [lit "private-key"]))
        /\ (valid r = true <-> missing r = [])).
Proof.
  split.
  - refine (proj1 (ReportFacts.verification_paths_differ accepting local_config [])
              118 (lit "ckit-postgres")
              (lit " tablename" ++ [newline] ++ lit " private-key" ++ [newline])
              eq_refl _ _); vm_compute; reflexivity.
  - refine (proj2 (ReportFacts.verification_paths_differ accepting local_config [])
              [lit "private-key"] eq_refl eq_refl eq_refl _).
    repeat constructor.
Defined.

Lemma refused_and_failed_verification :
  verifyDatabase refusing None local_config []
  = (Throw (verification_failed (lit "ECONNREFUSED")), [ClientConnect local_config])
  /\ snd (verifyDatabase read_only None local_config [])
     = [ClientConnect local_config; ClientQuery list_tables; ClientEnd]
  /\ fst (verifyDatabase read_only None local_config []) = Throw (lit "permission denied").
Proof.
  split; [|split].
  - exact (proj1 (ReportFacts.verification_closes_client refusing local_config [])
             (lit "ECONNREFUSED") eq_refl).
  - exact (proj1 (proj2 (ReportFacts.verification_closes_client read_only local_config []))
             eq_refl).
  - exact (proj2 (proj2 (ReportFacts.verification_closes_client read_only local_config []))
             (lit "permission denied") eq_refl eq_refl eq_refl).
Defined.

Lemma set_variable_kept :
  getenv (load_content env_file [(encryption_key_name, key_b)]) encryption_key_name
  = Some key_b
  /\ getenv (load_content (env_file ++ newline :: lit "DATABASE_NAME=other") [])
       (lit "DATABASE_NAME")
     = Some (lit "vckit").
Proof.
  split.
  - apply (proj1 (EnvFileFacts.env_file_never_overrides env_file [] encryption_key_name
                    key_b [(encryption_key_name, key_b)])).
    vm_compute. reflexivity.
  - apply (proj2 (EnvFileFacts.env_file_never_overrides env_file (lit "DATABASE_NAME=other")
                    (lit "DATABASE_NAME") (lit "vckit") [])).
    vm_compute. reflexivity.
Defined.

Lemma dos_file_keeps_old_value :
  update_content dos_file encryption_key_name key_a
  = (dos_file ++ newline :: encryption_key_name ++ lit "=" ++ key_a, Appended)
  /\ getenv (load_content (fst (update_content dos_file encryption_key_name key_a)) [])
       encryption_key_name
     = Some key_b.
Proof.
  split.
  - apply (proj1 (EnvFileFacts.carriage_returns_hide_assignments
                    encryption_key_name key_b key_a) dos_file).
    replace (split newline dos_file) with [encryption_key_name ++ lit "=" ++ key_b ++ [13]; []]
      by (vm_compute; reflexivity).
    constructor; [|constructor; [left; reflexivity|constructor]].
    right. exists (encryption_key_name ++ lit "=" ++ key_b).
    now rewrite <- !app_assoc.
  - apply (proj2 (EnvFileFacts.carriage_returns_hide_assignments
                    encryption_key_name key_b key_a) []);
      [ exact encryption_key_name_plain | exact key_b_plain | reflexivity ].
Defined.

Lemma refused_message_cleaned :
  cleanMessage sample_message = lit "connect ECONNREFUSED 127.0.0.1:5432".
Proof.
  apply (proj1 (proj2 (UiFacts.clean_message_joins_words sample_message))
           [(lit "  ", lit "connect"); (lit " ", lit "ECONNREFUSED");
            (newline :: lit "   ", lit "127.0.0.1:5432")]
           (lit " " ++ [newline])).
  - split; repeat constructor; try reflexivity; discriminate.
  - reflexivity.
  - reflexivity.
Defined.

End RunExamples.
